(** * NEB breakup animation: a shallow embedding of the animator and its effects

    The development embeds [BreakupAnimator] (the animation state machine) and
    the part of [ParticleSystem] it drives (entity creation and the per-tick
    effect updates).

    - JavaScript numbers are IEEE-754 binary64 values: Rocq's primitive
      [float], whose operations round exactly as the JavaScript ones do.
    - three.js objects live in a store indexed by allocation order; a
      reference is an index, so two fields naming one object alias it, as in
      the source.  Sub-objects of a group are owned by it and kept in its
      [children]; a [userData] field that names a child holds its index.
    - The scene is the ordered list of the references added to it.
    - Statements that can raise (a property read on [undefined]) are written
      in a state-and-exception monad whose state survives a raise, as object
      mutations do in JavaScript.
    - [Math.random], [Math.sin], [Math.cos] and [Math.acos] belong to the
      host: the state carries them (a tape of draws and three functions).
    - Geometry, colours and other render-only attributes are left out. *)

From Stdlib Require Import Floats ZArith Lia.
From stdpp Require Import base list strings.

Set Warnings "-inexact-float,-register-all".

(** ** Numbers *)

Module Num.
Local Open Scope float_scope.

(** A missing numeric property reads as [undefined], which arithmetic
    turns into NaN. *)
Definition of_opt (o : option float) : float := default nan o.

(** JavaScript truthiness of a possibly missing number. *)
Definition truthy (o : option float) : bool :=
  match o with
  | Some v => negb (PrimFloat.eqb v 0) && negb (PrimFloat.is_nan v)
  | None => false
  end.

(** [a || b] on numbers. *)
Definition or_else (a b : float) : float :=
  if truthy (Some a) then a else b.

Definition Math_PI : float := 0x1.921fb54442d18p+1.

(** [Math.max] of two numbers: NaN if either is NaN. *)
Definition Math_max (a b : float) : float :=
  if PrimFloat.is_nan a || PrimFloat.is_nan b then nan
  else if a <? b then b else a.

(** The integer part (towards minus infinity) of a finite float. *)
Definition floorZ (f : float) : Z :=
  match Prim2SF f with
  | S754_finite s m e =>
      let v := if s then Z.neg m else Z.pos m in
      if (0 <=? e)%Z then (v * 2 ^ e)%Z else (v / 2 ^ (- e))%Z
  | _ => 0%Z
  end.

Definition of_Z (z : Z) : float :=
  match z with
  | Z0 => 0
  | Zpos _ => PrimFloat.of_uint63 (Uint63.of_Z z)
  | Zneg _ => - PrimFloat.of_uint63 (Uint63.of_Z (- z))
  end.

(** [Math.floor]: floats with a non-negative exponent are integers
    already; the others are below 2^53 in magnitude, so the conversion
    back is exact. *)
Definition Math_floor (f : float) : float :=
  match Prim2SF f with
  | S754_finite _ _ e => if (0 <=? e)%Z then f else of_Z (floorZ f)
  | _ => f
  end.

(** Whether [for (let i = 0; i < count; i++)] comes to an end.  Up to 2^53
    the counter reaches [count]; above it, and for an infinite [count], [i++]
    leaves [i] at 2^53 and the loop runs for ever.  A NaN ends it at once. *)
Definition loop_ends (count : float) : bool := negb (0x1p+53 <? count).

(** Number of rounds of [for (let i = 0; i < count; i++)] when the loop
    ends: none when [count] is NaN or not positive, [count] rounded up
    otherwise.  The callers pass 2 or [3 + Math.floor(Math.random() * 3)];
    for a [count] with [loop_ends count = false] the number means nothing. *)
Definition iterations (count : float) : nat :=
  match Prim2SF count with
  | S754_finite false m e =>
      if (0 <=? e)%Z then Z.to_nat (Z.pos m * 2 ^ e)
      else Z.to_nat (- ((- Z.pos m) / 2 ^ (- e)))
  | _ => 0%nat
  end.
End Num.

(** ** The vector collaborator (three.js [Vector3]) *)

Module Vector3.
Local Open Scope float_scope.

Record t := mk { x : float; y : float; z : float }.

Definition zero : t := mk 0 0 0.
Definition one : t := mk 1 1 1.

Definition add (a v : t) : t := mk (x a + x v) (y a + y v) (z a + z v).
Definition subVectors (a b : t) : t := mk (x a - x b) (y a - y b) (z a - z b).
Definition multiplyScalar (a : t) (s : float) : t := mk (x a * s) (y a * s) (z a * s).
Definition length (a : t) : float :=
  PrimFloat.sqrt (x a * x a + y a * y a + z a * z a).
Definition divideScalar (a : t) (s : float) : t := multiplyScalar a (1 / s).
Definition normalize (a : t) : t := divideScalar a (Num.or_else (length a) 1).
Definition distanceToSquared (a v : t) : float :=
  let dx := x a - x v in
  let dy := y a - y v in
  let dz := z a - z v in
  dx * dx + dy * dy + dz * dz.
Definition distanceTo (a v : t) : float := PrimFloat.sqrt (distanceToSquared a v).
(** [scale.set(s, s, s)] *)
Definition uniform (s : float) : t := mk s s s.
End Vector3.

(** ** Data model *)

(** A reference to a stored object: its index in the store. *)
Abbreviation ref := nat.

Module Material.
Record t := mk { opacity : float; emissiveIntensity : option float }.
Definition basic (o : float) : t := mk o None.
Definition phong (o e : float) : t := mk o (Some e).
Definition set_opacity (o : float) (m : t) : t := mk o (emissiveIntensity m).
Definition set_emissiveIntensity (e : float) (m : t) : t := mk (opacity m) (Some e).
End Material.

(** [userData]: a duck-typed property bag.  Every property any creator sets
    and any update reads is a field; an absent property is [None].  The
    properties [ring], [flash], [beam], [core], [hot] and [shell] name a child
    of the same object and hold its index in [children]; [particle] names a
    stored object. *)
Module UserData.
Record t := mk {
  type : option string;
  charge : option float;
  mass : option float;
  velocity : option Vector3.t;
  life : option float;
  decay : option float;
  ring : option nat;
  flash : option nat;
  beam : option nat;
  core : option nat;
  hot : option nat;
  shell : option nat;
  maxRadius : option float;
  currentRadius : option float;
  pulsePhase : option float;
  excitationLevel : option float;
  phase : option float;
  delay : option float;
  rotationSpeed : option float;
  oscillateSpeed : option float;
  oscillatePhase : option float;
  particle : option ref;
  points : option (list Vector3.t)
}.

(** The empty bag [{}] every three.js object starts with. *)
Definition empty : t :=
  mk None None None None None None None None None None None None
     None None None None None None None None None None None.

Definition set_type v (u : t) : t :=
  mk (Some v) (charge u) (mass u) (velocity u) (life u) (decay u) (ring u) (flash u)
    (beam u) (core u) (hot u) (shell u) (maxRadius u) (currentRadius u)
    (pulsePhase u) (excitationLevel u) (phase u) (delay u) (rotationSpeed u)
    (oscillateSpeed u) (oscillatePhase u) (particle u) (points u).
Definition set_charge v (u : t) : t :=
  mk (type u) (Some v) (mass u) (velocity u) (life u) (decay u) (ring u) (flash u)
    (beam u) (core u) (hot u) (shell u) (maxRadius u) (currentRadius u)
    (pulsePhase u) (excitationLevel u) (phase u) (delay u) (rotationSpeed u)
    (oscillateSpeed u) (oscillatePhase u) (particle u) (points u).
Definition set_mass v (u : t) : t :=
  mk (type u) (charge u) (Some v) (velocity u) (life u) (decay u) (ring u) (flash u)
    (beam u) (core u) (hot u) (shell u) (maxRadius u) (currentRadius u)
    (pulsePhase u) (excitationLevel u) (phase u) (delay u) (rotationSpeed u)
    (oscillateSpeed u) (oscillatePhase u) (particle u) (points u).
Definition set_velocity v (u : t) : t :=
  mk (type u) (charge u) (mass u) (Some v) (life u) (decay u) (ring u) (flash u)
    (beam u) (core u) (hot u) (shell u) (maxRadius u) (currentRadius u)
    (pulsePhase u) (excitationLevel u) (phase u) (delay u) (rotationSpeed u)
    (oscillateSpeed u) (oscillatePhase u) (particle u) (points u).
Definition set_life v (u : t) : t :=
  mk (type u) (charge u) (mass u) (velocity u) (Some v) (decay u) (ring u) (flash u)
    (beam u) (core u) (hot u) (shell u) (maxRadius u) (currentRadius u)
    (pulsePhase u) (excitationLevel u) (phase u) (delay u) (rotationSpeed u)
    (oscillateSpeed u) (oscillatePhase u) (particle u) (points u).
Definition set_decay v (u : t) : t :=
  mk (type u) (charge u) (mass u) (velocity u) (life u) (Some v) (ring u) (flash u)
    (beam u) (core u) (hot u) (shell u) (maxRadius u) (currentRadius u)
    (pulsePhase u) (excitationLevel u) (phase u) (delay u) (rotationSpeed u)
    (oscillateSpeed u) (oscillatePhase u) (particle u) (points u).
Definition set_ring v (u : t) : t :=
  mk (type u) (charge u) (mass u) (velocity u) (life u) (decay u) (Some v) (flash u)
    (beam u) (core u) (hot u) (shell u) (maxRadius u) (currentRadius u)
    (pulsePhase u) (excitationLevel u) (phase u) (delay u) (rotationSpeed u)
    (oscillateSpeed u) (oscillatePhase u) (particle u) (points u).
Definition set_flash v (u : t) : t :=
  mk (type u) (charge u) (mass u) (velocity u) (life u) (decay u) (ring u) (Some v)
    (beam u) (core u) (hot u) (shell u) (maxRadius u) (currentRadius u)
    (pulsePhase u) (excitationLevel u) (phase u) (delay u) (rotationSpeed u)
    (oscillateSpeed u) (oscillatePhase u) (particle u) (points u).
Definition set_beam v (u : t) : t :=
  mk (type u) (charge u) (mass u) (velocity u) (life u) (decay u) (ring u) (flash u)
    (Some v) (core u) (hot u) (shell u) (maxRadius u) (currentRadius u)
    (pulsePhase u) (excitationLevel u) (phase u) (delay u) (rotationSpeed u)
    (oscillateSpeed u) (oscillatePhase u) (particle u) (points u).
Definition set_core v (u : t) : t :=
  mk (type u) (charge u) (mass u) (velocity u) (life u) (decay u) (ring u) (flash u)
    (beam u) (Some v) (hot u) (shell u) (maxRadius u) (currentRadius u)
    (pulsePhase u) (excitationLevel u) (phase u) (delay u) (rotationSpeed u)
    (oscillateSpeed u) (oscillatePhase u) (particle u) (points u).
Definition set_hot v (u : t) : t :=
  mk (type u) (charge u) (mass u) (velocity u) (life u) (decay u) (ring u) (flash u)
    (beam u) (core u) (Some v) (shell u) (maxRadius u) (currentRadius u)
    (pulsePhase u) (excitationLevel u) (phase u) (delay u) (rotationSpeed u)
    (oscillateSpeed u) (oscillatePhase u) (particle u) (points u).
Definition set_shell v (u : t) : t :=
  mk (type u) (charge u) (mass u) (velocity u) (life u) (decay u) (ring u) (flash u)
    (beam u) (core u) (hot u) (Some v) (maxRadius u) (currentRadius u) (pulsePhase u)
    (excitationLevel u) (phase u) (delay u) (rotationSpeed u) (oscillateSpeed u)
    (oscillatePhase u) (particle u) (points u).
Definition set_maxRadius v (u : t) : t :=
  mk (type u) (charge u) (mass u) (velocity u) (life u) (decay u) (ring u) (flash u)
    (beam u) (core u) (hot u) (shell u) (Some v) (currentRadius u) (pulsePhase u)
    (excitationLevel u) (phase u) (delay u) (rotationSpeed u) (oscillateSpeed u)
    (oscillatePhase u) (particle u) (points u).
Definition set_currentRadius v (u : t) : t :=
  mk (type u) (charge u) (mass u) (velocity u) (life u) (decay u) (ring u) (flash u)
    (beam u) (core u) (hot u) (shell u) (maxRadius u) (Some v) (pulsePhase u)
    (excitationLevel u) (phase u) (delay u) (rotationSpeed u) (oscillateSpeed u)
    (oscillatePhase u) (particle u) (points u).
Definition set_pulsePhase v (u : t) : t :=
  mk (type u) (charge u) (mass u) (velocity u) (life u) (decay u) (ring u) (flash u)
    (beam u) (core u) (hot u) (shell u) (maxRadius u) (currentRadius u) (Some v)
    (excitationLevel u) (phase u) (delay u) (rotationSpeed u) (oscillateSpeed u)
    (oscillatePhase u) (particle u) (points u).
Definition set_excitationLevel v (u : t) : t :=
  mk (type u) (charge u) (mass u) (velocity u) (life u) (decay u) (ring u) (flash u)
    (beam u) (core u) (hot u) (shell u) (maxRadius u) (currentRadius u)
    (pulsePhase u) (Some v) (phase u) (delay u) (rotationSpeed u) (oscillateSpeed u)
    (oscillatePhase u) (particle u) (points u).
Definition set_phase v (u : t) : t :=
  mk (type u) (charge u) (mass u) (velocity u) (life u) (decay u) (ring u) (flash u)
    (beam u) (core u) (hot u) (shell u) (maxRadius u) (currentRadius u)
    (pulsePhase u) (excitationLevel u) (Some v) (delay u) (rotationSpeed u)
    (oscillateSpeed u) (oscillatePhase u) (particle u) (points u).
Definition set_delay v (u : t) : t :=
  mk (type u) (charge u) (mass u) (velocity u) (life u) (decay u) (ring u) (flash u)
    (beam u) (core u) (hot u) (shell u) (maxRadius u) (currentRadius u)
    (pulsePhase u) (excitationLevel u) (phase u) (Some v) (rotationSpeed u)
    (oscillateSpeed u) (oscillatePhase u) (particle u) (points u).
Definition set_rotationSpeed v (u : t) : t :=
  mk (type u) (charge u) (mass u) (velocity u) (life u) (decay u) (ring u) (flash u)
    (beam u) (core u) (hot u) (shell u) (maxRadius u) (currentRadius u)
    (pulsePhase u) (excitationLevel u) (phase u) (delay u) (Some v)
    (oscillateSpeed u) (oscillatePhase u) (particle u) (points u).
Definition set_oscillateSpeed v (u : t) : t :=
  mk (type u) (charge u) (mass u) (velocity u) (life u) (decay u) (ring u) (flash u)
    (beam u) (core u) (hot u) (shell u) (maxRadius u) (currentRadius u)
    (pulsePhase u) (excitationLevel u) (phase u) (delay u) (rotationSpeed u) (Some v)
    (oscillatePhase u) (particle u) (points u).
Definition set_oscillatePhase v (u : t) : t :=
  mk (type u) (charge u) (mass u) (velocity u) (life u) (decay u) (ring u) (flash u)
    (beam u) (core u) (hot u) (shell u) (maxRadius u) (currentRadius u)
    (pulsePhase u) (excitationLevel u) (phase u) (delay u) (rotationSpeed u)
    (oscillateSpeed u) (Some v) (particle u) (points u).
Definition set_particle v (u : t) : t :=
  mk (type u) (charge u) (mass u) (velocity u) (life u) (decay u) (ring u) (flash u)
    (beam u) (core u) (hot u) (shell u) (maxRadius u) (currentRadius u)
    (pulsePhase u) (excitationLevel u) (phase u) (delay u) (rotationSpeed u)
    (oscillateSpeed u) (oscillatePhase u) (Some v) (points u).
Definition set_points v (u : t) : t :=
  mk (type u) (charge u) (mass u) (velocity u) (life u) (decay u) (ring u) (flash u)
    (beam u) (core u) (hot u) (shell u) (maxRadius u) (currentRadius u)
    (pulsePhase u) (excitationLevel u) (phase u) (delay u) (rotationSpeed u)
    (oscillateSpeed u) (oscillatePhase u) (particle u) (Some v).
End UserData.

(** A three.js [Object3D] ([Mesh], [Group] or [Line]).  A [Group] has no
    material. *)
Module Object3D.
Inductive t := mk {
  position : Vector3.t;
  scale : Vector3.t;
  rotation : Vector3.t;
  visible : bool;
  material : option Material.t;
  children : list t;
  userData : option UserData.t
}.

Definition Group : t :=
  mk Vector3.zero Vector3.one Vector3.zero true None [] (Some UserData.empty).
Definition Mesh (m : Material.t) : t :=
  mk Vector3.zero Vector3.one Vector3.zero true (Some m) [] (Some UserData.empty).
(** [new THREE.Line(geometry, material)] *)
Definition Line (m : Material.t) : t := Mesh m.

Definition set_position v (o : t) : t :=
  mk v (scale o) (rotation o) (visible o) (material o) (children o) (userData o).
Definition set_scale v (o : t) : t :=
  mk (position o) v (rotation o) (visible o) (material o) (children o) (userData o).
Definition set_rotation v (o : t) : t :=
  mk (position o) (scale o) v (visible o) (material o) (children o) (userData o).
Definition set_visible v (o : t) : t :=
  mk (position o) (scale o) (rotation o) v (material o) (children o) (userData o).
Definition set_material v (o : t) : t :=
  mk (position o) (scale o) (rotation o) (visible o) v (children o) (userData o).
Definition set_children v (o : t) : t :=
  mk (position o) (scale o) (rotation o) (visible o) (material o) v (userData o).
Definition set_userData v (o : t) : t :=
  mk (position o) (scale o) (rotation o) (visible o) (material o) (children o) v.

(** [group.add(child)] *)
Definition add (child : t) (o : t) : t := set_children (children o ++ [child]) o.

(** [o.material.opacity = v], where [o] is known to have a material. *)
Definition set_opacity (v : float) (o : t) : t :=
  set_material (Material.set_opacity v <$> material o) o.
End Object3D.

(** The animation record the three [create...Breakup] methods build.
    Properties a kind does not have are [None]. *)
Module Animation.
Record t := mk {
  type : string;
  projectile : option ref;
  target : option ref;
  phase : string;
  time : float;
  impactParam : float;
  fragments : list ref;
  trails : list ref;
  effects : list ref;
  absorbedFragment : option ref;
  escapingFragment : option ref;
  compoundNucleus : option ref;
  excitedTarget : option ref;
  gammaRays : option (list ref);
  energyWaves : option (list ref);
  resonanceTime : option float;
  maxResonanceTime : option float
}.

Definition set_phase v (a : t) : t :=
  mk (type a) (projectile a) (target a) v (time a) (impactParam a) (fragments a)
    (trails a) (effects a) (absorbedFragment a) (escapingFragment a)
    (compoundNucleus a) (excitedTarget a) (gammaRays a) (energyWaves a)
    (resonanceTime a) (maxResonanceTime a).
Definition set_time v (a : t) : t :=
  mk (type a) (projectile a) (target a) (phase a) v (impactParam a) (fragments a)
    (trails a) (effects a) (absorbedFragment a) (escapingFragment a)
    (compoundNucleus a) (excitedTarget a) (gammaRays a) (energyWaves a)
    (resonanceTime a) (maxResonanceTime a).
Definition set_fragments v (a : t) : t :=
  mk (type a) (projectile a) (target a) (phase a) (time a) (impactParam a) v
    (trails a) (effects a) (absorbedFragment a) (escapingFragment a)
    (compoundNucleus a) (excitedTarget a) (gammaRays a) (energyWaves a)
    (resonanceTime a) (maxResonanceTime a).
Definition set_trails v (a : t) : t :=
  mk (type a) (projectile a) (target a) (phase a) (time a) (impactParam a)
    (fragments a) v (effects a) (absorbedFragment a) (escapingFragment a)
    (compoundNucleus a) (excitedTarget a) (gammaRays a) (energyWaves a)
    (resonanceTime a) (maxResonanceTime a).
Definition set_effects v (a : t) : t :=
  mk (type a) (projectile a) (target a) (phase a) (time a) (impactParam a)
    (fragments a) (trails a) v (absorbedFragment a) (escapingFragment a)
    (compoundNucleus a) (excitedTarget a) (gammaRays a) (energyWaves a)
    (resonanceTime a) (maxResonanceTime a).
Definition set_absorbedFragment v (a : t) : t :=
  mk (type a) (projectile a) (target a) (phase a) (time a) (impactParam a)
    (fragments a) (trails a) (effects a) v (escapingFragment a) (compoundNucleus a)
    (excitedTarget a) (gammaRays a) (energyWaves a) (resonanceTime a)
    (maxResonanceTime a).
Definition set_escapingFragment v (a : t) : t :=
  mk (type a) (projectile a) (target a) (phase a) (time a) (impactParam a)
    (fragments a) (trails a) (effects a) (absorbedFragment a) v (compoundNucleus a)
    (excitedTarget a) (gammaRays a) (energyWaves a) (resonanceTime a)
    (maxResonanceTime a).
Definition set_compoundNucleus v (a : t) : t :=
  mk (type a) (projectile a) (target a) (phase a) (time a) (impactParam a)
    (fragments a) (trails a) (effects a) (absorbedFragment a) (escapingFragment a) v
    (excitedTarget a) (gammaRays a) (energyWaves a) (resonanceTime a)
    (maxResonanceTime a).
Definition set_excitedTarget v (a : t) : t :=
  mk (type a) (projectile a) (target a) (phase a) (time a) (impactParam a)
    (fragments a) (trails a) (effects a) (absorbedFragment a) (escapingFragment a)
    (compoundNucleus a) v (gammaRays a) (energyWaves a) (resonanceTime a)
    (maxResonanceTime a).
Definition set_gammaRays v (a : t) : t :=
  mk (type a) (projectile a) (target a) (phase a) (time a) (impactParam a)
    (fragments a) (trails a) (effects a) (absorbedFragment a) (escapingFragment a)
    (compoundNucleus a) (excitedTarget a) v (energyWaves a) (resonanceTime a)
    (maxResonanceTime a).
Definition set_energyWaves v (a : t) : t :=
  mk (type a) (projectile a) (target a) (phase a) (time a) (impactParam a)
    (fragments a) (trails a) (effects a) (absorbedFragment a) (escapingFragment a)
    (compoundNucleus a) (excitedTarget a) (gammaRays a) v (resonanceTime a)
    (maxResonanceTime a).
Definition set_resonanceTime v (a : t) : t :=
  mk (type a) (projectile a) (target a) (phase a) (time a) (impactParam a)
    (fragments a) (trails a) (effects a) (absorbedFragment a) (escapingFragment a)
    (compoundNucleus a) (excitedTarget a) (gammaRays a) (energyWaves a) v
    (maxResonanceTime a).
End Animation.

(** What [console.log] and [console.error] printed. *)
Inductive LogEntry :=
| Log (msg : string)
| LogNumber (msg : string) (n : float)
| LogVector (msg : string) (v : Vector3.t)
| LogString (msg : string) (text : string)
| LogError (msg : string) (error : string).

(** The animator together with the objects it reaches: the store, the
    scene's children, the particle system's settings, the host's [Math] and
    console, and the animator's own fields. *)
Record State := mkState {
  objects : list Object3D.t;
  scene : list ref;
  trailsEnabled : bool;
  trailLength : nat;
  Math_random_tape : nat -> float;
  Math_random_pos : nat;
  Math_sin : float -> float;
  Math_cos : float -> float;
  Math_acos : float -> float;
  console : list LogEntry;
  isPlaying : bool;
  speed : float;
  currentAnimation : option Animation.t
}.

Definition set_objects v (s : State) : State :=
  mkState v (scene s) (trailsEnabled s) (trailLength s) (Math_random_tape s)
    (Math_random_pos s) (Math_sin s) (Math_cos s) (Math_acos s) (console s)
    (isPlaying s) (speed s) (currentAnimation s).
Definition set_scene v (s : State) : State :=
  mkState (objects s) v (trailsEnabled s) (trailLength s) (Math_random_tape s)
    (Math_random_pos s) (Math_sin s) (Math_cos s) (Math_acos s) (console s)
    (isPlaying s) (speed s) (currentAnimation s).
Definition set_trailsEnabled v (s : State) : State :=
  mkState (objects s) (scene s) v (trailLength s) (Math_random_tape s)
    (Math_random_pos s) (Math_sin s) (Math_cos s) (Math_acos s) (console s)
    (isPlaying s) (speed s) (currentAnimation s).
Definition set_Math_random_pos v (s : State) : State :=
  mkState (objects s) (scene s) (trailsEnabled s) (trailLength s) (Math_random_tape s)
    v (Math_sin s) (Math_cos s) (Math_acos s) (console s) (isPlaying s) (speed s)
    (currentAnimation s).
Definition set_console v (s : State) : State :=
  mkState (objects s) (scene s) (trailsEnabled s) (trailLength s) (Math_random_tape s)
    (Math_random_pos s) (Math_sin s) (Math_cos s) (Math_acos s) v (isPlaying s)
    (speed s) (currentAnimation s).
Definition set_isPlaying v (s : State) : State :=
  mkState (objects s) (scene s) (trailsEnabled s) (trailLength s) (Math_random_tape s)
    (Math_random_pos s) (Math_sin s) (Math_cos s) (Math_acos s) (console s) v (speed s)
    (currentAnimation s).
Definition set_speed v (s : State) : State :=
  mkState (objects s) (scene s) (trailsEnabled s) (trailLength s) (Math_random_tape s)
    (Math_random_pos s) (Math_sin s) (Math_cos s) (Math_acos s) (console s)
    (isPlaying s) v (currentAnimation s).
Definition set_currentAnimation v (s : State) : State :=
  mkState (objects s) (scene s) (trailsEnabled s) (trailLength s) (Math_random_tape s)
    (Math_random_pos s) (Math_sin s) (Math_cos s) (Math_acos s) (console s)
    (isPlaying s) (speed s) v.

(** ** The monad: state that survives a raise *)

Inductive outcome (A : Type) :=
| Ok (a : A)
| Throw (error : string).
Arguments Ok {A} a.
Arguments Throw {A} error.

Definition M (A : Type) : Type := State -> outcome A * State.

Definition ret {A} (a : A) : M A := fun s => (Ok a, s).

Definition bind {A B} (m : M A) (f : A -> M B) : M B :=
  fun s =>
    match m s with
    | (Ok a, s') => f a s'
    | (Throw e, s') => (Throw e, s')
    end.

Definition throw {A} (e : string) : M A := fun s => (Throw e, s).

(** [try { m } catch (error) { h error }] *)
Definition try_catch {A} (m : M A) (h : string -> M A) : M A :=
  fun s =>
    match m s with
    | (Ok a, s') => (Ok a, s')
    | (Throw e, s') => h e s'
    end.

Definition gets {A} (f : State -> A) : M A := fun s => (Ok (f s), s).
Definition modify (f : State -> State) : M unit := fun s => (Ok tt, f s).

Declare Scope M_scope.
Delimit Scope M_scope with M.
Bind Scope M_scope with M.
Notation "x <- m ;; k" := (bind m (fun x => k))
  (at level 100, m at next level, k at level 200, right associativity) : M_scope.
Notation "m ;;; k" := (bind m (fun _ => k))
  (at level 100, k at level 200, right associativity) : M_scope.
Local Open Scope M_scope.

(** A property read on [undefined] or [null] raises. *)
Definition TypeError : string := "TypeError".
Definition required {A} (o : option A) : M A :=
  match o with
  | Some a => ret a
  | None => throw TypeError
  end.

(** [list.forEach(f)] *)
Fixpoint forEach {A} (f : A -> M unit) (l : list A) : M unit :=
  match l with
  | [] => ret tt
  | a :: l' => f a ;;; forEach f l'
  end.

(** [list.forEach((a, index) => f(index, a))], counting from [i]. *)
Fixpoint forEachIndexed {A} (f : nat -> A -> M unit) (i : nat) (l : list A) : M unit :=
  match l with
  | [] => ret tt
  | a :: l' => f i a ;;; forEachIndexed f (S i) l'
  end.

(** [list.filter(p)] with an effectful predicate. *)
Fixpoint filterM {A} (p : A -> M bool) (l : list A) : M (list A) :=
  match l with
  | [] => ret []
  | a :: l' =>
      keep <- p a ;;
      rest <- filterM p l' ;;
      ret (if keep then a :: rest else rest)
  end.

(** [list.every(p)] stops at the first element that fails [p]. *)
Fixpoint every {A} (p : A -> M bool) (l : list A) : M bool :=
  match l with
  | [] => ret true
  | a :: l' => ok <- p a ;; if ok then every p l' else ret false
  end.

(** ** The store, the scene and the host *)

(** [new THREE.Mesh(...)] and the like: the object gets the next index. *)
Definition alloc (o : Object3D.t) : M ref :=
  fun s => (Ok (length (objects s)), set_objects (objects s ++ [o]) s).

(** The object behind a reference, [None] for [undefined]. *)
Definition lookupObj (r : ref) : M (option Object3D.t) :=
  gets (fun s => objects s !! r).

Definition getObj (r : ref) : M Object3D.t :=
  o <- lookupObj r ;; required o.

Definition modifyObj (r : ref) (f : Object3D.t -> Object3D.t) : M unit :=
  o <- getObj r ;;
  modify (fun s => set_objects (<[r := f o]> (objects s)) s).

(** The object's [userData]; reading a property of a missing bag raises. *)
Definition getUserData (r : ref) : M UserData.t :=
  o <- getObj r ;; required (Object3D.userData o).

Definition modifyUserData (r : ref) (f : UserData.t -> UserData.t) : M unit :=
  modifyObj r (fun o => Object3D.set_userData (f <$> Object3D.userData o) o).

(** [o.position.add(v)] *)
Definition position_add (r : ref) (v : Vector3.t) : M unit :=
  modifyObj r (fun o => Object3D.set_position (Vector3.add (Object3D.position o) v) o).

(** [scene.add(o)]: three.js first detaches an object that already has a
    parent, so a second [add] moves it to the end. *)
Definition scene_add (r : ref) : M unit :=
  modify (fun s => set_scene (filter (fun r' => r' ≠ r) (scene s) ++ [r]) s).

(** [scene.remove(o)]: does nothing when [o] is not a child. *)
Definition scene_remove (r : ref) : M unit :=
  modify (fun s => set_scene (filter (fun r' => r' ≠ r) (scene s)) s).

Definition Math_random : M float :=
  fun s => (Ok (Math_random_tape s (Math_random_pos s)),
            set_Math_random_pos (S (Math_random_pos s)) s).

Definition console_log (e : LogEntry) : M unit :=
  modify (fun s => set_console (console s ++ [e]) s).

(** The animation object the update methods are handed is the animator's
    current one. *)
Definition getA {A} (f : Animation.t -> A) : M A :=
  a <- gets currentAnimation ;; a' <- required a ;; ret (f a').

Definition modifyA (f : Animation.t -> Animation.t) : M unit :=
  a <- gets currentAnimation ;; a' <- required a ;;
  modify (set_currentAnimation (Some (f a'))).

(** ** ParticleSystem: creation *)

Section ParticleSystem_create.
Local Open Scope float_scope.

Definition nucleon_data (type : string) (charge mass : float) : UserData.t :=
  UserData.set_velocity Vector3.zero
    (UserData.set_mass mass
      (UserData.set_charge charge
        (UserData.set_type type UserData.empty))).

Definition createProton (position : Vector3.t) : M ref :=
  let proton := Object3D.Mesh (Material.phong 1 0.5) in
  let proton := Object3D.set_position position proton in
  let proton := Object3D.set_userData (Some (nucleon_data "proton" 1 1)) proton in
  let glow := Object3D.Mesh (Material.basic 0.3) in
  alloc (Object3D.add glow proton).

Definition createNeutron (position : Vector3.t) : M ref :=
  let neutron := Object3D.Mesh (Material.phong 1 0.5) in
  let neutron := Object3D.set_position position neutron in
  let neutron := Object3D.set_userData (Some (nucleon_data "neutron" 0 1)) neutron in
  let glow := Object3D.Mesh (Material.basic 0.3) in
  alloc (Object3D.add glow neutron).

Definition createAlpha (position : Vector3.t) : M ref :=
  let positions :=
    [Vector3.mk 0.15 0.15 0.15; Vector3.mk (-0.15) (-0.15) 0.15;
     Vector3.mk 0.15 (-0.15) (-0.15); Vector3.mk (-0.15) 0.15 (-0.15)] in
  let group :=
    foldl (fun g pos =>
             Object3D.add (Object3D.set_position pos (Object3D.Mesh (Material.phong 1 0.3))) g)
          Object3D.Group positions in
  let glow := Object3D.Mesh (Material.basic 0.25) in
  let group := Object3D.add glow group in
  let group := Object3D.set_position position group in
  alloc (Object3D.set_userData (Some (nucleon_data "alpha" 2 4)) group).

Definition part (type : string) (pos : Vector3.t) : Object3D.t :=
  Object3D.set_userData (Some (UserData.set_type type UserData.empty))
    (Object3D.set_position pos (Object3D.Mesh (Material.phong 1 0.4))).

Definition createDeuteron (position : Vector3.t) : M ref :=
  let group := Object3D.add (part "proton-part" (Vector3.mk (-0.2) 0 0)) Object3D.Group in
  let group := Object3D.add (part "neutron-part" (Vector3.mk 0.2 0 0)) group in
  let binding := Object3D.Mesh (Material.basic 0.15) in
  let group := Object3D.add binding group in
  let group := Object3D.set_position position group in
  alloc (Object3D.set_userData (Some (nucleon_data "deuteron" 1 2)) group).

Definition createTargetNucleus (position : Vector3.t) (size : float) : M ref :=
  let layers :=
    [Object3D.Mesh (Material.basic 0.9);
     Object3D.Mesh (Material.phong 0.85 0.8);
     Object3D.Mesh (Material.phong 0.5 0.5);
     Object3D.Mesh (Material.phong 0.35 0.3);
     Object3D.Mesh (Material.basic 0.15);
     Object3D.Mesh (Material.basic 0.08);
     Object3D.Mesh (Material.basic 0.04)] in
  let ring (i : float) :=
    Object3D.set_rotation (Vector3.mk (Num.Math_PI / 2) (i * 0.3) 0)
      (Object3D.Mesh (Material.basic (0.2 / i))) in
  let group := foldl (fun g c => Object3D.add c g) Object3D.Group (layers ++ [ring 1; ring 2]) in
  let group := Object3D.set_position position group in
  alloc (Object3D.set_userData
           (Some (UserData.set_mass 100 (UserData.set_charge 50
                    (UserData.set_type "target" UserData.empty)))) group).

Definition createTrail (particle : ref) : M ref :=
  p <- getObj particle ;;
  n <- gets trailLength ;;
  let points := replicate n (Object3D.position p) in
  let trail := Object3D.Line (Material.basic 0.6) in
  alloc (Object3D.set_userData
           (Some (UserData.set_points points
                    (UserData.set_particle particle UserData.empty))) trail).
End ParticleSystem_create.

(** ** ParticleSystem: trails and transient effects *)

Section ParticleSystem_effects.
Local Open Scope float_scope.

(** [updateTrail]: drop the oldest point, put the particle's position in
    front.  Suppressed while trails are disabled.  [points.pop()] comes
    first: a trail without its particle has lost a point by the time
    [particle.position] raises. *)
Definition updateTrail (trail : ref) : M unit :=
  enabled <- gets trailsEnabled ;;
  if negb enabled then ret tt
  else
    ud <- getUserData trail ;;
    points <- required (UserData.points ud) ;;
    let particle := UserData.particle ud in
    modifyUserData trail (UserData.set_points (removelast points)) ;;;
    particle <- required particle ;;
    p <- getObj particle ;;
    modifyUserData trail
      (UserData.set_points (Object3D.position p :: removelast points)).

(** [toggleTrails()]: flips the switch and answers its new position. *)
Definition toggleTrails : M bool :=
  modify (fun s => set_trailsEnabled (negb (trailsEnabled s)) s) ;;;
  gets trailsEnabled.

(** One explosion particle: four draws, in source order. *)
Definition createExplosionParticle (position : Vector3.t) : M ref :=
  sin <- gets Math_sin ;;
  cos <- gets Math_cos ;;
  acos <- gets Math_acos ;;
  r1 <- Math_random ;;
  let theta := r1 * Num.Math_PI * 2 in
  r2 <- Math_random ;;
  let phi := acos (2 * r2 - 1) in
  r3 <- Math_random ;;
  let speed := 0.5 + r3 * 1 in
  let velocity :=
    Vector3.mk (speed * sin phi * cos theta) (speed * sin phi * sin theta) (speed * cos phi) in
  r4 <- Math_random ;;
  let data :=
    UserData.set_decay (0.02 + r4 * 0.02)
      (UserData.set_life 1.0 (UserData.set_velocity velocity UserData.empty)) in
  let particle := Object3D.set_position position (Object3D.Mesh (Material.basic 1)) in
  alloc (Object3D.set_userData (Some data) particle).

Fixpoint repeatM {A} (n : nat) (m : M A) : M (list A) :=
  match n with
  | O => ret []
  | S n' => a <- m ;; rest <- repeatM n' m ;; ret (a :: rest)
  end.

Definition createExplosion (position : Vector3.t) : M (list ref) :=
  repeatM 50 (createExplosionParticle position).

(** One round of the loop of [updateExplosion]; answers whether the
    particle stays in the array. *)
Definition updateExplosionParticle (p : ref) : M bool :=
  ud <- getUserData p ;;
  v <- required (UserData.velocity ud) ;;
  position_add p v ;;;
  modifyUserData p (UserData.set_velocity (Vector3.multiplyScalar v 0.95)) ;;;
  let life := Num.of_opt (UserData.life ud) - Num.of_opt (UserData.decay ud) in
  modifyUserData p (UserData.set_life life) ;;;
  o <- getObj p ;;
  _ <- required (Object3D.material o) ;;
  modifyObj p (Object3D.set_opacity life) ;;;
  ret (negb (life <=? 0)).

(** [updateExplosion(particles)] walks the array from its end and splices
    the dead out of it. *)
Definition updateExplosion (particles : list ref) : M (list ref) :=
  alive <- filterM updateExplosionParticle (rev particles) ;;
  ret (rev alive).

Definition createAbsorptionFlash (position : Vector3.t) : M ref :=
  let ring := Object3D.Mesh (Material.basic 1) in
  let flash := Object3D.Mesh (Material.basic 0.8) in
  let group := Object3D.add flash (Object3D.add ring Object3D.Group) in
  let group := Object3D.set_position position group in
  alloc (Object3D.set_userData
           (Some (UserData.set_flash 1%nat
                    (UserData.set_ring 0%nat
                       (UserData.set_life 1.0 UserData.empty)))) group).

(** [o.userData.<name>], a child of [o], when the property is set. *)
Definition named_child (o : Object3D.t) (name : option nat) : option nat :=
  i ← name; _ ← Object3D.children o !! i; Some i.

(** Apply [f] to the child of [r] at index [i]. *)
Definition modifyChild (r : ref) (i : nat) (f : Object3D.t -> Object3D.t) : M unit :=
  modifyObj r (fun o => Object3D.set_children (alter f i (Object3D.children o)) o).

(** [child.scale.set(s, s, s)] then, when the child has a material,
    [child.material.opacity = op]. *)
Definition rescale_fade (s op : float) (c : Object3D.t) : Object3D.t :=
  Object3D.set_opacity op (Object3D.set_scale (Vector3.uniform s) c).

Definition updateAbsorptionFlash (flash : ref) : M bool :=
  o <- lookupObj flash ;;
  match o with
  | None => ret false
  | Some o =>
      match Object3D.userData o with
      | None => ret false
      | Some ud =>
          match UserData.life ud with
          | None => ret false
          | Some life0 =>
              let life := life0 - 0.03 in
              modifyUserData flash (UserData.set_life life) ;;;
              let scale := 1 + (1 - life) * 2 in
              match named_child o (UserData.ring ud) with
              | Some i => modifyChild flash i (rescale_fade scale life)
              | None => ret tt
              end ;;;
              match named_child o (UserData.flash ud) with
              | Some i =>
                  let flashScale := 1 + (1 - life) in
                  modifyChild flash i (rescale_fade flashScale (life * 0.8))
              | None => ret tt
              end ;;;
              ret (0 <? life)
          end
      end
  end.
End ParticleSystem_effects.

Section ParticleSystem_physics_effects.
Local Open Scope float_scope.

(** [createGammaRay(origin)]: a random direction (two draws), a beam with
    a glow child, and the bag the update reads. *)
Definition createGammaRay (origin : Vector3.t) : M ref :=
  sin <- gets Math_sin ;;
  cos <- gets Math_cos ;;
  acos <- gets Math_acos ;;
  r1 <- Math_random ;;
  let theta := r1 * Num.Math_PI * 2 in
  r2 <- Math_random ;;
  let phi := acos (2 * r2 - 1) in
  let direction :=
    Vector3.normalize
      (Vector3.mk (sin phi * cos theta) (sin phi * sin theta) (cos phi)) in
  let beamLength := 3 in
  let glow := Object3D.Mesh (Material.basic 0.4) in
  let beam := Object3D.add glow (Object3D.Mesh (Material.basic 1.0)) in
  let beam :=
    Object3D.set_position
      (Vector3.add origin (Vector3.multiplyScalar direction (beamLength / 2))) beam in
  let group := Object3D.set_position origin (Object3D.add beam Object3D.Group) in
  let data :=
    UserData.set_beam 0%nat
      (UserData.set_decay 0.025
         (UserData.set_life 1.0
            (UserData.set_velocity (Vector3.multiplyScalar direction 0.8)
               (UserData.set_type "gamma" UserData.empty)))) in
  alloc (Object3D.set_userData (Some data) group).

Definition createGammaRays (origin : Vector3.t) (count : float) : M (list ref) :=
  repeatM (Num.iterations count) (createGammaRay origin).

Definition updateGammaRay (gamma : ref) : M bool :=
  o <- lookupObj gamma ;;
  match o with
  | None => ret false
  | Some o =>
      match Object3D.userData o with
      | None => ret false
      | Some ud =>
          v <- required (UserData.velocity ud) ;;
          position_add gamma v ;;;
          let life := Num.of_opt (UserData.life ud) - Num.of_opt (UserData.decay ud) in
          modifyUserData gamma (UserData.set_life life) ;;;
          match named_child o (UserData.beam ud) with
          | Some i =>
              match Object3D.material <$> (Object3D.children o !! i) with
              | Some (Some _) =>
                  modifyChild gamma i
                    (fun beam =>
                       Object3D.set_children
                         (Object3D.set_opacity (life * 0.4) <$> Object3D.children beam)
                         (Object3D.set_opacity life beam))
              | _ => ret tt
              end
          | None => ret tt
          end ;;;
          ret (0 <? life)
      end
  end.

Definition nat_to_float (n : nat) : float := Num.of_Z (Z.of_nat n).

(** [createEnergyWave]: three triples of rings; the rings of a triple
    start [i * 0.1] late.  (In three.js the two clones of a ring share its
    material; here each ring carries its own copy.) *)
Definition createEnergyWave (origin : Vector3.t) (maxRadius : float) : M ref :=
  let triple (i : float) :=
    let ring :=
      Object3D.set_userData (Some (UserData.set_delay (i * 0.1) UserData.empty))
        (Object3D.Mesh (Material.basic (0.8 - i * 0.2))) in
    [ring;
     Object3D.set_rotation (Vector3.mk (Num.Math_PI / 2) 0 0) ring;
     Object3D.set_rotation (Vector3.mk 0 (Num.Math_PI / 2) 0) ring] in
  let group :=
    foldl (fun g c => Object3D.add c g) Object3D.Group (triple 0 ++ triple 1 ++ triple 2) in
  let group := Object3D.set_position origin group in
  let data :=
    UserData.set_currentRadius 0.1
      (UserData.set_maxRadius maxRadius
         (UserData.set_decay 0.02
            (UserData.set_life 1.0
               (UserData.set_type "energyWave" UserData.empty)))) in
  alloc (Object3D.set_userData (Some data) group).

(** The body of the [forEach] over a wave's rings. *)
Definition updateWaveRing (scale life : float) (i : nat) (ring : Object3D.t)
  : option Object3D.t :=
  ud ← Object3D.userData ring;
  let delay := Num.or_else (Num.of_opt (UserData.delay ud)) 0 in
  let effectiveScale := Num.Math_max 0.1 (scale - delay * 5) in
  Some (rescale_fade effectiveScale (life * (0.8 - nat_to_float (i mod 3) * 0.2)) ring).

(** Rings are updated in order; a ring without [userData] raises and
    leaves the rings before it updated. *)
Fixpoint updateWaveRings (scale life : float) (i : nat) (rings : list Object3D.t)
  : list Object3D.t * bool :=
  match rings with
  | [] => ([], true)
  | ring :: rest =>
      match updateWaveRing scale life i ring with
      | Some ring' =>
          let '(rest', ok) := updateWaveRings scale life (S i) rest in
          (ring' :: rest', ok)
      | None => (ring :: rest, false)
      end
  end.

Definition updateEnergyWave (wave : ref) : M bool :=
  o <- lookupObj wave ;;
  match o with
  | None => ret false
  | Some o =>
      match Object3D.userData o with
      | None => ret false
      | Some ud =>
          let life := Num.of_opt (UserData.life ud) - Num.of_opt (UserData.decay ud) in
          let currentRadius := Num.of_opt (UserData.currentRadius ud) + 0.15 in
          modifyUserData wave
            (fun u => UserData.set_currentRadius currentRadius (UserData.set_life life u)) ;;;
          let '(rings, ok) := updateWaveRings currentRadius life 0 (Object3D.children o) in
          modifyObj wave (Object3D.set_children rings) ;;;
          (if ok then ret tt else throw TypeError) ;;;
          ret ((0 <? life) && (currentRadius <? Num.of_opt (UserData.maxRadius ud)))
      end
  end.
End ParticleSystem_physics_effects.

Section ParticleSystem_nuclei.
Local Open Scope float_scope.

Definition createCompoundNucleus (position : Vector3.t) : M ref :=
  let core := Object3D.Mesh (Material.phong 0.9 1.2) in
  let hot := Object3D.Mesh (Material.basic 0.95) in
  let shell := Object3D.Mesh (Material.basic 0.4) in
  let glow (i : float) := Object3D.Mesh (Material.basic (0.2 / i)) in
  let ring (i : float) :=
    Object3D.set_userData
      (Some (UserData.set_rotationSpeed (0.05 + i * 0.02) UserData.empty))
      (Object3D.set_rotation
         (Vector3.mk (Num.Math_PI / 2 + i * Num.Math_PI / 6) 0 (i * Num.Math_PI / 4))
         (Object3D.Mesh (Material.basic (0.5 - i * 0.1)))) in
  let group :=
    foldl (fun g c => Object3D.add c g) Object3D.Group
      [core; hot; shell; glow 1; glow 2; glow 3; ring 0; ring 1; ring 2] in
  let group := Object3D.set_position position group in
  let data :=
    UserData.set_shell 2%nat
      (UserData.set_hot 1%nat
         (UserData.set_core 0%nat
            (UserData.set_pulsePhase 0
               (UserData.set_decay 0.008
                  (UserData.set_life 1.0
                     (UserData.set_type "compoundNucleus" UserData.empty)))))) in
  alloc (Object3D.set_userData (Some data) group).

(** [child.rotation.z += child.userData.rotationSpeed] for the children
    that have a rotation speed. *)
Definition rotateRing (child : Object3D.t) : Object3D.t :=
  match Object3D.userData child with
  | Some ud =>
      if Num.truthy (UserData.rotationSpeed ud) then
        let r := Object3D.rotation child in
        Object3D.set_rotation
          (Vector3.mk (Vector3.x r) (Vector3.y r)
             (Vector3.z r + Num.of_opt (UserData.rotationSpeed ud))) child
      else child
  | None => child
  end.

(** [child.material.opacity *= fade] for the children with a material. *)
Definition fadeChild (fade : float) (child : Object3D.t) : Object3D.t :=
  match Object3D.material child with
  | Some m => Object3D.set_opacity (Material.opacity m * fade) child
  | None => child
  end.

Definition updateCompoundNucleus (compound : ref) : M bool :=
  o <- lookupObj compound ;;
  match o with
  | None => ret false
  | Some o =>
      match Object3D.userData o with
      | None => ret false
      | Some ud =>
          sin <- gets Math_sin ;;
          let life := Num.of_opt (UserData.life ud) - Num.of_opt (UserData.decay ud) in
          let pulsePhase := Num.of_opt (UserData.pulsePhase ud) + 0.15 in
          modifyUserData compound
            (fun u => UserData.set_pulsePhase pulsePhase (UserData.set_life life u)) ;;;
          let pulse := sin pulsePhase in
          match named_child o (UserData.core ud) with
          | Some i =>
              let coreScale := 1 + pulse * 0.08 in
              modifyChild compound i
                (fun core =>
                   Object3D.set_material
                     (Material.set_emissiveIntensity (1.0 + pulse * 0.4)
                        <$> Object3D.material core)
                     (Object3D.set_scale (Vector3.uniform coreScale) core))
          | None => ret tt
          end ;;;
          match named_child o (UserData.hot ud) with
          | Some i =>
              let hotScale := 1 + pulse * 0.15 in
              modifyChild compound i (rescale_fade hotScale (0.8 + pulse * 0.2))
          | None => ret tt
          end ;;;
          match named_child o (UserData.shell ud) with
          | Some i =>
              let shellScale := 1 + sin (pulsePhase * 1.5) * 0.1 in
              modifyChild compound i (Object3D.set_scale (Vector3.uniform shellScale))
          | None => ret tt
          end ;;;
          modifyObj compound
            (fun c => Object3D.set_children (rotateRing <$> Object3D.children c) c) ;;;
          (if life <? 0.3 then
             let fade := life / 0.3 in
             modifyObj compound
               (fun c => Object3D.set_children (fadeChild fade <$> Object3D.children c) c)
           else ret tt) ;;;
          ret (0 <? life)
      end
  end.

Definition createExcitedTarget (position : Vector3.t) (excitationLevel : float) : M ref :=
  let core := Object3D.Mesh (Material.phong 0.85 (0.9 + excitationLevel * 0.3)) in
  let center := Object3D.Mesh (Material.basic 0.9) in
  let shell (i : float) :=
    Object3D.set_userData
      (Some (UserData.set_oscillatePhase (i * Num.Math_PI / 2)
               (UserData.set_oscillateSpeed (0.1 + i * 0.05) UserData.empty)))
      (Object3D.Mesh (Material.basic (0.25 - i * 0.08))) in
  let glow := Object3D.Mesh (Material.basic (0.12 * excitationLevel)) in
  let group :=
    foldl (fun g c => Object3D.add c g) Object3D.Group
      [core; center; shell 0; shell 1; glow] in
  let group := Object3D.set_position position group in
  let data :=
    UserData.set_core 0%nat
      (UserData.set_phase 0
         (UserData.set_decay 0.015
            (UserData.set_life 1.0
               (UserData.set_excitationLevel excitationLevel
                  (UserData.set_type "excitedTarget" UserData.empty))))) in
  alloc (Object3D.set_userData (Some data) group).

(** The body of the [forEach] over an excited target's children. *)
Definition oscillateShell (sin : float -> float) (child : Object3D.t) : Object3D.t :=
  match Object3D.userData child with
  | Some ud =>
      if Num.truthy (UserData.oscillateSpeed ud) then
        let phase := Num.of_opt (UserData.oscillatePhase ud)
                     + Num.of_opt (UserData.oscillateSpeed ud) in
        let oscScale := 1 + sin phase * 0.05 in
        Object3D.set_scale (Vector3.uniform oscScale)
          (Object3D.set_userData (Some (UserData.set_oscillatePhase phase ud)) child)
      else child
  | None => child
  end.

Definition updateExcitedTarget (excited : ref) : M bool :=
  o <- lookupObj excited ;;
  match o with
  | None => ret false
  | Some o =>
      match Object3D.userData o with
      | None => ret false
      | Some ud =>
          sin <- gets Math_sin ;;
          let life := Num.of_opt (UserData.life ud) - Num.of_opt (UserData.decay ud) in
          let phase := Num.of_opt (UserData.phase ud) + 0.12 in
          modifyUserData excited
            (fun u => UserData.set_phase phase (UserData.set_life life u)) ;;;
          let vibration := sin phase in
          match named_child o (UserData.core ud) with
          | Some i =>
              let scale := 1 + vibration * 0.03 * Num.of_opt (UserData.excitationLevel ud) in
              modifyChild excited i (Object3D.set_scale (Vector3.uniform scale))
          | None => ret tt
          end ;;;
          modifyObj excited
            (fun e => Object3D.set_children (oscillateShell sin <$> Object3D.children e) e) ;;;
          ret (0 <? life)
      end
  end.
End ParticleSystem_nuclei.

(** ** BreakupAnimator *)

Section BreakupAnimator.
Local Open Scope float_scope.

Definition setSpeed (speed : float) : M unit := modify (set_speed speed).

(** Shared by the three creators: the projectile starts 12 to the left of
    the target, at height [impactParam], with velocity (0.2, 0, 0). *)
Definition placeProjectile (projectile target : ref) (impactParam : float) : M unit :=
  t <- getObj target ;;
  let startX := Vector3.x (Object3D.position t) - 12 in
  modifyObj projectile (Object3D.set_position (Vector3.mk startX impactParam 0)) ;;;
  _ <- getUserData projectile ;;
  modifyUserData projectile (UserData.set_velocity (Vector3.mk 0.2 0 0)).

Definition createElasticBreakup (projectile target : ref) (impactParam : float)
  : M Animation.t :=
  let animation :=
    Animation.mk "elastic" (Some projectile) (Some target) "approach" 0 impactParam
      [] [] [] None None None None None None None None in
  placeProjectile projectile target impactParam ;;;
  p <- getObj projectile ;;
  console_log (LogVector "Elastic breakup created, projectile at:" (Object3D.position p)) ;;;
  ret animation.

Definition createNonelasticBreakup (projectile target : ref) (impactParam : float)
  : M Animation.t :=
  let animation :=
    Animation.mk "nonelastic" (Some projectile) (Some target) "approach" 0 impactParam
      [] [] [] None None None None (Some []) (Some []) (Some 0) (Some 80) in
  placeProjectile projectile target impactParam ;;;
  p <- getObj projectile ;;
  console_log (LogVector "Nonelastic breakup created, projectile at:" (Object3D.position p)) ;;;
  ret animation.

Definition createInelasticBreakup (projectile target : ref) (impactParam : float)
  : M Animation.t :=
  let animation :=
    Animation.mk "inelastic" (Some projectile) (Some target) "approach" 0 impactParam
      [] [] [] None None None None (Some []) (Some []) None None in
  placeProjectile projectile target impactParam ;;;
  console_log (Log "Inelastic breakup created") ;;;
  ret animation.

(** [o.userData.type === name] *)
Definition has_type (name : string) (ud : UserData.t) : bool :=
  match UserData.type ud with
  | Some t => String.eqb t name
  | None => false
  end.

Definition set_velocity_of (r : ref) (v : Vector3.t) : M unit :=
  _ <- getUserData r ;; modifyUserData r (UserData.set_velocity v).

Definition position_of (r : ref) : M Vector3.t :=
  o <- getObj r ;; ret (Object3D.position o).

(** [o.userData.velocity], raising when there is none to call a method on. *)
Definition velocity_of (r : ref) : M Vector3.t :=
  ud <- getUserData r ;; required (UserData.velocity ud).

Definition push_fragments (l : list ref) : M unit :=
  modifyA (fun a => Animation.set_fragments (Animation.fragments a ++ l) a).
Definition push_trails (l : list ref) : M unit :=
  modifyA (fun a => Animation.set_trails (Animation.trails a ++ l) a).
Definition push_effects (l : list ref) : M unit :=
  modifyA (fun a => Animation.set_effects (Animation.effects a ++ l) a).
Definition push_gammaRays (l : list ref) : M unit :=
  g <- getA Animation.gammaRays ;; g <- required g ;;
  modifyA (Animation.set_gammaRays (Some (g ++ l))).
Definition push_energyWaves (l : list ref) : M unit :=
  w <- getA Animation.energyWaves ;; w <- required w ;;
  modifyA (Animation.set_energyWaves (Some (w ++ l))).

Definition initiateElasticBreakup : M unit :=
  projectile <- getA Animation.projectile ;;
  match projectile with
  | None => throw TypeError
  | Some projectile =>
      scene_remove projectile ;;;
      ud <- getUserData projectile ;;
      pos <- position_of projectile ;;
      fragments <-
        (if has_type "deuteron" ud then
           fragment1 <- createProton pos ;;
           fragment2 <- createNeutron pos ;;
           set_velocity_of fragment1 (Vector3.mk 0.08 0.06 0.02) ;;;
           set_velocity_of fragment2 (Vector3.mk 0.08 (-0.04) (-0.02)) ;;;
           ret (fragment1, fragment2)
         else if has_type "li6" ud then
           fragment1 <- createAlpha pos ;;
           fragment2 <- createDeuteron pos ;;
           set_velocity_of fragment1 (Vector3.mk 0.06 0.05 0.01) ;;;
           set_velocity_of fragment2 (Vector3.mk 0.1 (-0.03) (-0.01)) ;;;
           ret (fragment1, fragment2)
         else if has_type "li7" ud then
           fragment1 <- createAlpha pos ;;
           fragment2 <- createProton pos ;;
           set_velocity_of fragment1 (Vector3.mk 0.06 0.04 0) ;;;
           set_velocity_of fragment2 (Vector3.mk 0.1 (-0.05) 0) ;;;
           ret (fragment1, fragment2)
         else
           fragment1 <- createProton pos ;;
           fragment2 <- createNeutron pos ;;
           set_velocity_of fragment1 (Vector3.mk 0.08 0.05 0) ;;;
           set_velocity_of fragment2 (Vector3.mk 0.08 (-0.05) 0) ;;;
           ret (fragment1, fragment2)) ;;
      let fragment1 := fst fragments in
      let fragment2 := snd fragments in
      position_add fragment1 (Vector3.mk 0 0.3 0) ;;;
      position_add fragment2 (Vector3.mk 0 (-0.3) 0) ;;;
      scene_add fragment1 ;;;
      scene_add fragment2 ;;;
      push_fragments [fragment1; fragment2] ;;;
      trail1 <- createTrail fragment1 ;;
      trail2 <- createTrail fragment2 ;;
      scene_add trail1 ;;;
      scene_add trail2 ;;;
      push_trails [trail1; trail2] ;;;
      pos <- position_of projectile ;;
      flash <- createExplosion pos ;;
      forEach scene_add flash ;;;
      push_effects flash
  end.

(** [frag.position.add(frag.userData.velocity.clone().multiplyScalar(this.speed))] *)
Definition moveBySpeed (r : ref) : M unit :=
  v <- velocity_of r ;;
  speed <- gets speed ;;
  position_add r (Vector3.multiplyScalar v speed).

(** [if (animation.trails[index]) updateTrail(animation.trails[index])] *)
Definition updateTrailAt (index : nat) : M unit :=
  trails <- getA Animation.trails ;;
  match trails !! index with
  | Some trail => updateTrail trail
  | None => ret tt
  end.

(** The approach of all three kinds: move the projectile and, within
    distance 6 of the target, push it away with strength [k / dist^2].
    Answers the distance to the target. *)
Definition approachStep (projectile target : option ref) (k : float) : M float :=
  p <- required projectile ;;
  v <- velocity_of p ;;
  speed <- gets speed ;;
  position_add p (Vector3.multiplyScalar v speed) ;;;
  ppos <- position_of p ;;
  t <- required target ;;
  tpos <- position_of t ;;
  let distToTarget := Vector3.distanceTo ppos tpos in
  (if distToTarget <? 6 then
     let force :=
       Vector3.multiplyScalar (Vector3.normalize (Vector3.subVectors ppos tpos))
         (k / (distToTarget * distToTarget) * speed) in
     v <- velocity_of p ;;
     modifyUserData p (UserData.set_velocity (Vector3.add v force))
   else ret tt) ;;;
  ret distToTarget.

(** The Coulomb push on a fragment farther than 0.5 from the target. *)
Definition coulombPush (frag : ref) (target : option ref) : M unit :=
  fpos <- position_of frag ;;
  t <- required target ;;
  tpos <- position_of t ;;
  let dist := Vector3.distanceTo fpos tpos in
  if 0.5 <? dist then
    ud <- getUserData frag ;;
    speed <- gets speed ;;
    let coulombForce :=
      Vector3.multiplyScalar (Vector3.normalize (Vector3.subVectors fpos tpos))
        (0.001 * Num.of_opt (UserData.charge ud) / (dist * dist) * speed) in
    v <- velocity_of frag ;;
    modifyUserData frag (UserData.set_velocity (Vector3.add v coulombForce))
  else ret tt.

(** [f.position.distanceTo(target.position) > 15] *)
Definition beyond15 (target : option ref) (f : ref) : M bool :=
  fpos <- position_of f ;;
  t <- required target ;;
  tpos <- position_of t ;;
  ret (15 <? Vector3.distanceTo fpos tpos).

(** The [switch] over the phase in [updateElasticBreakup]. *)
Definition elasticPhase (projectile target : option ref) (phase : string) : M bool :=
  if String.eqb phase "approach" then
    distToTarget <- approachStep projectile target 0.003 ;;
    (if distToTarget <? 3.5 then
       console_log (LogNumber "Elastic breakup triggered at distance:" distToTarget) ;;;
       modifyA (Animation.set_phase "breakup") ;;;
       initiateElasticBreakup
     else ret tt) ;;;
    ret false
  else if String.eqb phase "breakup" then
    fragments <- getA Animation.fragments ;;
    forEachIndexed
      (fun index fragment =>
         coulombPush fragment target ;;;
         moveBySpeed fragment ;;;
         updateTrailAt index)
      0%nat fragments ;;;
    fragments <- getA Animation.fragments ;;
    allEscaped <- every (beyond15 target) fragments ;;
    (if allEscaped then modifyA (Animation.set_phase "complete") else ret tt) ;;;
    ret false
  else if String.eqb phase "complete" then ret true
  else ret false.

Definition updateElasticBreakup (delta : float) : M bool :=
  projectile <- getA Animation.projectile ;;
  target <- getA Animation.target ;;
  phase <- getA Animation.phase ;;
  speed <- gets speed ;;
  modifyA (fun a => Animation.set_time (Animation.time a + delta * speed) a) ;;;
  elasticPhase projectile target phase.

(** The callback of the [filter] in [updateEffects]. *)
Definition updateEffect (effect : ref) : M bool :=
  o <- lookupObj effect ;;
  match o with
  | None => ret false
  | Some o =>
      match Object3D.userData o with
      | None => ret false
      | Some ud =>
          if bool_decide (is_Some (UserData.ring ud)) then
            alive <- updateAbsorptionFlash effect ;;
            (if negb alive then scene_remove effect else ret tt) ;;;
            ret alive
          else
            match UserData.velocity ud, UserData.decay ud with
            | Some v, Some decay =>
                position_add effect v ;;;
                modifyUserData effect (UserData.set_velocity (Vector3.multiplyScalar v 0.95)) ;;;
                let life := Num.of_opt (UserData.life ud) - decay in
                modifyUserData effect (UserData.set_life life) ;;;
                modifyObj effect (Object3D.set_opacity (Num.Math_max 0 life)) ;;;
                if life <=? 0 then scene_remove effect ;;; ret false
                else ret true
            | _, _ => ret false
            end
      end
  end.

Definition updateEffects : M unit :=
  effects <- getA Animation.effects ;;
  effects <- filterM updateEffect effects ;;
  modifyA (Animation.set_effects effects).

Definition createCompoundNucleusEffect (absorbedFragment : ref) : M unit :=
  scene_remove absorbedFragment ;;;
  target <- getA Animation.target ;;
  target <- required target ;;
  modifyObj target (Object3D.set_visible false) ;;;
  tpos <- position_of target ;;
  compound <- createCompoundNucleus tpos ;;
  scene_add compound ;;;
  modifyA (Animation.set_compoundNucleus (Some compound)) ;;;
  energyWave <- createEnergyWave tpos 6 ;;
  scene_add energyWave ;;;
  push_energyWaves [energyWave] ;;;
  flash <- createAbsorptionFlash tpos ;;
  scene_add flash ;;;
  push_effects [flash] ;;;
  console_log (Log "Compound nucleus formed - resonance state").

(** [gammas.forEach(gamma => { scene.add(gamma); animation.gammaRays.push(gamma) })] *)
Definition addGammas (gammas : list ref) : M unit :=
  forEach (fun gamma => scene_add gamma ;;; push_gammaRays [gamma]) gammas.

Definition emitGammaRays : M unit :=
  target <- getA Animation.target ;;
  target <- required target ;;
  origin <- position_of target ;;
  r <- Math_random ;;
  let gammaCount := 3 + Num.Math_floor (r * 3) in
  gammas <- createGammaRays origin gammaCount ;;
  addGammas gammas ;;;
  console_log (LogNumber "Emitting gamma rays from de-excitation:" gammaCount).

Definition initiateDecayPhase : M unit :=
  compound <- getA Animation.compoundNucleus ;;
  match compound with
  | Some c => scene_remove c ;;; modifyA (Animation.set_compoundNucleus None)
  | None => ret tt
  end ;;;
  target <- getA Animation.target ;;
  target <- required target ;;
  modifyObj target (Object3D.set_visible true) ;;;
  tpos <- position_of target ;;
  finalWave <- createEnergyWave tpos 8 ;;
  scene_add finalWave ;;;
  push_energyWaves [finalWave] ;;;
  additionalGammas <- createGammaRays tpos 2 ;;
  addGammas additionalGammas ;;;
  console_log (Log "Decay phase initiated - final state").

Definition initiateNonelasticBreakup : M unit :=
  projectile <- getA Animation.projectile ;;
  match projectile with
  | None => throw TypeError
  | Some projectile =>
      scene_remove projectile ;;;
      ud <- getUserData projectile ;;
      pos <- position_of projectile ;;
      fragments <-
        (if has_type "deuteron" ud then
           escapingFrag <- createNeutron pos ;;
           absorbedFrag <- createProton pos ;;
           set_velocity_of escapingFrag (Vector3.mk 0.1 0.08 0.02) ;;;
           ret (escapingFrag, absorbedFrag)
         else if has_type "li6" ud then
           escapingFrag <- createAlpha pos ;;
           absorbedFrag <- createDeuteron pos ;;
           set_velocity_of escapingFrag (Vector3.mk 0.08 0.06 0) ;;;
           ret (escapingFrag, absorbedFrag)
         else if has_type "li7" ud then
           escapingFrag <- createAlpha pos ;;
           absorbedFrag <- createProton pos ;;
           set_velocity_of escapingFrag (Vector3.mk 0.08 0.05 0) ;;;
           ret (escapingFrag, absorbedFrag)
         else
           escapingFrag <- createNeutron pos ;;
           absorbedFrag <- createProton pos ;;
           set_velocity_of escapingFrag (Vector3.mk 0.1 0.06 0) ;;;
           ret (escapingFrag, absorbedFrag)) ;;
      let escapingFrag := fst fragments in
      let absorbedFrag := snd fragments in
      position_add escapingFrag (Vector3.mk 0 0.5 0) ;;;
      position_add absorbedFrag (Vector3.mk 0 (-0.3) 0) ;;;
      scene_add escapingFrag ;;;
      scene_add absorbedFrag ;;;
      modifyA (Animation.set_escapingFragment (Some escapingFrag)) ;;;
      modifyA (Animation.set_absorbedFragment (Some absorbedFrag)) ;;;
      push_fragments [escapingFrag; absorbedFrag] ;;;
      _ <- getUserData escapingFrag ;;
      trail <- createTrail escapingFrag ;;
      scene_add trail ;;;
      push_trails [trail] ;;;
      pos <- position_of projectile ;;
      breakupFlash <- createExplosion pos ;;
      forEach scene_add breakupFlash ;;;
      push_effects breakupFlash
  end.

(** The callbacks of the [filter]s over gamma rays and energy waves. *)
Definition stepGamma (gamma : ref) : M bool :=
  alive <- updateGammaRay gamma ;;
  (if negb alive then scene_remove gamma else ret tt) ;;;
  ret alive.

Definition stepWave (wave : ref) : M bool :=
  alive <- updateEnergyWave wave ;;
  (if negb alive then scene_remove wave else ret tt) ;;;
  ret alive.

(** [animation.gammaRays = animation.gammaRays.filter(...)] *)
Definition filterGammaRays : M unit :=
  g <- getA Animation.gammaRays ;;
  g <- required g ;;
  g <- filterM stepGamma g ;;
  modifyA (Animation.set_gammaRays (Some g)).

Definition filterEnergyWaves : M unit :=
  w <- getA Animation.energyWaves ;;
  w <- required w ;;
  w <- filterM stepWave w ;;
  modifyA (Animation.set_energyWaves (Some w)).

(** [e => e.userData && e.userData.velocity] *)
Definition hasVelocity (e : ref) : M bool :=
  o <- getObj e ;;
  ret (match Object3D.userData o with
       | Some ud => bool_decide (is_Some (UserData.velocity ud))
       | None => false
       end).

(** The [switch] over the phase in [updateNonelasticBreakup]; answers
    whether the case returned [true]. *)
Definition nonelasticPhase (projectile target : option ref) (phase : string) : M bool :=
  speed <- gets speed ;;
  if String.eqb phase "approach" then
    distToTargetNE <- approachStep projectile target 0.002 ;;
    (if distToTargetNE <? 3 then
       console_log (LogNumber "Nonelastic breakup triggered at distance:" distToTargetNE) ;;;
       modifyA (Animation.set_phase "breakup") ;;;
       initiateNonelasticBreakup
     else ret tt) ;;;
    ret false
  else if String.eqb phase "breakup" then
    escaping <- getA Animation.escapingFragment ;;
    match escaping with
    | Some frag =>
        coulombPush frag target ;;;
        moveBySpeed frag ;;;
        updateTrailAt 0
    | None => ret tt
    end ;;;
    absorbed <- getA Animation.absorbedFragment ;;
    match absorbed with
    | Some absorbed =>
        apos <- position_of absorbed ;;
        t <- required target ;;
        tpos <- position_of t ;;
        let distToCore := Vector3.distanceTo apos tpos in
        if 2.2 <? distToCore then
          let toTarget :=
            Vector3.multiplyScalar (Vector3.normalize (Vector3.subVectors tpos apos))
              (0.08 * speed) in
          position_add absorbed toTarget
        else
          modifyA (Animation.set_phase "compound") ;;;
          createCompoundNucleusEffect absorbed
    | None => ret tt
    end ;;;
    ret false
  else if String.eqb phase "compound" then
    modifyA (fun a =>
               Animation.set_resonanceTime
                 (Some (Num.of_opt (Animation.resonanceTime a) + speed)) a) ;;;
    compound <- getA Animation.compoundNucleus ;;
    match compound with
    | Some c =>
        alive <- updateCompoundNucleus c ;;
        if negb alive then
          scene_remove c ;;; modifyA (Animation.set_compoundNucleus None)
        else ret tt
    | None => ret tt
    end ;;;
    escaping <- getA Animation.escapingFragment ;;
    match escaping with
    | Some frag => moveBySpeed frag ;;; updateTrailAt 0
    | None => ret tt
    end ;;;
    resonanceTime <- getA Animation.resonanceTime ;;
    maxResonanceTime <- getA Animation.maxResonanceTime ;;
    (if Num.of_opt maxResonanceTime * 0.6 <? Num.of_opt resonanceTime then
       g <- getA Animation.gammaRays ;;
       g <- required g ;;
       if bool_decide (length g = 0%nat) then emitGammaRays else ret tt
     else ret tt) ;;;
    filterGammaRays ;;;
    (if Num.of_opt maxResonanceTime <? Num.of_opt resonanceTime then
       modifyA (Animation.set_phase "decay") ;;;
       initiateDecayPhase
     else ret tt) ;;;
    ret false
  else if String.eqb phase "decay" then
    filterEnergyWaves ;;;
    filterGammaRays ;;;
    updateEffects ;;;
    escaping <- getA Animation.escapingFragment ;;
    match escaping with
    | Some frag =>
        moveBySpeed frag ;;;
        updateTrailAt 0 ;;;
        far <- beyond15 target frag ;;
        if far then modifyA (Animation.set_phase "complete") else ret tt
    | None => ret tt
    end ;;;
    ret false
  else if String.eqb phase "absorption" then
    updateEffects ;;;
    escaping <- getA Animation.escapingFragment ;;
    match escaping with
    | Some frag =>
        moveBySpeed frag ;;;
        updateTrailAt 0 ;;;
        far <- beyond15 target frag ;;
        if far then modifyA (Animation.set_phase "complete") else ret tt
    | None => ret tt
    end ;;;
    ret false
  else if String.eqb phase "complete" then ret true
  else ret false.

Definition updateNonelasticBreakup (delta : float) : M bool :=
  projectile <- getA Animation.projectile ;;
  target <- getA Animation.target ;;
  phase <- getA Animation.phase ;;
  speed <- gets speed ;;
  modifyA (fun a => Animation.set_time (Animation.time a + delta * speed) a) ;;;
  complete <- nonelasticPhase projectile target phase ;;
  if complete then ret true
  else
    effects <- getA Animation.effects ;;
    particles <- filterM hasVelocity effects ;;
    _ <- updateExplosion particles ;;
    ret false.

Definition emitTargetGammas : M unit :=
  target <- getA Animation.target ;;
  target <- required target ;;
  origin <- position_of target ;;
  modifyObj target (Object3D.set_visible true) ;;;
  gammas <- createGammaRays origin 2 ;;
  addGammas gammas ;;;
  wave <- createEnergyWave origin 6 ;;
  scene_add wave ;;;
  push_energyWaves [wave].

Definition initiateInelasticBreakup : M unit :=
  projectile <- getA Animation.projectile ;;
  target <- getA Animation.target ;;
  match projectile with
  | None => throw TypeError
  | Some projectile =>
      scene_remove projectile ;;;
      ud <- getUserData projectile ;;
      pos <- position_of projectile ;;
      fragments <-
        (if has_type "deuteron" ud then
           fragment1 <- createProton pos ;;
           fragment2 <- createNeutron pos ;;
           set_velocity_of fragment1 (Vector3.mk 0.1 0.04 0.01) ;;;
           set_velocity_of fragment2 (Vector3.mk 0.08 (-0.03) (-0.01)) ;;;
           ret (fragment1, fragment2)
         else
           fragment1 <- createProton pos ;;
           fragment2 <- createNeutron pos ;;
           set_velocity_of fragment1 (Vector3.mk 0.1 0.04 0) ;;;
           set_velocity_of fragment2 (Vector3.mk 0.08 (-0.04) 0) ;;;
           ret (fragment1, fragment2)) ;;
      let fragment1 := fst fragments in
      let fragment2 := snd fragments in
      position_add fragment1 (Vector3.mk 0 0.2 0) ;;;
      position_add fragment2 (Vector3.mk 0 (-0.2) 0) ;;;
      scene_add fragment1 ;;;
      scene_add fragment2 ;;;
      push_fragments [fragment1; fragment2] ;;;
      trail1 <- createTrail fragment1 ;;
      trail2 <- createTrail fragment2 ;;
      scene_add trail1 ;;;
      scene_add trail2 ;;;
      push_trails [trail1; trail2] ;;;
      target <- required target ;;
      modifyObj target (Object3D.set_visible false) ;;;
      tpos <- position_of target ;;
      excited <- createExcitedTarget tpos 1.5 ;;
      scene_add excited ;;;
      modifyA (Animation.set_excitedTarget (Some excited)) ;;;
      wave <- createEnergyWave tpos 5 ;;
      scene_add wave ;;;
      push_energyWaves [wave] ;;;
      pos <- position_of projectile ;;
      flash <- createExplosion pos ;;
      forEach scene_add flash ;;;
      push_effects flash ;;;
      console_log (Log "Inelastic breakup initiated - target excited")
  end.

(** The [switch] over the phase in [updateInelasticBreakup]. *)
Definition inelasticPhase (projectile target : option ref) (phase : string) : M bool :=
  if String.eqb phase "approach" then
    distToTarget <- approachStep projectile target 0.0025 ;;
    excited <- getA Animation.excitedTarget ;;
    (if (distToTarget <? 3.5) && negb (bool_decide (is_Some excited)) then
       initiateInelasticBreakup
     else ret tt) ;;;
    p <- required projectile ;;
    ppos <- position_of p ;;
    t <- required target ;;
    tpos <- position_of t ;;
    (if Vector3.x tpos + 5 <? Vector3.x ppos then modifyA (Animation.set_phase "escape")
     else ret tt) ;;;
    ret false
  else if String.eqb phase "escape" then
    fragments <- getA Animation.fragments ;;
    forEachIndexed (fun index frag => moveBySpeed frag ;;; updateTrailAt index)
      0%nat fragments ;;;
    excited <- getA Animation.excitedTarget ;;
    match excited with
    | Some e =>
        alive <- updateExcitedTarget e ;;
        if negb alive then
          scene_remove e ;;;
          modifyA (Animation.set_excitedTarget None) ;;;
          emitTargetGammas
        else ret tt
    | None => ret tt
    end ;;;
    filterGammaRays ;;;
    filterEnergyWaves ;;;
    fragments <- getA Animation.fragments ;;
    allFar <- every (beyond15 target) fragments ;;
    g <- getA Animation.gammaRays ;;
    excited <- getA Animation.excitedTarget ;;
    (if allFar then
       g <- required g ;;
       if bool_decide (length g = 0%nat) && negb (bool_decide (is_Some excited))
       then modifyA (Animation.set_phase "complete")
       else ret tt
     else ret tt) ;;;
    ret false
  else if String.eqb phase "complete" then ret true
  else ret false.

Definition updateInelasticBreakup (delta : float) : M bool :=
  projectile <- getA Animation.projectile ;;
  target <- getA Animation.target ;;
  phase <- getA Animation.phase ;;
  speed <- gets speed ;;
  modifyA (fun a => Animation.set_time (Animation.time a + delta * speed) a) ;;;
  inelasticPhase projectile target phase.

(** [update(delta)]: the tick, with its [try]/[catch]. *)
Definition advance (delta : float) : M bool :=
  type <- getA Animation.type ;;
  if String.eqb type "elastic" then updateElasticBreakup delta
  else if String.eqb type "nonelastic" then updateNonelasticBreakup delta
  else if String.eqb type "inelastic" then updateInelasticBreakup delta
  else updateNonelasticBreakup delta.

Definition update (delta : float) : M bool :=
  current <- gets currentAnimation ;;
  playing <- gets isPlaying ;;
  if negb (bool_decide (is_Some current)) || negb playing then ret false
  else
    try_catch
      (isComplete <- advance delta ;;
       if isComplete then
         modify (set_isPlaying false) ;;;
         console_log (Log "Animation complete") ;;;
         ret true
       else ret false)
      (fun error =>
         console_log (LogError "Animation update error:" error) ;;;
         modify (set_isPlaying false) ;;;
         ret true).

Definition play (animation : Animation.t) : M unit :=
  console_log (LogString "Playing animation:" (Animation.type animation)) ;;;
  projectile <- required (Animation.projectile animation) ;;
  ppos <- position_of projectile ;;
  console_log (LogVector "Projectile position:" ppos) ;;;
  target <- required (Animation.target animation) ;;
  tpos <- position_of target ;;
  console_log (LogVector "Target position:" tpos) ;;;
  modify (set_currentAnimation (Some animation)) ;;;
  modify (set_isPlaying true).

Definition stop : M unit := modify (set_isPlaying false).

Definition reset : M unit :=
  current <- gets currentAnimation ;;
  match current with
  | Some a =>
      forEach scene_remove (Animation.fragments a) ;;;
      forEach scene_remove (Animation.trails a) ;;;
      forEach scene_remove (Animation.effects a) ;;;
      match Animation.gammaRays a with
      | Some g => forEach scene_remove g
      | None => ret tt
      end ;;;
      match Animation.energyWaves a with
      | Some w => forEach scene_remove w
      | None => ret tt
      end ;;;
      match Animation.compoundNucleus a with
      | Some c => scene_remove c
      | None => ret tt
      end ;;;
      match Animation.excitedTarget a with
      | Some e => scene_remove e
      | None => ret tt
      end ;;;
      match Animation.target a with
      | Some t =>
          o <- lookupObj t ;;
          if bool_decide (is_Some o) then modifyObj t (Object3D.set_visible true)
          else ret tt
      | None => ret tt
      end ;;;
      match Animation.projectile a with
      | Some p => scene_remove p
      | None => ret tt
      end
  | None => ret tt
  end ;;;
  modify (set_currentAnimation None) ;;;
  modify (set_isPlaying false).

Definition cleanup : M unit := reset.
End BreakupAnimator.

(** ** The application around the animator

    The page builds its scenes once, starts an animation on a click and
    calls [update] from its render loop (main.js). *)

Section Application.
Local Open Scope float_scope.

(** A freshly loaded page: an empty store and scene, the particle system
    and the animator as their constructors leave them. *)
Definition pageLoad (tape : nat -> float) (sin cos acos : float -> float) : State :=
  mkState [] [] true 50 tape 0 sin cos acos [] false 1 None.

(** [initComparisonScenes], for one scene: the target and a first
    projectile. *)
Definition initComparisonScene : M (ref * ref) :=
  target <- createTargetNucleus (Vector3.mk 3 0 0) 1.5 ;;
  scene_add target ;;;
  projectile <- createDeuteron (Vector3.mk (-8) 1.5 0) ;;
  scene_add projectile ;;;
  ret (target, projectile).

Definition playComparisonAnimation (type : string) (target oldProjectile : ref) : M ref :=
  reset ;;;
  scene_remove oldProjectile ;;;
  projectile <- createDeuteron (Vector3.mk (-8) 1.5 0) ;;
  scene_add projectile ;;;
  animation <-
    (if String.eqb type "elastic" then createElasticBreakup projectile target 2.5
     else createNonelasticBreakup projectile target 1.5) ;;
  play animation ;;;
  ret projectile.

(** [initHeroScene] and [startHeroAnimation], with the page's impact
    parameter setting. *)
Definition initHeroScene : M (ref * ref) :=
  target <- createTargetNucleus (Vector3.mk 5 0 0) 2 ;;
  scene_add target ;;;
  projectile <- createDeuteron (Vector3.mk (-10) 2 0) ;;
  scene_add projectile ;;;
  ret (target, projectile).

Definition startHeroAnimation (impactParam : float) (target oldProjectile : ref) : M ref :=
  reset ;;;
  scene_remove oldProjectile ;;;
  projectile <- createDeuteron (Vector3.mk (-15) impactParam 0) ;;
  scene_add projectile ;;;
  animation <- createNonelasticBreakup projectile target impactParam ;;
  play animation ;;;
  ret projectile.

(** The speed slider: [setSpeed(value / 5)]. *)
Definition speedSlider (value : float) : M unit := setSpeed (value / 5).

(** The render loop: [update] once per frame, the answer dropped. *)
Definition ticks (deltas : list float) : M unit :=
  forEach (fun delta => _ <- update delta ;; ret tt) deltas.

(** [n] frames of the page, which passes 0.016 each time. *)
Definition frames (n : nat) : M unit := ticks (replicate n 0.016).

(** The page with its elastic comparison scene started. *)
Definition elasticScene : M unit :=
  scene <- initComparisonScene ;;
  _ <- playComparisonAnimation "elastic" (fst scene) (snd scene) ;;
  ret tt.

(** The page with its nonelastic comparison scene started. *)
Definition nonelasticScene : M unit :=
  scene <- initComparisonScene ;;
  _ <- playComparisonAnimation "nonelastic" (fst scene) (snd scene) ;;
  ret tt.

(** The page with its hero animation started at the default impact
    parameter. *)
Definition heroScene : M unit :=
  scene <- initHeroScene ;;
  _ <- startHeroAnimation 2.3 (fst scene) (snd scene) ;;
  ret tt.

(** A host for worked examples: every draw is 0.5, and the trigonometric
    functions are polynomial stand-ins (they only shape the directions of
    sparks and gamma rays and the pulsing of the nuclei). *)
Definition sample : State :=
  pageLoad (fun _ => 0.5)
    (fun x => x - x * x * x / 6)
    (fun x => 1 - x * x / 2)
    (fun x => Num.Math_PI / 2 - x).

(** A page like the comparison scene, with the target elsewhere, another
    projectile or another impact parameter. *)
Definition elasticStage (targetPosition : Vector3.t)
    (createProjectile : Vector3.t -> M ref) (impactParam : float) : M unit :=
  target <- createTargetNucleus targetPosition 1.5 ;;
  scene_add target ;;;
  projectile <- createProjectile (Vector3.mk (-8) 1.5 0) ;;
  scene_add projectile ;;;
  animation <- createElasticBreakup projectile target impactParam ;;
  play animation.



(** A trail of two points whose particle is gone. *)
Definition strayTrail : State :=
  snd (alloc (Object3D.set_userData
                (Some (UserData.set_points [Vector3.zero; Vector3.one] UserData.empty))
                (Object3D.Line (Material.basic 0.6))) sample).
End Application.

(** * Reasoning about runs *)

Section Runs.
Context {A B : Type}.

Lemma bind_Ok (m : M A) (k : A -> M B) s a s1 :
  m s = (Ok a, s1) -> bind m k s = k a s1.
Proof. intros H. unfold bind. rewrite H. reflexivity. Qed.

Lemma bind_Throw (m : M A) (k : A -> M B) s e s1 :
  m s = (Throw e, s1) -> bind m k s = (Throw e, s1).
Proof. intros H. unfold bind. rewrite H. reflexivity. Qed.

Lemma bind_Ok_inv (m : M A) (k : A -> M B) s b s' :
  bind m k s = (Ok b, s') ->
  exists a s1, m s = (Ok a, s1) /\ k a s1 = (Ok b, s').
Proof.
  unfold bind. destruct (m s) as [[a | e] s1]; intros H.
  - eauto.
  - discriminate.
Qed.
End Runs.

Lemma getA_Some {X} (f : Animation.t -> X) s a :
  currentAnimation s = Some a -> getA f s = (Ok (f a), s).
Proof. intros H. unfold getA, bind, gets. cbv beta. rewrite H. reflexivity. Qed.

Lemma getA_None {X} (f : Animation.t -> X) s :
  currentAnimation s = None -> getA f s = (Throw TypeError, s).
Proof. intros H. unfold getA, bind, gets. cbv beta. rewrite H. reflexivity. Qed.

Lemma modifyA_Some (f : Animation.t -> Animation.t) s a :
  currentAnimation s = Some a ->
  modifyA f s = (Ok tt, set_currentAnimation (Some (f a)) s).
Proof. intros H. unfold modifyA, bind, gets. cbv beta. rewrite H. reflexivity. Qed.

(** What a run can answer when it does not raise. *)
Definition returns {A} (Q : A -> Prop) (m : M A) : Prop :=
  forall s a s', m s = (Ok a, s') -> Q a.

Lemma returns_ret {A} (Q : A -> Prop) a : Q a -> returns Q (ret a).
Proof. intros H s a' s' E. injection E as <- _. exact H. Qed.

Lemma returns_throw {A} (Q : A -> Prop) e : returns Q (throw e).
Proof. intros s a s' E. discriminate. Qed.

Lemma returns_bind {A B} (Q' : A -> Prop) (Q : B -> Prop) (m : M A) (k : A -> M B) :
  returns Q' m -> (forall a, Q' a -> returns Q (k a)) -> returns Q (bind m k).
Proof.
  intros Hm Hk s b s' E.
  apply bind_Ok_inv in E as (a & s1 & E1 & E2).
  exact (Hk a (Hm _ _ _ E1) _ _ _ E2).
Qed.

Lemma returns_any {A} (m : M A) : returns (fun _ => True) m.
Proof. intros s a s' _. exact I. Qed.

Lemma returns_then {A B} (Q : B -> Prop) (m : M A) (k : A -> M B) :
  (forall a, returns Q (k a)) -> returns Q (bind m k).
Proof. intros Hk. apply (returns_bind (fun _ => True)); [apply returns_any | auto]. Qed.

(** The phase the current animation is in, if there is one. *)
Definition phase_of (s : State) : option string :=
  Animation.phase <$> currentAnimation s.

(** The state a per-kind update hands to its [switch]: the time booked. *)
Definition enter (delta : float) (a : Animation.t) (s : State) : State :=
  set_currentAnimation
    (Some (Animation.set_time (Animation.time a + delta * speed s)%float a)) s.

Section Entering.
Variable delta : float.
Variables (s : State) (a : Animation.t).
Hypothesis Hcur : currentAnimation s = Some a.

Ltac enter_tick :=
  rewrite (bind_Ok _ _ _ _ _ (getA_Some _ _ _ Hcur));
  rewrite (bind_Ok _ _ _ _ _ (getA_Some _ _ _ Hcur));
  rewrite (bind_Ok _ _ _ _ _ (getA_Some _ _ _ Hcur));
  rewrite (bind_Ok _ _ _ _ _ (eq_refl : gets speed _ = (Ok _, _)));
  rewrite (bind_Ok _ _ _ _ _ (modifyA_Some _ _ _ Hcur)).

Lemma updateElasticBreakup_enter :
  updateElasticBreakup delta s =
  elasticPhase (Animation.projectile a) (Animation.target a) (Animation.phase a)
    (enter delta a s).
Proof. unfold updateElasticBreakup. enter_tick. reflexivity. Qed.

Lemma updateNonelasticBreakup_enter :
  updateNonelasticBreakup delta s =
  (complete <-
     nonelasticPhase (Animation.projectile a) (Animation.target a) (Animation.phase a) ;;
   if complete then ret true
   else
     effects <- getA Animation.effects ;;
     particles <- filterM hasVelocity effects ;;
     _ <- updateExplosion particles ;;
     ret false) (enter delta a s).
Proof. unfold updateNonelasticBreakup. enter_tick. reflexivity. Qed.

Lemma updateInelasticBreakup_enter :
  updateInelasticBreakup delta s =
  inelasticPhase (Animation.projectile a) (Animation.target a) (Animation.phase a)
    (enter delta a s).
Proof. unfold updateInelasticBreakup. enter_tick. reflexivity. Qed.
End Entering.

Lemma tick_without_animation s :
  currentAnimation s = None ->
  forall delta,
    updateElasticBreakup delta s = (Throw TypeError, s) /\
    updateNonelasticBreakup delta s = (Throw TypeError, s) /\
    updateInelasticBreakup delta s = (Throw TypeError, s) /\
    advance delta s = (Throw TypeError, s).
Proof.
  intros Hcur delta.
  unfold updateElasticBreakup, updateNonelasticBreakup, updateInelasticBreakup, advance.
  rewrite !(bind_Throw _ _ _ _ _ (getA_None _ _ Hcur)). auto.
Qed.

Section Complete_signal.
Variable delta : float.

(** Follow a run that answered down its chain of binds. *)
Ltac peel E := repeat (apply bind_Ok_inv in E as (? & ? & _ & E); cbv beta in E).

Ltac phase_by_phase a :=
  repeat (lazymatch goal with
          | |- context [String.eqb (Animation.phase a) ?p] =>
              destruct (String.eqb_spec (Animation.phase a) p) as [-> | _]
          end;
          [first [ reflexivity | intros E; peel E; discriminate ] |]);
  discriminate.

Lemma updateElasticBreakup_true s s' :
  updateElasticBreakup delta s = (Ok true, s') -> phase_of s = Some "complete".
Proof.
  unfold phase_of.
  destruct (currentAnimation s) as [a |] eqn:Hcur.
  2: { rewrite (proj1 (tick_without_animation s Hcur delta)). discriminate. }
  rewrite (updateElasticBreakup_enter delta s a Hcur). unfold elasticPhase. simpl.
  phase_by_phase a.
Qed.

Lemma updateNonelasticBreakup_true s s' :
  updateNonelasticBreakup delta s = (Ok true, s') -> phase_of s = Some "complete".
Proof.
  unfold phase_of.
  destruct (currentAnimation s) as [a |] eqn:Hcur.
  2: { rewrite (proj1 (proj2 (tick_without_animation s Hcur delta))). discriminate. }
  rewrite (updateNonelasticBreakup_enter delta s a Hcur).
  intros E. apply bind_Ok_inv in E as ([|] & s1 & E & E').
  2: { peel E'. discriminate. }
  clear E'. revert E. unfold nonelasticPhase.
  rewrite (bind_Ok _ _ _ _ _ (eq_refl : gets speed _ = (Ok _, _))). simpl.
  phase_by_phase a.
Qed.

Lemma updateInelasticBreakup_true s s' :
  updateInelasticBreakup delta s = (Ok true, s') -> phase_of s = Some "complete".
Proof.
  unfold phase_of.
  destruct (currentAnimation s) as [a |] eqn:Hcur.
  2: { rewrite (proj1 (proj2 (proj2 (tick_without_animation s Hcur delta)))).
       discriminate. }
  rewrite (updateInelasticBreakup_enter delta s a Hcur). unfold inelasticPhase. simpl.
  phase_by_phase a.
Qed.

Lemma advance_true s s' :
  advance delta s = (Ok true, s') -> phase_of s = Some "complete".
Proof.
  unfold advance.
  destruct (currentAnimation s) as [a |] eqn:Hcur.
  2: { rewrite (bind_Throw _ _ _ _ _ (getA_None _ _ Hcur)). discriminate. }
  rewrite (bind_Ok _ _ _ _ _ (getA_Some _ _ _ Hcur)).
  repeat match goal with
         | |- context [if ?b then _ else _] => destruct b
         end;
    eauto using updateElasticBreakup_true, updateNonelasticBreakup_true,
                updateInelasticBreakup_true.
Qed.

(** In phase [complete] the tick only books the time and answers [true]. *)
Lemma advance_complete s a :
  currentAnimation s = Some a -> Animation.phase a = "complete" ->
  advance delta s = (Ok true, enter delta a s).
Proof.
  intros Hcur Hph. unfold advance.
  rewrite (bind_Ok _ _ _ _ _ (getA_Some _ _ _ Hcur)).
  assert (He : updateElasticBreakup delta s = (Ok true, enter delta a s)).
  { rewrite (updateElasticBreakup_enter delta s a Hcur), Hph. reflexivity. }
  assert (Hn : updateNonelasticBreakup delta s = (Ok true, enter delta a s)).
  { rewrite (updateNonelasticBreakup_enter delta s a Hcur), Hph. reflexivity. }
  assert (Hi : updateInelasticBreakup delta s = (Ok true, enter delta a s)).
  { rewrite (updateInelasticBreakup_enter delta s a Hcur), Hph. reflexivity. }
  repeat match goal with
         | |- context [if ?b then _ else _] => destruct b
         end; assumption.
Qed.
End Complete_signal.

(** [update] with its two guards read off the state. *)
Lemma update_eq delta s :
  update delta s =
  if negb (bool_decide (is_Some (currentAnimation s))) || negb (isPlaying s)
  then (Ok false, s)
  else
    try_catch
      (isComplete <- advance delta ;;
       if isComplete then
         modify (set_isPlaying false) ;;;
         console_log (Log "Animation complete") ;;;
         ret true
       else ret false)
      (fun error =>
         console_log (LogError "Animation update error:" error) ;;;
         modify (set_isPlaying false) ;;;
         ret true) s.
Proof.
  unfold update, bind at 1 2, gets at 1 2. cbv beta iota.
  destruct (negb (bool_decide (is_Some (currentAnimation s))) || negb (isPlaying s));
    reflexivity.
Qed.

(** * The tick: [update] *)

(** C1.  [update(delta)] never raises.  When no animation is current or
    playback is not marked playing it answers [false] and changes nothing.
    Otherwise it answers [true] exactly when the current animation was
    already in phase [complete] or advancing it raised, and in both cases
    [isPlaying] is [false] on return; in every other case it answers
    [false]. *)
Theorem update_spec (delta : float) (s : State) :
  exists r s',
    update delta s = (Ok r, s') /\
    ((currentAnimation s = None \/ isPlaying s = false) -> r = false /\ s' = s) /\
    (is_Some (currentAnimation s) /\ isPlaying s = true ->
     (r = true <->
      (phase_of s = Some "complete" \/ exists e s1, advance delta s = (Throw e, s1))) /\
     (r = true -> isPlaying s' = false)).
Proof.
  unfold update, bind at 1 2, gets at 1 2. cbv beta iota.
  destruct (currentAnimation s) as [a |] eqn:Hcur.
  2: { exists false, s. split; [reflexivity |]. split; [auto |].
       intros [[? ?] _]. discriminate. }
  destruct (isPlaying s) eqn:Hplay.
  2: { exists false, s. split; [reflexivity |]. split; [auto |].
       intros [_ ?]. discriminate. }
  replace (negb (bool_decide (is_Some (Some a))) || negb true) with false
    by (rewrite bool_decide_eq_true_2; [reflexivity | eauto]).
  unfold try_catch.
  destruct (advance delta s) as [[[|] | e] s1] eqn:Hadv.
  - rewrite (bind_Ok _ _ _ _ _ Hadv).
    eexists true, _. split; [reflexivity |].
    split; [intros [? | ?]; discriminate |].
    intros _. split; [| reflexivity].
    split; [| reflexivity].
    intros _. left. apply (advance_true _ _ _ Hadv).
  - rewrite (bind_Ok _ _ _ _ _ Hadv).
    exists false, s1. split; [reflexivity |].
    split; [intros [? | ?]; discriminate |].
    intros _. split; [| discriminate].
    split; [discriminate |].
    intros [Hph | (e & s2 & ?)]; [| congruence].
    unfold phase_of in Hph. rewrite Hcur in Hph. simpl in Hph.
    injection Hph as Hph.
    rewrite (advance_complete _ _ _ Hcur Hph) in Hadv. discriminate.
  - rewrite (bind_Throw _ _ _ _ _ Hadv).
    eexists true, _. split; [reflexivity |].
    split; [intros [? | ?]; discriminate |].
    intros _. split; [| reflexivity].
    split; [| reflexivity].
    intros _. right. eauto.
Qed.

(** * Invariants of runs

    [inv I m]: a run of [m] from a state in [I] ends in [I], whether it
    answers or raises. *)

Definition inv {A} (I : State -> Prop) (m : M A) : Prop :=
  forall s, I s -> I (snd (m s)).

Section Inv.
Variable I : State -> Prop.

Lemma inv_ret {A} (a : A) : inv I (ret a).
Proof. intros s H. exact H. Qed.

Lemma inv_throw {A} e : inv I (@throw A e).
Proof. intros s H. exact H. Qed.

Lemma inv_gets {A} (f : State -> A) : inv I (gets f).
Proof. intros s H. exact H. Qed.

Lemma inv_required {A} (o : option A) : inv I (required o).
Proof. destruct o; [apply inv_ret | apply inv_throw]. Qed.

Lemma inv_bind {A B} (m : M A) (k : A -> M B) :
  inv I m -> (forall a, inv I (k a)) -> inv I (bind m k).
Proof.
  intros Hm Hk s H. specialize (Hm s H). unfold bind.
  destruct (m s) as [[a | e] s1]; simpl in *.
  - apply Hk, Hm.
  - exact Hm.
Qed.

Lemma inv_try_catch {A} (m : M A) (h : string -> M A) :
  inv I m -> (forall e, inv I (h e)) -> inv I (try_catch m h).
Proof.
  intros Hm Hh s H. specialize (Hm s H). unfold try_catch.
  destruct (m s) as [[a | e] s1]; simpl in *.
  - exact Hm.
  - apply Hh, Hm.
Qed.

Lemma inv_modify (f : State -> State) :
  (forall s, I s -> I (f s)) -> inv I (modify f).
Proof. intros Hf s H. apply Hf, H. Qed.

Lemma inv_lookupObj r : inv I (lookupObj r).
Proof. apply inv_gets. Qed.

Lemma inv_getObj r : inv I (getObj r).
Proof. apply inv_bind; [apply inv_lookupObj | intro; apply inv_required]. Qed.

Lemma inv_getA {A} (f : Animation.t -> A) : inv I (getA f).
Proof.
  apply inv_bind; [apply inv_gets | intro].
  apply inv_bind; [apply inv_required | intro; apply inv_ret].
Qed.

Lemma inv_modifyA (f : Animation.t -> Animation.t) :
  (forall s a, currentAnimation s = Some a -> I s ->
               I (set_currentAnimation (Some (f a)) s)) ->
  inv I (modifyA f).
Proof.
  intros Hf s H. unfold modifyA, bind, gets. cbv beta.
  destruct (currentAnimation s) as [a |] eqn:Hcur; simpl; auto.
Qed.

Lemma inv_alloc o :
  (forall s, I s -> I (set_objects (objects s ++ [o]) s)) -> inv I (alloc o).
Proof. intros Ho s H. apply Ho, H. Qed.

Lemma inv_Math_random :
  (forall s, I s -> I (set_Math_random_pos (S (Math_random_pos s)) s)) ->
  inv I Math_random.
Proof. intros Hr s H. apply Hr, H. Qed.

Lemma inv_forEach {A} (f : A -> M unit) l :
  (forall a, inv I (f a)) -> inv I (forEach f l).
Proof.
  intros Hf. induction l as [| a l IH]; simpl.
  - apply inv_ret.
  - apply inv_bind; auto.
Qed.

Lemma inv_forEachIndexed {A} (f : nat -> A -> M unit) i l :
  (forall i a, inv I (f i a)) -> inv I (forEachIndexed f i l).
Proof.
  intros Hf. revert i. induction l as [| a l IH]; intros i; simpl.
  - apply inv_ret.
  - apply inv_bind; auto.
Qed.

Lemma inv_filterM {A} (p : A -> M bool) l :
  (forall a, inv I (p a)) -> inv I (filterM p l).
Proof.
  intros Hp. induction l as [| a l IH]; simpl.
  - apply inv_ret.
  - apply inv_bind; [auto | intro]. apply inv_bind; [auto | intro]. apply inv_ret.
Qed.

Lemma inv_every {A} (p : A -> M bool) l :
  (forall a, inv I (p a)) -> inv I (every p l).
Proof.
  intros Hp. induction l as [| a l IH]; simpl.
  - apply inv_ret.
  - apply inv_bind; [auto | intros []]; [auto | apply inv_ret].
Qed.

Lemma inv_repeatM {A} n (m : M A) : inv I m -> inv I (repeatM n m).
Proof.
  intros Hm. induction n as [| n IH]; simpl.
  - apply inv_ret.
  - apply inv_bind; [auto | intro]. apply inv_bind; [auto | intro]. apply inv_ret.
Qed.
End Inv.

Ltac head_of t :=
  lazymatch t with
  | ?f _ => head_of f
  | _ => t
  end.

(** Walk a method body: structure by the rules above, [match]es by cases,
    methods by unfolding; [side] settles what the primitives ask about [I]. *)
Ltac inv_walk side :=
  repeat
    lazymatch goal with
    | |- inv _ (ret _) => apply inv_ret
    | |- inv _ (throw _) => apply inv_throw
    | |- inv _ (required _) => apply inv_required
    | |- inv _ (gets _) => apply inv_gets
    | |- inv _ (lookupObj _) => apply inv_lookupObj
    | |- inv _ (getObj _) => apply inv_getObj
    | |- inv _ (getA _) => apply inv_getA
    | |- inv _ (bind _ _) => apply inv_bind; [| intro]
    | |- inv _ (try_catch _ _) => apply inv_try_catch; [| intro]
    | |- inv _ (modify _) => apply inv_modify; side
    | |- inv _ (modifyA _) => apply inv_modifyA; side
    | |- inv _ (alloc _) => apply inv_alloc; side
    | |- inv _ Math_random => apply inv_Math_random; side
    | |- inv _ (forEach _ _) => apply inv_forEach; intro
    | |- inv _ (forEachIndexed _ _ _) => apply inv_forEachIndexed; intros ? ?
    | |- inv _ (filterM _ _) => apply inv_filterM; intro
    | |- inv _ (every _ _) => apply inv_every; intro
    | |- inv _ (repeatM _ _) => apply inv_repeatM
    | |- inv _ (match ?x with _ => _ end) => destruct x
    | |- inv _ ?m => let h := head_of m in unfold h
    end.

(** * Phases only move forward *)

(** The kind and the phase of the current animation. *)
Definition kind_phase (s : State) : option (string * string) :=
  (fun a => (Animation.type a, Animation.phase a)) <$> currentAnimation s.

(** The current animation is of kind [type], in one of the phases [l]. *)
Definition phase_among (type : string) (l : list string) (s : State) : Prop :=
  exists p, kind_phase s = Some (type, p) /\ In p l.

Ltac phase_side :=
  first
    [ intros ? H; exact H
    | let Hcur := fresh in
      let Hp := fresh in
      let Hin := fresh in
      intros ? ? Hcur (? & Hp & Hin);
      unfold kind_phase in Hp; rewrite Hcur in Hp; simpl in Hp;
      injection Hp as <- <-;
      eexists; split; [reflexivity | first [exact Hin | simpl; tauto]] ].

(** The phases one tick of each kind can leave the animation in. *)
Definition next_phases (order : list (string * string)) (p : string) : list string :=
  p :: omap (fun '(from, to) => if String.eqb p from then Some to else None) order.

Definition elastic_order : list (string * string) :=
  [("approach", "breakup"); ("breakup", "complete")].
Definition nonelastic_order : list (string * string) :=
  [("approach", "breakup"); ("breakup", "compound"); ("compound", "decay");
   ("decay", "complete"); ("absorption", "complete")].
Definition inelastic_order : list (string * string) :=
  [("approach", "escape"); ("escape", "complete")].

Section Phase_steps.
Variable delta : float.

Ltac by_invariant :=
  lazymatch goal with
  | |- ?I (snd (?m ?s)) =>
      let Hinv := fresh in
      cut (inv I m);
      [ intros Hinv; apply Hinv; eexists; split; [reflexivity | left; reflexivity] |]
  end.

Ltac phase_cases a :=
  repeat
    lazymatch goal with
    | |- context [String.eqb (Animation.phase a) ?p] =>
        destruct (String.eqb_spec (Animation.phase a) p) as [-> | ?]
    end.

Lemma updateElasticBreakup_phase s a :
  currentAnimation s = Some a ->
  phase_among (Animation.type a) (next_phases elastic_order (Animation.phase a))
    (snd (updateElasticBreakup delta s)).
Proof.
  intros Hcur. rewrite (updateElasticBreakup_enter delta s a Hcur).
  by_invariant. unfold elasticPhase. simpl. phase_cases a; inv_walk phase_side.
Qed.

Lemma updateNonelasticBreakup_phase s a :
  currentAnimation s = Some a ->
  phase_among (Animation.type a) (next_phases nonelastic_order (Animation.phase a))
    (snd (updateNonelasticBreakup delta s)).
Proof.
  intros Hcur. rewrite (updateNonelasticBreakup_enter delta s a Hcur).
  by_invariant. unfold nonelasticPhase. simpl. phase_cases a; inv_walk phase_side.
Qed.

Lemma updateInelasticBreakup_phase s a :
  currentAnimation s = Some a ->
  phase_among (Animation.type a) (next_phases inelastic_order (Animation.phase a))
    (snd (updateInelasticBreakup delta s)).
Proof.
  intros Hcur. rewrite (updateInelasticBreakup_enter delta s a Hcur).
  by_invariant. unfold inelasticPhase. simpl. phase_cases a; inv_walk phase_side.
Qed.

(** The order of the phases of a kind, as [update] dispatches on it. *)
Definition order_of (type : string) : list (string * string) :=
  if String.eqb type "elastic" then elastic_order
  else if String.eqb type "nonelastic" then nonelastic_order
  else if String.eqb type "inelastic" then inelastic_order
  else nonelastic_order.

Lemma advance_phase s a :
  currentAnimation s = Some a ->
  phase_among (Animation.type a)
    (next_phases (order_of (Animation.type a)) (Animation.phase a))
    (snd (advance delta s)).
Proof.
  intros Hcur. unfold advance, order_of.
  rewrite (bind_Ok _ _ _ _ _ (getA_Some _ _ _ Hcur)).
  repeat lazymatch goal with
         | |- context [if ?b then _ else _] => destruct b
         end;
    auto using updateElasticBreakup_phase, updateNonelasticBreakup_phase,
               updateInelasticBreakup_phase.
Qed.

Lemma update_phase s a :
  currentAnimation s = Some a ->
  phase_among (Animation.type a)
    (next_phases (order_of (Animation.type a)) (Animation.phase a))
    (snd (update delta s)).
Proof.
  intros Hcur.
  assert (Hhere : phase_among (Animation.type a)
                    (next_phases (order_of (Animation.type a)) (Animation.phase a)) s).
  { exists (Animation.phase a). unfold kind_phase. rewrite Hcur.
    split; [reflexivity | left; reflexivity]. }
  unfold update, bind at 1 2, gets at 1 2. cbv beta iota.
  destruct (negb (bool_decide (is_Some (currentAnimation s))) || negb (isPlaying s));
    [exact Hhere |].
  unfold try_catch.
  pose proof (advance_phase s a Hcur) as Hadv.
  destruct (advance delta s) as [[[|] | e] s1] eqn:E; simpl in Hadv.
  - rewrite (bind_Ok _ _ _ _ _ E). exact Hadv.
  - rewrite (bind_Ok _ _ _ _ _ E). exact Hadv.
  - rewrite (bind_Throw _ _ _ _ _ E). exact Hadv.
Qed.

Lemma update_without_animation s :
  currentAnimation s = None -> update delta s = (Ok false, s).
Proof.
  intros Hcur. unfold update, bind at 1 2, gets at 1 2. cbv beta iota.
  rewrite Hcur. reflexivity.
Qed.
End Phase_steps.

(** The place of a phase in the order of its kind; [decay] and the legacy
    [absorption] share a place. *)
Definition rank (type phase : string) : option nat :=
  let table :=
    if String.eqb type "elastic" then
      [("approach", 0); ("breakup", 1); ("complete", 2)]
    else if String.eqb type "inelastic" then
      [("approach", 0); ("escape", 1); ("complete", 2)]
    else
      [("approach", 0); ("breakup", 1); ("compound", 2); ("decay", 3);
       ("absorption", 3); ("complete", 4)] in
  snd <$> List.find (fun '(p, _) => String.eqb p phase) table.

(** [q] is [p] or a later phase of the kind. *)
Definition forward (type p q : string) : Prop :=
  p = q \/ exists i j, rank type p = Some i /\ rank type q = Some j /\ i < j.

Lemma forward_refl type p : forward type p p.
Proof. left. reflexivity. Qed.

Lemma forward_trans type p q r : forward type p q -> forward type q r -> forward type p r.
Proof.
  intros [-> | (i & j & Hi & Hj & Hij)] [-> | (j' & k & Hj' & Hk & Hjk)].
  - left. reflexivity.
  - right. eauto.
  - right. eauto.
  - right. exists i, k. rewrite Hj in Hj'. injection Hj' as <-.
    repeat split; auto. lia.
Qed.

Lemma forward_antisym type p q : forward type p q -> forward type q p -> p = q.
Proof.
  intros [-> | (i & j & Hi & Hj & Hij)] [E | (j' & i' & Hj' & Hi' & Hji)]; auto.
  rewrite Hj in Hj'. rewrite Hi in Hi'. injection Hj' as <-. injection Hi' as <-. lia.
Qed.

Lemma next_forward type p q :
  In q (next_phases (order_of type) p) -> forward type p q.
Proof.
  unfold next_phases, order_of, forward, rank.
  destruct (String.eqb_spec type "elastic") as [-> | Hne].
  - simpl.
    destruct (String.eqb_spec p "approach") as [-> | ?]; simpl.
    { intros [<- | [<- | []]]; [left; reflexivity | right; exists 0, 1; auto]. }
    destruct (String.eqb_spec p "breakup") as [-> | ?]; simpl.
    { intros [<- | [<- | []]]; [left; reflexivity | right; exists 1, 2; auto]. }
    intros [<- | []]. left. reflexivity.
  - destruct (String.eqb_spec type "nonelastic") as [-> | Hnn].
    + simpl.
      destruct (String.eqb_spec p "approach") as [-> | ?]; simpl.
      { intros [<- | [<- | []]]; [left; reflexivity | right; exists 0, 1; auto]. }
      destruct (String.eqb_spec p "breakup") as [-> | ?]; simpl.
      { intros [<- | [<- | []]]; [left; reflexivity | right; exists 1, 2; auto]. }
      destruct (String.eqb_spec p "compound") as [-> | ?]; simpl.
      { intros [<- | [<- | []]]; [left; reflexivity | right; exists 2, 3; auto]. }
      destruct (String.eqb_spec p "decay") as [-> | ?]; simpl.
      { intros [<- | [<- | []]]; [left; reflexivity | right; exists 3, 4; auto]. }
      destruct (String.eqb_spec p "absorption") as [-> | ?]; simpl.
      { intros [<- | [<- | []]]; [left; reflexivity | right; exists 3, 4; auto]. }
      intros [<- | []]. left. reflexivity.
    + destruct (String.eqb_spec type "inelastic") as [-> | Hni].
      * simpl.
        destruct (String.eqb_spec p "approach") as [-> | ?]; simpl.
        { intros [<- | [<- | []]]; [left; reflexivity | right; exists 0, 1; auto]. }
        destruct (String.eqb_spec p "escape") as [-> | ?]; simpl.
        { intros [<- | [<- | []]]; [left; reflexivity | right; exists 1, 2; auto]. }
        intros [<- | []]. left. reflexivity.
      * simpl.
        destruct (String.eqb_spec p "approach") as [-> | ?]; simpl.
        { intros [<- | [<- | []]]; [left; reflexivity | right; exists 0, 1; auto]. }
        destruct (String.eqb_spec p "breakup") as [-> | ?]; simpl.
        { intros [<- | [<- | []]]; [left; reflexivity | right; exists 1, 2; auto]. }
        destruct (String.eqb_spec p "compound") as [-> | ?]; simpl.
        { intros [<- | [<- | []]]; [left; reflexivity | right; exists 2, 3; auto]. }
        destruct (String.eqb_spec p "decay") as [-> | ?]; simpl.
        { intros [<- | [<- | []]]; [left; reflexivity | right; exists 3, 4; auto]. }
        destruct (String.eqb_spec p "absorption") as [-> | ?]; simpl.
        { intros [<- | [<- | []]]; [left; reflexivity | right; exists 3, 4; auto]. }
        intros [<- | []]. left. reflexivity.
Qed.

Lemma update_forward delta s type p :
  kind_phase s = Some (type, p) ->
  exists q, kind_phase (snd (update delta s)) = Some (type, q) /\ forward type p q.
Proof.
  unfold kind_phase at 1. destruct (currentAnimation s) as [a |] eqn:Hcur; [| discriminate].
  simpl. intros [= <- <-].
  destruct (update_phase delta s a Hcur) as (q & Hq & Hin).
  exists q. split; [exact Hq | apply next_forward, Hin].
Qed.

Lemma update_answers delta s : exists r, update delta s = (Ok r, snd (update delta s)).
Proof.
  destruct (update delta s) as [[r | e] s'] eqn:E; [eexists; reflexivity | exfalso].
  revert E. unfold update, bind at 1 2, gets at 1 2. cbv beta iota.
  destruct (negb (bool_decide (is_Some (currentAnimation s))) || negb (isPlaying s));
    [discriminate |].
  unfold try_catch.
  destruct (advance delta s) as [[[|] | e'] s1] eqn:E.
  - rewrite (bind_Ok _ _ _ _ _ E). discriminate.
  - rewrite (bind_Ok _ _ _ _ _ E). discriminate.
  - rewrite (bind_Throw _ _ _ _ _ E). discriminate.
Qed.

Lemma ticks_cons delta deltas s :
  ticks (delta :: deltas) s = ticks deltas (snd (update delta s)).
Proof.
  unfold ticks. simpl forEach.
  destruct (update_answers delta s) as (r & E).
  rewrite (bind_Ok _ _ _ _ _ (bind_Ok _ _ _ _ _ E)). reflexivity.
Qed.

Lemma ticks_forward deltas s type p :
  kind_phase s = Some (type, p) ->
  exists q, kind_phase (snd (ticks deltas s)) = Some (type, q) /\ forward type p q.
Proof.
  revert s p. induction deltas as [| delta deltas IH]; intros s p Hs.
  - exists p. split; [exact Hs | apply forward_refl].
  - rewrite ticks_cons.
    destruct (update_forward delta s type p Hs) as (q & Hq & Hpq).
    destruct (IH _ _ Hq) as (r & Hr & Hqr).
    exists r. split; [exact Hr | eapply forward_trans; eauto].
Qed.

(** C4.  Whatever the kind of the current animation and however many ticks
    are taken, the phase only moves forward along the order of its kind
    (elastic: approach, breakup, complete; nonelastic: approach, breakup,
    compound, decay or absorption, complete; inelastic: approach, escape,
    complete): after [earlier] ticks and then [later] more, each phase is
    the one before or a later one, and a phase that has been left is never
    entered again.  The kind never changes. *)
Theorem phases_only_move_forward (earlier later : list float) (s : State) :
  match kind_phase s with
  | None => kind_phase (snd (ticks earlier s)) = None
  | Some (type, p0) =>
      exists p1 p2,
        kind_phase (snd (ticks earlier s)) = Some (type, p1) /\
        kind_phase (snd (ticks later (snd (ticks earlier s)))) = Some (type, p2) /\
        forward type p0 p1 /\ forward type p1 p2 /\
        (p2 = p0 -> p1 = p0)
  end.
Proof.
  destruct (kind_phase s) as [[type p0] |] eqn:Hs.
  - destruct (ticks_forward earlier s type p0 Hs) as (p1 & H1 & F1).
    destruct (ticks_forward later _ type p1 H1) as (p2 & H2 & F2).
    exists p1, p2. repeat split; auto.
    intros ->. symmetry. eapply forward_antisym; eauto.
  - clear later. revert s Hs. induction earlier as [| delta deltas IH]; intros s Hs.
    + exact Hs.
    + rewrite ticks_cons. apply IH.
      unfold kind_phase in Hs.
      destruct (currentAnimation s) eqn:Hcur; [discriminate |].
      rewrite (update_without_animation delta s Hcur). simpl.
      unfold kind_phase. rewrite Hcur. reflexivity.
Qed.

(** * What [delta] reaches

    [with_time t s] overwrites the [time] of the current animation.  A
    computation is [time_blind] when running it commutes with that: it
    neither reads nor writes the field. *)

Definition with_time (t : float) (s : State) : State :=
  set_currentAnimation (Animation.set_time t <$> currentAnimation s) s.

Definition erase_time (s : State) : State := with_time 0 s.

Definition time_blind {A} (m : M A) : Prop :=
  forall t s, m (with_time t s) = (fst (m s), with_time t (snd (m s))).

Lemma with_time_twice t t' s : with_time t (with_time t' s) = with_time t s.
Proof.
  unfold with_time. destruct s as [? ? ? ? ? ? ? ? ? ? ? ? [a |]]; simpl; reflexivity.
Qed.

Section Time_blind.
Lemma tb_ret {A} (a : A) : time_blind (ret a).
Proof. intros t s. reflexivity. Qed.

Lemma tb_throw {A} e : time_blind (@throw A e).
Proof. intros t s. reflexivity. Qed.

Lemma tb_required {A} (o : option A) : time_blind (required o).
Proof. destruct o; [apply tb_ret | apply tb_throw]. Qed.

Lemma tb_gets {A} (f : State -> A) :
  (forall t s, f (with_time t s) = f s) -> time_blind (gets f).
Proof. intros Hf t s. unfold gets. rewrite Hf. reflexivity. Qed.

Lemma tb_modify (f : State -> State) :
  (forall t s, f (with_time t s) = with_time t (f s)) -> time_blind (modify f).
Proof. intros Hf t s. unfold modify. rewrite Hf. reflexivity. Qed.

Lemma tb_bind {A B} (m : M A) (k : A -> M B) :
  time_blind m -> (forall a, time_blind (k a)) -> time_blind (bind m k).
Proof.
  intros Hm Hk t s. unfold bind. rewrite Hm.
  destruct (m s) as [[a | e] s1]; simpl.
  - apply Hk.
  - reflexivity.
Qed.

Lemma tb_try_catch {A} (m : M A) (h : string -> M A) :
  time_blind m -> (forall e, time_blind (h e)) -> time_blind (try_catch m h).
Proof.
  intros Hm Hh t s. unfold try_catch. rewrite Hm.
  destruct (m s) as [[a | e] s1]; simpl.
  - reflexivity.
  - apply Hh.
Qed.

Lemma tb_getA {A} (f : Animation.t -> A) :
  (forall t a, f (Animation.set_time t a) = f a) -> time_blind (getA f).
Proof.
  intros Hf t s. unfold getA, bind, gets, with_time. cbv beta.
  destruct s as [? ? ? ? ? ? ? ? ? ? ? ? [a |]]; simpl; [rewrite Hf |]; reflexivity.
Qed.

Lemma tb_modifyA (f : Animation.t -> Animation.t) :
  (forall t a, f (Animation.set_time t a) = Animation.set_time t (f a)) ->
  time_blind (modifyA f).
Proof.
  intros Hf t s. unfold modifyA, bind, gets, with_time. cbv beta.
  destruct s as [? ? ? ? ? ? ? ? ? ? ? ? [a |]]; simpl; [rewrite Hf |]; reflexivity.
Qed.

Lemma tb_alloc o : time_blind (alloc o).
Proof. intros t s. reflexivity. Qed.

Lemma tb_Math_random : time_blind Math_random.
Proof. intros t s. reflexivity. Qed.

Lemma tb_forEach {A} (f : A -> M unit) l :
  (forall a, time_blind (f a)) -> time_blind (forEach f l).
Proof.
  intros Hf. induction l as [| a l IH]; simpl.
  - apply tb_ret.
  - apply tb_bind; auto.
Qed.

Lemma tb_forEachIndexed {A} (f : nat -> A -> M unit) i l :
  (forall i a, time_blind (f i a)) -> time_blind (forEachIndexed f i l).
Proof.
  intros Hf. revert i. induction l as [| a l IH]; intros i; simpl.
  - apply tb_ret.
  - apply tb_bind; auto.
Qed.

Lemma tb_filterM {A} (p : A -> M bool) l :
  (forall a, time_blind (p a)) -> time_blind (filterM p l).
Proof.
  intros Hp. induction l as [| a l IH]; simpl.
  - apply tb_ret.
  - apply tb_bind; [auto | intro]. apply tb_bind; [auto | intro]. apply tb_ret.
Qed.

Lemma tb_every {A} (p : A -> M bool) l :
  (forall a, time_blind (p a)) -> time_blind (every p l).
Proof.
  intros Hp. induction l as [| a l IH]; simpl.
  - apply tb_ret.
  - apply tb_bind; [auto | intros []]; [auto | apply tb_ret].
Qed.

Lemma tb_repeatM {A} n (m : M A) : time_blind m -> time_blind (repeatM n m).
Proof.
  intros Hm. induction n as [| n IH]; simpl.
  - apply tb_ret.
  - apply tb_bind; [auto | intro]. apply tb_bind; [auto | intro]. apply tb_ret.
Qed.
End Time_blind.

Ltac tb_walk :=
  repeat
    lazymatch goal with
    | |- time_blind (ret _) => apply tb_ret
    | |- time_blind (throw _) => apply tb_throw
    | |- time_blind (required _) => apply tb_required
    | |- time_blind (gets _) => apply tb_gets; intros; reflexivity
    | |- time_blind (getA _) => apply tb_getA; intros; reflexivity
    | |- time_blind (bind _ _) => apply tb_bind; [| intro]
    | |- time_blind (try_catch _ _) => apply tb_try_catch; [| intro]
    | |- time_blind (modify _) => apply tb_modify; intros; reflexivity
    | |- time_blind (modifyA _) => apply tb_modifyA; intros; reflexivity
    | |- time_blind (alloc _) => apply tb_alloc
    | |- time_blind Math_random => apply tb_Math_random
    | |- time_blind (forEach _ _) => apply tb_forEach; intro
    | |- time_blind (forEachIndexed _ _ _) => apply tb_forEachIndexed; intros ? ?
    | |- time_blind (filterM _ _) => apply tb_filterM; intro
    | |- time_blind (every _ _) => apply tb_every; intro
    | |- time_blind (repeatM _ _) => apply tb_repeatM
    | |- time_blind (match ?x with _ => _ end) => destruct x
    | |- time_blind ?m => let h := head_of m in unfold h
    end.

(** Two results that differ at most in the [time] of the current animation. *)
Definition agree {A} (x y : outcome A * State) : Prop :=
  fst x = fst y /\ erase_time (snd x) = erase_time (snd y).

Lemma blind_on_agreeing {A} (m : M A) s1 s2 :
  time_blind m -> erase_time s1 = erase_time s2 -> agree (m s1) (m s2).
Proof.
  intros Hm Hs. unfold agree, erase_time in *.
  pose proof (Hm 0%float s1) as H1. pose proof (Hm 0%float s2) as H2.
  rewrite Hs in H1. rewrite H1 in H2.
  split; [exact (f_equal fst H2) | exact (f_equal snd H2)].
Qed.

Lemma agree_bind {A B} (m1 m2 : M A) (k : A -> M B) s1 s2 :
  agree (m1 s1) (m2 s2) -> (forall a, time_blind (k a)) ->
  agree (bind m1 k s1) (bind m2 k s2).
Proof.
  intros [Hf Hs] Hk. unfold bind.
  destruct (m1 s1) as [[a1 | e1] s1'], (m2 s2) as [[a2 | e2] s2'];
    simpl in *; try discriminate.
  - injection Hf as <-. apply blind_on_agreeing; auto.
  - injection Hf as <-. split; auto.
Qed.

Lemma agree_try_catch {A} (m1 m2 : M A) (h : string -> M A) s1 s2 :
  agree (m1 s1) (m2 s2) -> (forall e, time_blind (h e)) ->
  agree (try_catch m1 h s1) (try_catch m2 h s2).
Proof.
  intros [Hf Hs] Hh. unfold try_catch.
  destruct (m1 s1) as [[a1 | e1] s1'], (m2 s2) as [[a2 | e2] s2'];
    simpl in *; try discriminate.
  - injection Hf as <-. split; auto.
  - injection Hf as <-. apply blind_on_agreeing; auto.
Qed.

Section Delta.
Variables delta1 delta2 : float.

Lemma enter_agree a s : erase_time (enter delta1 a s) = erase_time (enter delta2 a s).
Proof. reflexivity. Qed.

Lemma updateElasticBreakup_agree s :
  agree (updateElasticBreakup delta1 s) (updateElasticBreakup delta2 s).
Proof.
  destruct (currentAnimation s) as [a |] eqn:Hcur.
  2: { rewrite !(proj1 (tick_without_animation s Hcur _)). split; reflexivity. }
  rewrite !(updateElasticBreakup_enter _ s a Hcur).
  apply blind_on_agreeing; [| apply enter_agree].
  unfold elasticPhase. tb_walk.
Qed.

Lemma updateNonelasticBreakup_agree s :
  agree (updateNonelasticBreakup delta1 s) (updateNonelasticBreakup delta2 s).
Proof.
  destruct (currentAnimation s) as [a |] eqn:Hcur.
  2: { rewrite !(proj1 (proj2 (tick_without_animation s Hcur _))). split; reflexivity. }
  rewrite !(updateNonelasticBreakup_enter _ s a Hcur).
  apply blind_on_agreeing; [| apply enter_agree].
  tb_walk.
Qed.

Lemma updateInelasticBreakup_agree s :
  agree (updateInelasticBreakup delta1 s) (updateInelasticBreakup delta2 s).
Proof.
  destruct (currentAnimation s) as [a |] eqn:Hcur.
  2: { rewrite !(proj1 (proj2 (proj2 (tick_without_animation s Hcur _)))).
       split; reflexivity. }
  rewrite !(updateInelasticBreakup_enter _ s a Hcur).
  apply blind_on_agreeing; [| apply enter_agree].
  unfold inelasticPhase. tb_walk.
Qed.

Lemma advance_agree s : agree (advance delta1 s) (advance delta2 s).
Proof.
  unfold advance.
  destruct (currentAnimation s) as [a |] eqn:Hcur.
  2: { rewrite !(bind_Throw _ _ _ _ _ (getA_None _ _ Hcur)). split; reflexivity. }
  rewrite !(bind_Ok _ _ _ _ _ (getA_Some _ _ _ Hcur)).
  repeat lazymatch goal with
         | |- context [if ?b then _ else _] => destruct b
         end;
    auto using updateElasticBreakup_agree, updateNonelasticBreakup_agree,
               updateInelasticBreakup_agree.
Qed.

(** C10.  Two calls of [update] from the same state (same speed, same
    draws) with different [delta] give the same answer and the same state
    but for the [time] field of the current animation: positions,
    velocities, effects, scene, phase and every other field coincide. *)
Theorem update_delta_only_time (s : State) :
  fst (update delta1 s) = fst (update delta2 s) /\
  erase_time (snd (update delta1 s)) = erase_time (snd (update delta2 s)).
Proof.
  change (agree (update delta1 s) (update delta2 s)).
  rewrite !update_eq.
  destruct (negb (bool_decide (is_Some (currentAnimation s))) || negb (isPlaying s)).
  { split; reflexivity. }
  apply agree_try_catch.
  - apply agree_bind; [apply advance_agree | intro; tb_walk].
  - intro. tb_walk.
Qed.
End Delta.

(** * Runs that answer

    [wp m Q s]: from [s] the computation [m] answers (it does not raise), with
    a result and a final state in [Q]. *)

Definition wp {A} (m : M A) (Q : A -> State -> Prop) (s : State) : Prop :=
  exists a s', m s = (Ok a, s') /\ Q a s'.

Section Wp.
Context {A : Type}.
Implicit Types (Q : A -> State -> Prop) (s : State).

Lemma wp_ret Q s (a : A) : Q a s -> wp (ret a) Q s.
Proof. intros H. exists a, s. auto. Qed.

Lemma wp_bind {B} (m : M B) (k : B -> M A) Q s :
  wp m (fun b s' => wp (k b) Q s') s -> wp (bind m k) Q s.
Proof.
  intros (b & s1 & E & a & s' & E' & H).
  exists a, s'. split; [| exact H]. rewrite (bind_Ok _ _ _ _ _ E). exact E'.
Qed.

Lemma wp_gets (f : State -> A) Q s : Q (f s) s -> wp (gets f) Q s.
Proof. intros H. exists (f s), s. auto. Qed.

Lemma wp_required (o : option A) Q s a : o = Some a -> Q a s -> wp (required o) Q s.
Proof. intros -> H. exists a, s. auto. Qed.

Lemma wp_getA (f : Animation.t -> A) Q s a :
  currentAnimation s = Some a -> Q (f a) s -> wp (getA f) Q s.
Proof. intros Hcur H. exists (f a), s. split; [apply getA_Some, Hcur | exact H]. Qed.

Lemma wp_consequence (m : M A) Q Q' s :
  wp m Q s -> (forall a s', Q a s' -> Q' a s') -> wp m Q' s.
Proof. intros (a & s' & E & H) HQ. exists a, s'. auto. Qed.
End Wp.

Lemma wp_modify (f : State -> State) Q s : Q tt (f s) -> wp (modify f) Q s.
Proof. intros H. exists tt, (f s). auto. Qed.

Lemma wp_modifyA (f : Animation.t -> Animation.t) Q s a :
  currentAnimation s = Some a ->
  Q tt (set_currentAnimation (Some (f a)) s) -> wp (modifyA f) Q s.
Proof. intros Hcur H. eexists _, _. split; [apply modifyA_Some, Hcur | exact H]. Qed.

Lemma wp_alloc o Q s :
  Q (length (objects s)) (set_objects (objects s ++ [o]) s) -> wp (alloc o) Q s.
Proof. intros H. eexists _, _. split; [reflexivity | exact H]. Qed.

Lemma wp_Math_random Q s :
  Q (Math_random_tape s (Math_random_pos s))
    (set_Math_random_pos (S (Math_random_pos s)) s) ->
  wp Math_random Q s.
Proof. intros H. eexists _, _. split; [reflexivity | exact H]. Qed.

Lemma wp_getObj r Q s o :
  objects s !! r = Some o -> Q o s -> wp (getObj r) Q s.
Proof.
  intros Hr H. exists o, s. split; [| exact H].
  unfold getObj, lookupObj, bind, gets. cbv beta. rewrite Hr. reflexivity.
Qed.

Lemma wp_modifyObj r f Q s o :
  objects s !! r = Some o ->
  Q tt (set_objects (<[r := f o]> (objects s)) s) -> wp (modifyObj r f) Q s.
Proof.
  intros Hr H. unfold modifyObj. apply wp_bind. eapply wp_getObj; [exact Hr |].
  apply wp_modify. exact H.
Qed.

Lemma wp_getUserData r Q s o ud :
  objects s !! r = Some o -> Object3D.userData o = Some ud ->
  Q ud s -> wp (getUserData r) Q s.
Proof.
  intros Hr Hud H. unfold getUserData. apply wp_bind. eapply wp_getObj; [exact Hr |].
  eapply wp_required; eauto.
Qed.

(** The store as a base and what was allocated since. *)
Lemma lookup_allocated (base extra : list Object3D.t) k :
  (base ++ extra) !! (length base + k) = extra !! k.
Proof. rewrite lookup_app_r by lia. f_equal. lia. Qed.

Lemma lookup_base (base extra : list Object3D.t) r o :
  base !! r = Some o -> (base ++ extra) !! r = Some o.
Proof. intros H. apply lookup_app_l_Some, H. Qed.

Lemma insert_allocated (base extra : list Object3D.t) k o :
  <[length base + k := o]> (base ++ extra) = base ++ <[k := o]> extra.
Proof. apply insert_app_r. Qed.

Lemma alloc_allocated (base extra : list Object3D.t) o :
  (base ++ extra) ++ [o] = base ++ (extra ++ [o]) /\
  length (base ++ extra) = length base + length extra.
Proof. rewrite <- app_assoc, length_app. auto. Qed.

Ltac state_norm :=
  cbn [objects scene trailsEnabled trailLength Math_random_tape Math_random_pos
       Math_sin Math_cos Math_acos console isPlaying speed currentAnimation
       set_objects set_scene set_trailsEnabled set_Math_random_pos set_console
       set_isPlaying set_speed set_currentAnimation].

Definition allocates (n : nat) (s : State) (refs : list ref) (s' : State) : Prop :=
  refs = seq (length (objects s)) n /\
  (exists new, length new = n /\ objects s' = objects s ++ new) /\
  scene s' = scene s /\
  currentAnimation s' = currentAnimation s.

Lemma createExplosionParticle_allocates position s :
  wp (createExplosionParticle position) (fun r s' => allocates 1 s [r] s') s.
Proof.
  destruct s as [objs sc ten tlen tape rpos msin mcos macos con playing spd cur].
  unfold createExplosionParticle.
  do 3 (apply wp_bind, wp_gets; state_norm).
  do 4 (apply wp_bind, wp_Math_random; state_norm).
  apply wp_alloc; state_norm.
  split; [reflexivity|]. split. { eexists [_]. split; reflexivity. }
  split; reflexivity.
Qed.

Lemma repeatM_allocates (m : M ref) n :
  (forall s, wp m (fun r s' => allocates 1 s [r] s') s) ->
  forall s, wp (repeatM n m) (fun refs s' => allocates n s refs s') s.
Proof.
  intros Hm. induction n as [| n IH]; intros s; simpl repeatM.
  - apply wp_ret. repeat split. exists []. rewrite app_nil_r. auto.
  - apply wp_bind. eapply wp_consequence; [apply Hm |].
    intros r s1 (Hr & (new1 & Hlen1 & Hobj1) & Hsc1 & Hcur1).
    apply wp_bind. eapply wp_consequence; [apply IH |].
    intros refs s2 (Hrefs & (new2 & Hlen2 & Hobj2) & Hsc2 & Hcur2).
    apply wp_ret. injection Hr as ->.
    split; [| split; [| split]].
    + rewrite Hrefs, Hobj1, length_app, Hlen1. simpl. f_equal. f_equal. lia.
    + exists (new1 ++ new2). rewrite length_app, Hlen1, Hlen2, Hobj2, Hobj1, app_assoc.
      auto.
    + congruence.
    + congruence.
Qed.

Lemma createExplosion_allocates position s :
  wp (createExplosion position) (fun refs s' => allocates 50 s refs s') s.
Proof.
  unfold createExplosion. apply (repeatM_allocates _ 50).
  apply createExplosionParticle_allocates.
Qed.

Lemma forEach_scene_add l s :
  wp (forEach scene_add l)
     (fun _ s' =>
        objects s' = objects s /\ currentAnimation s' = currentAnimation s /\
        forall x, x ∈ scene s' <-> x ∈ scene s \/ x ∈ l) s.
Proof.
  revert s. induction l as [| r l IH]; intros s; simpl forEach.
  - apply wp_ret. split; [| split]; auto. intros x. split; [auto |].
    intros [? | H]; [auto | inversion H].
  - apply wp_bind, wp_modify.
    eapply wp_consequence; [apply IH |].
    destruct s as [objs sc ten tlen tape rpos msin mcos macos con playing spd cur].
    state_norm.
    intros _ s' (Hobj & Hcur & Hsc). split; [| split]; auto.
    intros x. rewrite Hsc, elem_of_app, list_elem_of_filter, list_elem_of_singleton,
      elem_of_cons.
    destruct (decide (x = r)); tauto.
Qed.

Lemma wp_alloc_at base extra o Q s :
  objects s = base ++ extra ->
  Q (length base + length extra) (set_objects (base ++ (extra ++ [o])) s) ->
  wp (alloc o) Q s.
Proof.
  intros Hs H. apply wp_alloc. rewrite Hs, <- app_assoc, length_app. exact H.
Qed.

Lemma wp_getObj_at base extra k Q s o :
  objects s = base ++ extra -> extra !! k = Some o ->
  Q o s -> wp (getObj (length base + k)) Q s.
Proof.
  intros Hs Hk H. eapply wp_getObj; [| exact H].
  rewrite Hs, lookup_allocated. exact Hk.
Qed.

Lemma wp_getObj_base base extra r Q s o :
  objects s = base ++ extra -> base !! r = Some o ->
  Q o s -> wp (getObj r) Q s.
Proof.
  intros Hs Hr H. eapply wp_getObj; [| exact H].
  rewrite Hs. apply lookup_base, Hr.
Qed.

Lemma wp_modifyObj_at base extra k f Q s o :
  objects s = base ++ extra -> extra !! k = Some o ->
  Q tt (set_objects (base ++ <[k := f o]> extra) s) ->
  wp (modifyObj (length base + k) f) Q s.
Proof.
  intros Hs Hk H. eapply wp_modifyObj.
  - rewrite Hs, lookup_allocated. exact Hk.
  - rewrite Hs, insert_allocated. exact H.
Qed.

Ltac store_eq := first [reflexivity | exact (eq_sym (app_nil_r _))].

Ltac wp_step :=
  lazymatch goal with
  | |- wp (ret _) _ _ => apply wp_ret
  | |- wp (bind _ _) _ _ => apply wp_bind
  | |- wp (gets _) _ _ => apply wp_gets
  | |- wp (modify _) _ _ => apply wp_modify
  | |- wp (getA _) _ _ => eapply wp_getA; [reflexivity |]
  | |- wp (modifyA _) _ _ => eapply wp_modifyA; [reflexivity |]
  | |- wp (alloc _) _ _ => eapply wp_alloc_at; [store_eq |]
  | |- wp (getObj _) _ _ =>
      first [ eapply wp_getObj_at; [store_eq | reflexivity |]
            | eapply wp_getObj_base; [store_eq | eassumption |] ]
  | |- wp (modifyObj _ _) _ _ => eapply wp_modifyObj_at; [store_eq | reflexivity |]
  | |- wp (required _) _ _ => eapply wp_required; [first [reflexivity | eassumption] |]
  | |- wp (createExplosion _) _ _ => fail
  | |- wp (forEach scene_add _) _ _ => fail
  | |- wp ?m _ _ => let h := head_of m in unfold h
  end;
  state_norm; cbn [length app Nat.add fst snd insert list_insert].


(** The dispatch table of [initiateElasticBreakup]: the species of the two
    fragments, by the species of the projectile. *)
Definition elastic_species (type : option string) : string * string :=
  let named name := match type with Some t => String.eqb t name | None => false end in
  if named "deuteron" then ("proton", "neutron")
  else if named "li6" then ("alpha", "deuteron")
  else if named "li7" then ("alpha", "proton")
  else ("proton", "neutron").

Definition type_of (o : Object3D.t) : option string :=
  ud ← Object3D.userData o; UserData.type ud.

(** What [initiateElasticBreakup] leaves behind, seen from the state [s] it
    started in, where the projectile [pr] was the object [o]: two new
    objects, appended to the fragments and put in the scene in place of the
    projectile, of the species the table gives, 0.3 above and below where
    the projectile was. *)
Definition broken_up (s : State) (a : Animation.t) (pr : ref) (o : Object3D.t)
    (s' : State) : Prop :=
  let f1 := length (objects s) in
  let f2 := S (length (objects s)) in
  exists a' o1 o2,
    currentAnimation s' = Some a' /\
    Animation.fragments a' = Animation.fragments a ++ [f1; f2] /\
    (pr ∉ scene s') /\ f1 ∈ scene s' /\ f2 ∈ scene s' /\
    objects s' !! f1 = Some o1 /\ objects s' !! f2 = Some o2 /\
    type_of o1 = Some (fst (elastic_species (type_of o))) /\
    type_of o2 = Some (snd (elastic_species (type_of o))) /\
    Object3D.position o1 = Vector3.add (Object3D.position o) (Vector3.mk 0 0.3 0) /\
    Object3D.position o2 = Vector3.add (Object3D.position o) (Vector3.mk 0 (-0.3) 0).

Lemma initiateElasticBreakup_spec s a pr o ud :
  currentAnimation s = Some a ->
  Animation.projectile a = Some pr ->
  objects s !! pr = Some o ->
  Object3D.userData o = Some ud ->
  wp initiateElasticBreakup
     (fun _ s' => broken_up s a pr o s' /\ phase_of s' = phase_of s) s.
Proof.
  destruct s as [objs sc ten tlen tape rpos msin mcos macos con playing spd cur].
  cbn [currentAnimation objects]. intros -> Hpr Hobj Hud.
  pose proof (lookup_lt_Some _ _ _ Hobj) as Hlt.
  assert (Hty : type_of o = UserData.type ud) by (unfold type_of; rewrite Hud; reflexivity).
  unfold initiateElasticBreakup.
  wp_step. wp_step. rewrite Hpr. do 14 wp_step.
  assert (Hsp : elastic_species (type_of o) =
                if has_type "deuteron" ud then ("proton", "neutron")
                else if has_type "li6" ud then ("alpha", "deuteron")
                else if has_type "li7" ud then ("alpha", "proton")
                else ("proton", "neutron")) by (rewrite Hty; reflexivity).
  destruct (has_type "deuteron" ud);
    [| destruct (has_type "li6" ud); [| destruct (has_type "li7" ud)]].
  all: repeat wp_step.
  all: eapply wp_consequence; [apply createExplosion_allocates |]; state_norm.
  all: intros refs s1 (Hrefs & (new & Hlen & Hobjs) & Hsc & Hcur).
  all: apply wp_bind; eapply wp_consequence; [apply forEach_scene_add |].
  all: intros _ s2 (Hobjs2 & Hcur2 & Hsc2).
  all: unfold push_effects; eapply wp_modifyA; [rewrite Hcur2, Hcur; reflexivity |].
  all: state_norm.
  all: revert Hrefs Hobjs Hsc; state_norm; intros Hrefs Hobjs Hsc.
  all: assert (Hfresh : forall r, r ∈ refs -> length objs + 4 <= r)
         by (intros r; rewrite Hrefs, elem_of_seq, !length_app; cbn [length]; lia).
  all: split; [| unfold phase_of; state_norm; reflexivity].
  all: unfold broken_up; state_norm; rewrite Hsp.
  all: rewrite ?Nat.add_0_r, ?Nat.add_1_r in *.
  all: eexists _, _, _.
  all: split; [reflexivity |].
  all: split; [reflexivity |].
  all: split; [intros Hin; apply Hsc2 in Hin as [Hin | Hin];
               [ rewrite Hsc in Hin;
                 repeat (rewrite elem_of_app in Hin || rewrite list_elem_of_filter in Hin
                         || rewrite list_elem_of_singleton in Hin);
                 intuition lia
               | apply Hfresh in Hin; lia ] |].
  all: split; [apply Hsc2; left; rewrite Hsc;
               repeat (rewrite elem_of_app || rewrite list_elem_of_filter
                       || rewrite list_elem_of_singleton);
               intuition lia |].
  all: split; [apply Hsc2; left; rewrite Hsc;
               repeat (rewrite elem_of_app || rewrite list_elem_of_filter
                       || rewrite list_elem_of_singleton);
               intuition lia |].
  all: split; [rewrite Hobjs2, Hobjs, lookup_app_l, <- (Nat.add_0_r (length objs)),
                 lookup_allocated;
               [reflexivity | rewrite !length_app; cbn [length]; lia] |].
  all: split; [rewrite Hobjs2, Hobjs, lookup_app_l, <- (Nat.add_1_r (length objs)),
                 lookup_allocated;
               [reflexivity | rewrite !length_app; cbn [length]; lia] |].
  all: repeat split; reflexivity.
Qed.

(** * Entering the breakup phase (elastic) *)

(** C5.  When the approach case of an elastic tick finds the projectile
    closer than 3.5 to the target (after [approachStep], in state [s1]),
    the tick ends in phase [breakup] with the projectile out of the scene
    and exactly two new fragments in its place: appended to the fragments
    and added to the scene, of the species the dispatch table gives for the
    projectile's species (deuteron: proton and neutron), at the projectile's
    position plus (0, 0.3, 0) and (0, -0.3, 0).  Nothing here reads the
    impact parameter. *)
Theorem elastic_breakup_replaces_projectile
    (s0 s1 : State) (pr : ref) (target : option ref) (dist : float)
    (a : Animation.t) (o : Object3D.t) (ud : UserData.t) :
  approachStep (Some pr) target 0.003 s0 = (Ok dist, s1) ->
  (dist <? 3.5)%float = true ->
  currentAnimation s1 = Some a ->
  Animation.projectile a = Some pr ->
  objects s1 !! pr = Some o ->
  Object3D.userData o = Some ud ->
  exists s',
    elasticPhase (Some pr) target "approach" s0 = (Ok false, s') /\
    phase_of s' = Some "breakup" /\
    broken_up s1 a pr o s'.
Proof.
  intros Happroach Hnear Hcur Hpr Hobj Hud.
  unfold elasticPhase. cbn [String.eqb Ascii.eqb Bool.eqb].
  rewrite (bind_Ok _ _ _ _ _ Happroach). cbv beta. rewrite Hnear.
  set (s2 := set_currentAnimation (Some (Animation.set_phase "breakup" a))
               (set_console
                  (console s1 ++ [LogNumber "Elastic breakup triggered at distance:" dist])
                  s1)).
  destruct (initiateElasticBreakup_spec s2 (Animation.set_phase "breakup" a) pr o ud)
    as ([] & s' & Hrun & Hbroken & Hphase); try assumption; try reflexivity.
  exists s'. split; [| split].
  - unfold bind at 1.
    replace ((console_log (LogNumber "Elastic breakup triggered at distance:" dist) ;;;
              modifyA (Animation.set_phase "breakup") ;;; initiateElasticBreakup) s1)
      with (@Ok unit tt, s').
    + reflexivity.
    + symmetry. unfold bind at 1, console_log, modify. cbv beta iota.
      rewrite (bind_Ok _ _ _ _ _
                 (modifyA_Some _ _ _ (Hcur : currentAnimation (set_console _ s1) = Some a))).
      exact Hrun.
  - rewrite Hphase. reflexivity.
  - exact Hbroken.
Qed.

(** The elastic comparison scene of the page after 47 frames is such a
    state: the deuteron (handle 2) is at distance 3.479... of the target
    (handle 0), and the 48th frame replaces it by the handles 3 and 4. *)
Lemma elastic_breakup_replaces_projectile_witness :
  exists s1 a o s',
    approachStep (Some 2) (Some 0) 0.003 (snd (frames 47 (snd (elasticScene sample))))
      = (Ok 3.4793397980499559%float, s1) /\
    elasticPhase (Some 2) (Some 0) "approach" (snd (frames 47 (snd (elasticScene sample))))
      = (Ok false, s') /\
    phase_of s' = Some "breakup" /\
    broken_up s1 a 2 o s'.
Proof.
  set (s0 := snd (frames 47 (snd (elasticScene sample)))).
  set (s1 := snd (approachStep (Some 2) (Some 0) 0.003 s0)).
  assert (Happroach :
            approachStep (Some 2) (Some 0) 0.003 s0 = (Ok 3.4793397980499559%float, s1))
    by (vm_compute; reflexivity).
  destruct (currentAnimation s1) as [a |] eqn:Hcur; [| vm_compute in Hcur; discriminate].
  destruct (objects s1 !! 2) as [o |] eqn:Hobj; [| vm_compute in Hobj; discriminate].
  destruct (Object3D.userData o) as [ud |] eqn:Hud.
  - destruct (elastic_breakup_replaces_projectile
                s0 s1 2 (Some 0) 3.4793397980499559%float a o ud Happroach)
      as (s' & Hrun & Hphase & Hbroken).
    + vm_compute; reflexivity.
    + exact Hcur.
    + vm_compute in Hcur. injection Hcur as <-. reflexivity.
    + exact Hobj.
    + exact Hud.
    + exists s1, a, o, s'. auto.
  - vm_compute in Hobj. injection Hobj as <-. discriminate.
Defined.

(** * Stopping and resetting *)

(** The scene after [scene.remove] of each member of [l] in turn. *)
Definition without (l : list ref) (sc : list ref) : list ref :=
  foldl (fun sc r => filter (fun r' => r' ≠ r) sc) sc l.

Lemma forEach_scene_remove (l : list ref) (s : State) :
  forEach scene_remove l s = (Ok tt, set_scene (without l (scene s)) s).
Proof.
  revert s. induction l as [| r l IH]; intros s.
  - destruct s; reflexivity.
  - cbn [forEach]. unfold bind at 1, scene_remove at 1, modify. cbv beta iota.
    rewrite IH. destruct s; reflexivity.
Qed.

Lemma without_app (l1 l2 : list ref) (sc : list ref) :
  without l2 (without l1 sc) = without (l1 ++ l2) sc.
Proof. unfold without. rewrite foldl_app. reflexivity. Qed.

Lemma elem_of_without (l : list ref) (sc : list ref) (r : ref) :
  r ∈ without l sc <-> r ∈ sc /\ r ∉ l.
Proof.
  revert sc. induction l as [| x l IH]; intros sc; cbn [without foldl].
  - rewrite elem_of_nil. tauto.
  - fold (without l (filter (fun r' => r' ≠ x) sc)).
    rewrite IH, list_elem_of_filter, not_elem_of_cons. tauto.
Qed.

(** Everything [reset] takes out of the scene. *)
Definition owned (a : Animation.t) : list ref :=
  Animation.fragments a ++ Animation.trails a ++ Animation.effects a ++
  default [] (Animation.gammaRays a) ++ default [] (Animation.energyWaves a) ++
  option_list (Animation.compoundNucleus a) ++
  option_list (Animation.excitedTarget a) ++
  option_list (Animation.projectile a).

(** The store after [target.visible = true]. *)
Definition shown (target : option ref) (objs : list Object3D.t) : list Object3D.t :=
  match target with
  | Some t =>
      match objs !! t with
      | Some o => <[t := Object3D.set_visible true o]> objs
      | None => objs
      end
  | None => objs
  end.

Lemma remove_optional (o : option ref) (s : State) :
  match o with Some r => scene_remove r | None => ret tt end s
  = (Ok tt, set_scene (without (option_list o) (scene s)) s).
Proof. destruct o, s; reflexivity. Qed.

Lemma remove_optional_list (o : option (list ref)) (s : State) :
  match o with Some l => forEach scene_remove l | None => ret tt end s
  = (Ok tt, set_scene (without (default [] o) (scene s)) s).
Proof.
  destruct o as [l |]; [apply forEach_scene_remove | destruct s; reflexivity].
Qed.

Lemma show_target (target : option ref) (s : State) :
  match target with
  | Some t =>
      (o <- lookupObj t ;;
       if bool_decide (is_Some o) then modifyObj t (Object3D.set_visible true)
       else ret tt)
  | None => ret tt
  end s
  = (Ok tt, set_objects (shown target (objects s)) s).
Proof.
  destruct target as [t |]; [| destruct s; reflexivity].
  unfold shown, bind at 1, lookupObj at 1, gets. cbv beta iota.
  destruct (objects s !! t) as [o |] eqn:Ho.
  - cbn [bool_decide decide_rel is_Some_dec]. unfold modifyObj, getObj, lookupObj, gets, bind, required, modify, ret.
    rewrite Ho. reflexivity.
  - destruct s; reflexivity.
Qed.

Lemma reset_eq (s : State) (a : Animation.t) :
  currentAnimation s = Some a ->
  reset s =
  (Ok tt,
   set_isPlaying false
     (set_currentAnimation None
        (set_objects (shown (Animation.target a) (objects s))
           (set_scene (without (owned a) (scene s)) s)))).
Proof.
  intros Hcur. unfold reset, owned.
  unfold bind at 1, gets. cbv beta iota. rewrite Hcur.
  rewrite <- !without_app.
  erewrite bind_Ok; [destruct s; reflexivity |].
  repeat (rewrite (bind_Ok _ _ _ _ _ (forEach_scene_remove _ _))
          || rewrite (bind_Ok _ _ _ _ _ (remove_optional_list _ _))
          || rewrite (bind_Ok _ _ _ _ _ (remove_optional _ _))
          || rewrite (bind_Ok _ _ _ _ _ (show_target _ _))).
  rewrite remove_optional. destruct s; reflexivity.
Qed.

(** [stop] only clears the playing flag. *)
Lemma stop_eq (s : State) : stop s = (Ok tt, set_isPlaying false s).
Proof. reflexivity. Qed.

(** C2, as stated, fails for [stop]: in the page's elastic scene after 48
    frames the fragment with handle 3 belongs to the animation's fragments,
    and it is still on the scene after [stop]. *)
Lemma stop_leaves_fragments_on_scene :
  exists a s',
    currentAnimation (snd (frames 48 (snd (elasticScene sample)))) = Some a /\
    stop (snd (frames 48 (snd (elasticScene sample)))) = (Ok tt, s') /\
    3 ∈ Animation.fragments a /\ 3 ∈ scene s'.
Proof.
  destruct (currentAnimation (snd (frames 48 (snd (elasticScene sample))))) as [a |] eqn:Hcur;
    [| vm_compute in Hcur; discriminate].
  exists a, (set_isPlaying false (snd (frames 48 (snd (elasticScene sample))))).
  split; [reflexivity |]. split; [reflexivity |].
  vm_compute in Hcur. injection Hcur as <-.
  split.
  - apply (bool_decide_unpack _). vm_compute. exact I.
  - apply (bool_decide_unpack _). vm_compute. exact I.
Qed.

(** C2, amended.  With a current animation, [stop] clears the playing flag
    and leaves the scene, the store and the current animation as they are;
    [reset] clears the playing flag and the current animation, leaves on the
    scene exactly the members that are not among the animation's fragments,
    trails, effects, gamma rays, energy waves, compound nucleus, excited
    target and projectile, and makes the target visible. *)
Theorem stop_pauses_reset_clears (s : State) (a : Animation.t) :
  currentAnimation s = Some a ->
  (exists s', stop s = (Ok tt, s') /\
     isPlaying s' = false /\
     scene s' = scene s /\ objects s' = objects s /\
     currentAnimation s' = Some a) /\
  (exists s', reset s = (Ok tt, s') /\
     isPlaying s' = false /\
     currentAnimation s' = None /\
     (forall r, r ∈ scene s' <-> r ∈ scene s /\ r ∉ owned a) /\
     objects s' = shown (Animation.target a) (objects s) /\
     (forall t o, Animation.target a = Some t -> objects s !! t = Some o ->
        objects s' !! t = Some (Object3D.set_visible true o))).
Proof.
  intros Hcur. split.
  - exists (set_isPlaying false s). destruct s; auto.
  - eexists. split; [apply (reset_eq s a Hcur) |].
    destruct s as [objs sc ten tlen tape rpos msin mcos macos con playing spd cur].
    state_norm. split; [reflexivity |]. split; [reflexivity |].
    split; [intros r; apply elem_of_without |]. split; [reflexivity |].
    intros t o Ht Ho. unfold shown. rewrite Ht, Ho.
    apply list_lookup_insert_eq. eapply lookup_lt_Some, Ho.
Qed.

Lemma stop_pauses_reset_clears_witness :
  exists a,
    currentAnimation (snd (frames 48 (snd (elasticScene sample)))) = Some a /\
    (exists s', stop (snd (frames 48 (snd (elasticScene sample)))) = (Ok tt, s') /\
       isPlaying s' = false) /\
    (exists s', reset (snd (frames 48 (snd (elasticScene sample)))) = (Ok tt, s') /\
       currentAnimation s' = None /\ 3 ∉ scene s').
Proof.
  destruct (currentAnimation (snd (frames 48 (snd (elasticScene sample))))) as [a |] eqn:Hcur;
    [| vm_compute in Hcur; discriminate].
  exists a. split; [reflexivity |].
  destruct (stop_pauses_reset_clears _ a Hcur)
    as [(s1 & Hstop & Hpaused & _) (s2 & Hreset & _ & Hnone & Hscene & _)].
  split.
  - exists s1. auto.
  - exists s2. split; [exact Hreset |]. split; [exact Hnone |].
    rewrite Hscene. intros [_ Hout]. apply Hout.
    vm_compute in Hcur. injection Hcur as <-.
    apply (bool_decide_unpack _). vm_compute. exact I.
Defined.

(** * Facts about subtraction of doubles *)

Section Float_facts.
Local Open Scope Z_scope.












End Float_facts.

Section Dead_stays_dead.
Local Open Scope float_scope.

End Dead_stays_dead.

(** * Runs on a store that is known *)

Lemma getObj_eq (r : ref) (o : Object3D.t) (s : State) :
  objects s !! r = Some o -> getObj r s = (Ok o, s).
Proof. intros H. unfold getObj, lookupObj, bind, gets. cbv beta. rewrite H. reflexivity. Qed.

Lemma modifyObj_eq (r : ref) (f : Object3D.t -> Object3D.t) (o : Object3D.t) (s : State) :
  objects s !! r = Some o ->
  modifyObj r f s = (Ok tt, set_objects (<[r := f o]> (objects s)) s).
Proof.
  intros H. unfold modifyObj. rewrite (bind_Ok _ _ _ _ _ (getObj_eq r o s H)). reflexivity.
Qed.

Lemma getUserData_eq (r : ref) (o : Object3D.t) (s : State) :
  objects s !! r = Some o ->
  getUserData r s
  = match Object3D.userData o with
    | Some ud => (Ok ud, s)
    | None => (Throw TypeError, s)
    end.
Proof.
  intros H. unfold getUserData. rewrite (bind_Ok _ _ _ _ _ (getObj_eq r o s H)).
  destruct (Object3D.userData o); reflexivity.
Qed.

Lemma lookup_modified (r : ref) (o o' : Object3D.t) (s : State) :
  objects s !! r = Some o ->
  objects (set_objects (<[r := o']> (objects s)) s) !! r = Some o'.
Proof.
  intros H. destruct s as [objs sc ten tlen tape rpos msin mcos macos con playing spd cur]. cbn [objects set_objects] in *.
  apply list_lookup_insert_eq. eapply lookup_lt_Some, H.
Qed.

Lemma filterM_sublist {A} (p : A -> M bool) (l : list A) s kept s' :
  filterM p l s = (Ok kept, s') -> kept `sublist_of` l.
Proof.
  revert s kept s'. induction l as [| x l IH]; intros s kept s'; cbn [filterM].
  - intros [= <- _]. constructor.
  - intros H. apply bind_Ok_inv in H as (keep & s1 & _ & H).
    apply bind_Ok_inv in H as (rest & s2 & Hrest & H).
    injection H as <- _. specialize (IH _ _ _ Hrest).
    destruct keep; [apply sublist_skip | apply sublist_cons]; exact IH.
Qed.

Lemma sublist_rev {A} (l1 l2 : list A) :
  l1 `sublist_of` l2 -> rev l1 `sublist_of` rev l2.
Proof.
  induction 1 as [| x l1 l2 _ IH | x l1 l2 _ IH]; cbn [rev].
  - constructor.
  - apply sublist_app; [exact IH | reflexivity].
  - apply sublist_inserts_r, IH.
Qed.

(** * Updating an effect that is already dead *)

(** [modifyObj] on a handle whose object is known: what is known about
    the handle afterwards is the new object. *)
Lemma wp_modifyObj_known r f Q s o :
  objects s !! r = Some o ->
  (forall s', objects s' !! r = Some (f o) -> Q tt s') ->
  wp (modifyObj r f) Q s.
Proof.
  intros Hr H. eapply wp_modifyObj; [exact Hr |]. apply H.
  destruct s. cbn. apply list_lookup_insert_eq. eapply lookup_lt_Some, Hr.
Qed.

Ltac known_step :=
  lazymatch goal with
  | |- wp (bind _ _) _ _ => apply wp_bind
  | |- wp (ret _) _ _ => apply wp_ret
  | |- wp (gets _) _ _ => apply wp_gets
  | |- wp (required _) _ _ => eapply wp_required; [eassumption || reflexivity |]
  | H : objects ?s !! ?r = Some _ |- wp (modifyObj ?r _) _ ?s =>
      eapply (wp_modifyObj_known r _ _ s _ H); clear H;
      let s' := fresh "s" in let H' := fresh "Hr" in intros s' H' 
  | H : objects ?s !! ?r = Some _ |- wp (getObj ?r) _ ?s =>
      eapply (wp_getObj r _ s _ H)
  | H : objects ?s !! ?r = Some _ |- wp (getUserData ?r) _ ?s =>
      eapply (wp_getUserData r _ s _ _ H); [eassumption || reflexivity |]
  | |- wp (position_add _ _) _ _ => unfold position_add
  | |- wp (modifyUserData _ _) _ _ => unfold modifyUserData
  | |- wp (modifyChild _ _ _) _ _ => unfold modifyChild
  | |- wp (match ?x with _ => _ end) _ _ => destruct x
  end.








Section Dead_effects.
Local Open Scope float_scope.
Variables (s : State) (r : ref) (o : Object3D.t) (ud : UserData.t).
Hypothesis Hr : objects s !! r = Some o.
Hypothesis Hud : Object3D.userData o = Some ud.






End Dead_effects.

(** ** Explosion particles, a whole array of them *)

Section Sparks_aging.
Local Open Scope float_scope.







End Sparks_aging.

Section Dead_effect_claim.
Local Open Scope float_scope.



End Dead_effect_claim.

(** * Dead explosion particles of a nonelastic animation *)

(** [r.userData.life] in the state [s]. *)
Definition life_of (s : State) (r : ref) : option float :=
  match objects s !! r with
  | Some o =>
      match Object3D.userData o with
      | Some ud => UserData.life ud
      | None => None
      end
  | None => None
  end.

Section Dead_particles.
Local Open Scope float_scope.

(** C7 fails on the nonelastic path.  In the page's nonelastic scene the
    spark with handle 6 is alive after 80 frames.  The 81st frame, taken in
    phase [compound], brings its life to zero or below: [updateExplosion]
    splices it out of the filtered copy it was handed, and the spark is
    still among the animation's effects and on the scene after the frame. *)
Theorem dead_spark_stays_after_its_last_tick :
  exists s' a l l',
    update 0.016 (snd (frames 80 (snd (nonelasticScene sample)))) = (Ok false, s') /\
    phase_of s' = Some "compound" /\
    life_of (snd (frames 80 (snd (nonelasticScene sample)))) 6%nat = Some l /\
    (0 <? l) = true /\
    life_of s' 6%nat = Some l' /\
    (l' <=? 0) = true /\
    currentAnimation s' = Some a /\
    6%nat ∈ Animation.effects a /\
    6%nat ∈ scene s'.
Proof.
  eexists _, _, _, _.
  split; [vm_compute; reflexivity |].
  split; [vm_compute; reflexivity |].
  split; [vm_compute; reflexivity |].
  split; [vm_compute; reflexivity |].
  split; [vm_compute; reflexivity |].
  split; [vm_compute; reflexivity |].
  split; [vm_compute; reflexivity |].
  split; apply (bool_decide_unpack _); vm_compute; exact I.
Qed.
End Dead_particles.

(** * The gamma cascade at a slow speed *)

(** The counts [emitGammaRays] has logged so far, oldest first. *)
Definition cascades (s : State) : list float :=
  omap (fun e =>
          match e with
          | LogNumber msg n =>
              if String.eqb msg "Emitting gamma rays from de-excitation:" then Some n
              else None
          | _ => None
          end) (console s).

(** The page's nonelastic scene with the speed slider moved to 3. *)
Definition slowNonelasticScene : State :=
  snd ((nonelasticScene ;;; speedSlider 3) sample).

Section Cascade.
Local Open Scope float_scope.

(** C3 fails at a slow speed.  With the slider at 3 the speed is 0.6; the
    animation enters [compound] on frame 93 and emits its cascade on frame
    173.  The four rays are dead forty frames later, the resonance time is
    still below its maximum, the guard [gammaRays.length === 0] holds again,
    and frame 213 emits a second cascade, still in phase [compound]. *)
Theorem second_cascade_at_slow_speed :
  let s172 := snd (frames 172 slowNonelasticScene) in
  let s173 := snd (update 0.016 s172) in
  let s212 := snd (frames 39 s173) in
  let s213 := snd (update 0.016 s212) in
  speed slowNonelasticScene = 0.6 /\
  cascades s172 = [] /\
  cascades s173 = [4] /\
  cascades s212 = [4] /\
  phase_of s212 = Some "compound" /\
  cascades s213 = [4; 4] /\
  phase_of s213 = Some "compound".
Proof. vm_compute. repeat split; reflexivity. Qed.
End Cascade.

(** * An elastic animation that never completes *)


Section Stuck.
Local Open Scope float_scope.






End Stuck.

(** A target a little below the axis is missed as well: the closest the
    deuteron comes to a target at (3, -0.6, 0) is beyond 3.5, and 3000 frames
    later the animation is still in [approach]. *)
Remark elastic_misses_a_low_target :
  phase_of (snd (frames 3000
                   (snd (elasticStage (Vector3.mk 3 (-0.6) 0) createDeuteron 3 sample))))
  = Some "approach".
Proof. vm_compute. reflexivity. Qed.

Section Bounded.
Local Open Scope float_scope.
Variables (tape : nat -> float) (sin cos acos : float -> float).
Variable delta : float.


End Bounded.

(** * The legacy phase [absorption] against [decay]

    The [decay] case of the nonelastic [switch] is the [absorption] case
    after two more statements, the filters over the energy waves and the
    gamma rays.  To compare a tick in either phase, the state is looked at
    [outside] the handles of the waves and rays: their objects are blanked,
    they are dropped from the scene, the two collections are forgotten and
    the two phase names are identified. *)

Lemma bind_assoc {A B C} (m : M A) (k : A -> M B) (h : B -> M C) s :
  bind (bind m k) h s = bind m (fun a => bind (k a) h) s.
Proof. unfold bind. destruct (m s) as [[a | e] s1]; reflexivity. Qed.

Definition relabel (phase : string) : string :=
  if String.eqb phase "decay" then "absorption" else phase.

Definition hide_animation (a : Animation.t) : Animation.t :=
  Animation.set_phase (relabel (Animation.phase a))
    (Animation.set_gammaRays None (Animation.set_energyWaves None a)).

(** The current animation put in the phase [phase]. *)
Definition in_phase (phase : string) (s : State) : State :=
  set_currentAnimation (Animation.set_phase phase <$> currentAnimation s) s.

(** The handles of the gamma rays and energy waves of [a]. *)
Definition rays_and_waves (a : Animation.t) : list ref :=
  default [] (Animation.gammaRays a) ++ default [] (Animation.energyWaves a).

(** [o.userData.particle] *)
Definition particle_of (o : Object3D.t) : option ref :=
  match Object3D.userData o with
  | Some ud => UserData.particle ud
  | None => None
  end.

(** Unfold the state completely. *)
Ltac state_flat :=
  cbv [set_objects set_scene set_trailsEnabled set_Math_random_pos set_console
       set_isPlaying set_speed set_currentAnimation
       objects scene trailsEnabled trailLength Math_random_tape Math_random_pos
       Math_sin Math_cos Math_acos console isPlaying speed currentAnimation fst snd].

Section Outside.
Variable G : list ref.

Definition hide_objects (objs : list Object3D.t) : list Object3D.t :=
  imap (fun r o => if bool_decide (r ∈ G) then Object3D.Group else o) objs.

Definition outside (s : State) : State :=
  set_currentAnimation (hide_animation <$> currentAnimation s)
    (set_scene (filter (fun r => r ∉ G) (scene s))
       (set_objects (hide_objects (objects s)) s)).

Lemma lookup_hide_out (objs : list Object3D.t) (r : ref) :
  r ∉ G -> hide_objects objs !! r = objs !! r.
Proof.
  intros Hr. unfold hide_objects. rewrite list_lookup_imap.
  rewrite bool_decide_eq_false_2 by exact Hr. destruct (objs !! r); reflexivity.
Qed.

Lemma insert_hide_out (objs : list Object3D.t) (r : ref) (o : Object3D.t) :
  r ∉ G -> hide_objects (<[r := o]> objs) = <[r := o]> (hide_objects objs).
Proof.
  intros Hr. apply list_eq. intros i. unfold hide_objects.
  rewrite list_lookup_imap.
  destruct (decide (i = r)) as [-> | Hi].
  - rewrite bool_decide_eq_false_2 by exact Hr.
    destruct (decide (r < length objs)) as [Hlt | Hge].
    + rewrite !list_lookup_insert_eq by (rewrite ?length_imap; exact Hlt). reflexivity.
    + rewrite !list_insert_ge by (rewrite ?length_imap; lia).
      rewrite list_lookup_imap. rewrite bool_decide_eq_false_2 by exact Hr.
      destruct (objs !! r); reflexivity.
  - rewrite !list_lookup_insert_ne by congruence.
    rewrite list_lookup_imap. reflexivity.
Qed.

Lemma insert_hide_in (objs : list Object3D.t) (r : ref) (o : Object3D.t) :
  r ∈ G -> hide_objects (<[r := o]> objs) = hide_objects objs.
Proof.
  intros Hr. apply list_eq. intros i. unfold hide_objects.
  rewrite !list_lookup_imap.
  destruct (decide (i = r)) as [-> | Hi].
  - rewrite bool_decide_eq_true_2 by exact Hr.
    destruct (decide (r < length objs)) as [Hlt | Hge].
    + rewrite list_lookup_insert_eq by exact Hlt.
      destruct (lookup_lt_is_Some_2 objs r Hlt) as [x ->]. reflexivity.
    + rewrite list_insert_ge by lia. reflexivity.
  - rewrite list_lookup_insert_ne by congruence. reflexivity.
Qed.

Lemma filter_remove_out (sc : list ref) (r : ref) :
  filter (fun r' => r' ∉ G) (filter (fun r' => r' ≠ r) sc)
  = filter (fun r' => r' ≠ r) (filter (fun r' => r' ∉ G) sc).
Proof.
  rewrite !list_filter_filter. apply list_filter_iff. intros x. tauto.
Qed.

Lemma filter_remove_in (sc : list ref) (r : ref) :
  r ∈ G ->
  filter (fun r' => r' ∉ G) (filter (fun r' => r' ≠ r) sc)
  = filter (fun r' => r' ∉ G) sc.
Proof.
  intros Hr. rewrite list_filter_filter. apply list_filter_iff. intros x.
  split; [tauto |]. intros Hx. split; [exact Hx | congruence].
Qed.
End Outside.

(** ** Code that stays outside the rays and waves

    [sim m post]: from a state that is [clear], running [m] commutes with
    looking at the state from outside, leaves the state clear, and answers
    within [post]. *)

Section Simulation.
Variable G : list ref.
Variable trail0 : option ref.
Hypothesis trail0_out : forall tr, trail0 = Some tr -> tr ∉ G.

(** No ray or wave is an effect, the escaping fragment, the first trail or
    the particle that trail follows. *)
Definition clear (s : State) : Prop :=
  (forall a, currentAnimation s = Some a ->
     Forall (fun r => r ∉ G) (Animation.effects a) /\
     (forall f, Animation.escapingFragment a = Some f -> f ∉ G) /\
     Animation.trails a !! 0%nat = trail0) /\
  (forall tr o p,
     trail0 = Some tr -> objects s !! tr = Some o -> particle_of o = Some p -> p ∉ G).

Definition sim {A} (m : M A) (post : A -> Prop) : Prop :=
  forall s, clear s ->
    m (outside G s) = (fst (m s), outside G (snd (m s))) /\
    clear (snd (m s)) /\
    (forall a, fst (m s) = Ok a -> post a).

Abbreviation sim0 m := (sim m (fun _ => True)).

Lemma sim_post {A} (m : M A) (post post' : A -> Prop) :
  sim m post -> (forall a, post a -> post' a) -> sim m post'.
Proof.
  intros Hm Hpost s Hs. destruct (Hm s Hs) as (E & Hc & Hp). auto.
Qed.

Lemma sim_ret {A} (a : A) (post : A -> Prop) : post a -> sim (ret a) post.
Proof.
  intros Ha s Hs. split; [reflexivity |]. split; [exact Hs |].
  intros a' [= <-]. exact Ha.
Qed.

Lemma sim_throw {A} e (post : A -> Prop) : sim (@throw A e) post.
Proof.
  intros s Hs. split; [reflexivity |]. split; [exact Hs |]. intros a' [=].
Qed.

Lemma sim_required {A} (o : option A) (post : A -> Prop) :
  (forall a, o = Some a -> post a) -> sim (required o) post.
Proof. destruct o; intros H; [apply sim_ret; auto | apply sim_throw]. Qed.

Lemma sim_bind {A B} (m : M A) (k : A -> M B) (mid : A -> Prop) (post : B -> Prop) :
  sim m mid -> (forall a, mid a -> sim (k a) post) -> sim (bind m k) post.
Proof.
  intros Hm Hk s Hs. destruct (Hm s Hs) as (E & Hc & Hp).
  unfold bind. rewrite E. destruct (m s) as [[a | e] s1]; cbn [fst snd] in *.
  - apply (Hk a (Hp a eq_refl) s1 Hc).
  - split; [reflexivity |]. split; [exact Hc |]. intros a' [=].
Qed.

Lemma sim_gets {A} (f : State -> A) (post : A -> Prop) :
  (forall s, f (outside G s) = f s) -> (forall s, clear s -> post (f s)) ->
  sim (gets f) post.
Proof.
  intros Hf Hpost s Hs. unfold gets. rewrite Hf.
  split; [reflexivity |]. split; [exact Hs |]. intros a [= <-]. auto.
Qed.

Lemma sim_getA {A} (f : Animation.t -> A) (post : A -> Prop) :
  (forall a, f (hide_animation a) = f a) ->
  (forall s a, clear s -> currentAnimation s = Some a -> post (f a)) ->
  sim (getA f) post.
Proof.
  intros Hf Hpost s Hs. unfold getA, bind, gets, outside. cbv beta.
  destruct s as [objs sc ten tlen tape rpos msin mcos macos con playing spd [a |]];
    cbn; [rewrite Hf |].
  - split; [reflexivity |]. split; [exact Hs |]. intros a' [= <-].
    apply (Hpost _ a Hs). reflexivity.
  - split; [reflexivity |]. split; [exact Hs |]. intros a' [=].
Qed.

Lemma sim_modifyA (f : Animation.t -> Animation.t) :
  (forall a, hide_animation (f a) = f (hide_animation a)) ->
  (forall a, Forall (fun r => r ∉ G) (Animation.effects a) ->
             Forall (fun r => r ∉ G) (Animation.effects (f a))) ->
  (forall a, Animation.escapingFragment (f a) = Animation.escapingFragment a) ->
  (forall a, Animation.trails (f a) = Animation.trails a) ->
  sim0 (modifyA f).
Proof.
  intros Hf He Hfrag Htr s Hs. unfold modifyA, bind, gets, outside. cbv beta.
  destruct s as [objs sc ten tlen tape rpos msin mcos macos con playing spd [a |]];
    cbn; [rewrite Hf |].
  - split; [reflexivity |]. split; [| auto].
    destruct Hs as [Ha Hp]. split; [| exact Hp].
    intros a' [= <-]. destruct (Ha a eq_refl) as (H1 & H2 & H3).
    rewrite Hfrag, Htr. auto.
  - split; [reflexivity |]. split; [exact Hs | auto].
Qed.

Lemma sim_lookupObj (r : ref) (post : option Object3D.t -> Prop) :
  r ∉ G -> (forall s, clear s -> post (objects s !! r)) -> sim (lookupObj r) post.
Proof.
  intros Hr Hpost s Hs. unfold lookupObj, gets.
  replace (objects (outside G s) !! r) with (objects s !! r)
    by (destruct s as [objs sc ten tlen tape rpos msin mcos macos con playing spd cur]; cbn; symmetry; apply lookup_hide_out, Hr).
  split; [reflexivity |]. split; [exact Hs |]. intros a [= <-]. auto.
Qed.

Lemma sim_getObj (r : ref) (post : Object3D.t -> Prop) :
  r ∉ G -> (forall s o, clear s -> objects s !! r = Some o -> post o) ->
  sim (getObj r) post.
Proof.
  intros Hr Hpost s Hs. unfold getObj, lookupObj, bind, gets. cbv beta.
  replace (objects (outside G s) !! r) with (objects s !! r)
    by (destruct s as [objs sc ten tlen tape rpos msin mcos macos con playing spd cur]; cbn; symmetry; apply lookup_hide_out, Hr).
  destruct (objects s !! r) as [o |] eqn:Ho; cbn.
  - split; [reflexivity |]. split; [exact Hs |]. intros a [= <-]. eauto.
  - split; [reflexivity |]. split; [exact Hs |]. intros a [=].
Qed.

Lemma sim_modifyObj (r : ref) (f : Object3D.t -> Object3D.t) :
  r ∉ G -> (forall o, particle_of (f o) = particle_of o) -> sim0 (modifyObj r f).
Proof.
  intros Hr Hf s Hs. unfold modifyObj, getObj, lookupObj, bind, gets, modify. cbv beta.
  replace (objects (outside G s) !! r) with (objects s !! r)
    by (destruct s as [objs sc ten tlen tape rpos msin mcos macos con playing spd cur]; cbn; symmetry; apply lookup_hide_out, Hr).
  destruct (objects s !! r) as [o |] eqn:Ho; cbn.
  - split; [| split; [| auto]].
    + destruct s as [objs sc ten tlen tape rpos msin mcos macos con playing spd cur]. unfold outside. state_flat. rewrite insert_hide_out by exact Hr.
      reflexivity.
    + destruct Hs as [Ha Hp]. destruct s as [objs sc ten tlen tape rpos msin mcos macos con playing spd cur].
      cbn [objects set_objects currentAnimation] in *. split; [exact Ha |].
      intros tr o' p Htr Ho' Hpart.
      cbn [objects set_objects] in Ho'.
      destruct (decide (tr = r)) as [-> | Hne].
      * rewrite list_lookup_insert_eq in Ho' by (eapply lookup_lt_Some, Ho).
        injection Ho' as <-. rewrite Hf in Hpart. eauto.
      * rewrite list_lookup_insert_ne in Ho' by congruence. eauto.
  - split; [reflexivity |]. split; [exact Hs | auto].
Qed.

Lemma sim_scene_remove (r : ref) : sim0 (scene_remove r).
Proof.
  intros s Hs. unfold scene_remove, modify. split; [| split; [| auto]].
  - destruct s as [objs sc ten tlen tape rpos msin mcos macos con playing spd cur]. unfold outside. state_flat. rewrite filter_remove_out. reflexivity.
  - destruct s as [objs sc ten tlen tape rpos msin mcos macos con playing spd cur]. exact Hs.
Qed.

Lemma sim_filterM (p : ref -> M bool) (l : list ref) :
  Forall (fun r => r ∉ G) l ->
  (forall r, r ∉ G -> sim0 (p r)) ->
  sim (filterM p l) (Forall (fun r => r ∉ G)).
Proof.
  intros Hl Hp. induction Hl as [| r l Hr Hl IH]; cbn [filterM].
  - apply sim_ret. constructor.
  - eapply sim_bind; [apply Hp, Hr |]. intros keep _.
    eapply sim_bind; [apply IH |]. intros rest Hrest.
    apply sim_ret. destruct keep; [constructor |]; assumption.
Qed.

(** Walk a method body whose handles are known to be outside [G]. *)
Ltac sim_side :=
  first
    [ assumption
    | exact I
    | reflexivity
    | solve [eauto]
    | let o := fresh "o" in
      intros o; unfold particle_of; destruct o as [? ? ? ? ? ? [?|]]; reflexivity ].

Ltac sim_walk :=
  repeat
    lazymatch goal with
    | |- sim (ret _) _ => apply sim_ret; exact I
    | |- sim (throw _) _ => apply sim_throw
    | |- sim (bind (required (Some ?t)) ?k) _ =>
        change (bind (required (Some t)) k) with (k t); cbv beta
    | |- sim (bind (required None) ?k) _ => apply sim_throw
    | |- sim (required _) _ => apply sim_required; intros; exact I
    | |- sim (gets _) _ => apply sim_gets; intros; [reflexivity | exact I]
    | |- sim (bind _ _) _ => apply (sim_bind _ _ (fun _ => True)); [| intros ? _]
    | |- sim (lookupObj _) _ => apply sim_lookupObj; [sim_side | intros; exact I]
    | |- sim (getObj _) _ => apply sim_getObj; [sim_side | intros; exact I]
    | |- sim (modifyObj _ _) _ => apply sim_modifyObj; [sim_side | sim_side]
    | |- sim (scene_remove _) _ => apply sim_scene_remove
    | |- sim (match ?x with _ => _ end) _ => destruct x
    | |- sim ?m _ => let h := head_of m in unfold h
    end.

Lemma sim_updateEffect (r : ref) : r ∉ G -> sim0 (updateEffect r).
Proof. intros Hr. sim_walk. Qed.

Lemma sim_updateEffects : sim0 updateEffects.
Proof.
  unfold updateEffects.
  apply (sim_bind _ _ (Forall (fun r => r ∉ G))).
  { apply sim_getA; [intros []; reflexivity |].
    intros s a [Ha _] Hcur. apply (Ha a Hcur). }
  intros effects Heffects.
  apply (sim_bind _ _ (Forall (fun r => r ∉ G))).
  { apply sim_filterM; [exact Heffects | apply sim_updateEffect]. }
  intros kept Hkept.
  apply sim_modifyA; intros []; auto.
Qed.

Lemma sim_updateTrailAt : sim0 (updateTrailAt 0).
Proof using trail0_out.
  unfold updateTrailAt.
  apply (sim_bind _ _ (fun trails => trails !! 0%nat = trail0)).
  { apply sim_getA; [intros []; reflexivity |].
    intros s a [Ha _] Hcur. apply (Ha a Hcur). }
  intros trails Htrails.
  destruct (trails !! 0%nat) as [trail |]; [| sim_walk].
  assert (Hout : trail ∉ G) by auto.
  unfold updateTrail.
  apply (sim_bind _ _ (fun _ => True)); [sim_walk | intros enabled _].
  destruct (negb enabled); [sim_walk |].
  apply (sim_bind _ _ (fun ud => forall p, UserData.particle ud = Some p -> p ∉ G)).
  { unfold getUserData.
    apply (sim_bind _ _ (fun o => forall p, particle_of o = Some p -> p ∉ G)).
    - apply sim_getObj; [exact Hout |].
      intros s o [_ Hp] Ho p. apply (Hp trail o p); auto.
    - intros o Ho. apply sim_required. intros ud Hud p Hpart.
      apply Ho. unfold particle_of. rewrite Hud. exact Hpart. }
  intros ud Hud.
  apply (sim_bind _ _ (fun _ => True)); [sim_walk | intros points _].
  cbv zeta.
  apply (sim_bind _ _ (fun _ => True)); [sim_walk | intros _ _].
  destruct (UserData.particle ud) as [p |]; [| sim_walk].
  assert (Hp : p ∉ G) by auto.
  sim_walk.
Qed.

Section Body.
Variable target : option ref.
Hypothesis target_out : forall t, target = Some t -> t ∉ G.

(** What [updateNonelasticBreakup] does after its [switch]. *)
Definition afterSwitch (complete : bool) : M bool :=
  if complete then ret true
  else
    effects <- getA Animation.effects ;;
    particles <- filterM hasVelocity effects ;;
    _ <- updateExplosion particles ;;
    ret false.

Lemma sim_afterSwitch (complete : bool) : sim0 (afterSwitch complete).
Proof.
  unfold afterSwitch. destruct complete; [sim_walk |].
  apply (sim_bind _ _ (Forall (fun r => r ∉ G))).
  { apply sim_getA; [intros []; reflexivity |].
    intros s a [Ha _] Hcur. apply (Ha a Hcur). }
  intros effects Heffects.
  apply (sim_bind _ _ (Forall (fun r => r ∉ G))).
  { apply sim_filterM; [exact Heffects |]. intros r Hr. sim_walk. }
  intros particles Hparticles.
  apply (sim_bind _ _ (fun _ => True)); [| intros; sim_walk].
  unfold updateExplosion.
  apply (sim_bind _ _ (fun _ => True)); [| intros; sim_walk].
  eapply sim_post; [apply sim_filterM |]; [apply Forall_rev, Hparticles | | auto].
  intros r Hr. sim_walk.
Qed.

Lemma sim_absorption (projectile : option ref) :
  sim0 (nonelasticPhase projectile target "absorption").
Proof using trail0_out target_out.
  unfold nonelasticPhase. cbn [String.eqb Ascii.eqb Bool.eqb].
  apply (sim_bind _ _ (fun _ => True)); [sim_walk | intros spd _].
  apply (sim_bind _ _ (fun _ => True)); [apply sim_updateEffects | intros _ _].
  apply (sim_bind _ _ (fun escaping => forall f, escaping = Some f -> f ∉ G)).
  { apply sim_getA; [intros []; reflexivity |].
    intros s a [Ha _] Hcur. apply (Ha a Hcur). }
  intros escaping Hescaping.
  apply (sim_bind _ _ (fun _ => True)); [| intros; sim_walk].
  destruct escaping as [frag |]; [| sim_walk].
  assert (Hfrag : frag ∉ G) by auto.
  apply (sim_bind _ _ (fun _ => True)); [sim_walk | intros _ _].
  apply (sim_bind _ _ (fun _ => True)); [apply sim_updateTrailAt | intros _ _].
  apply (sim_bind _ _ (fun _ => True)).
  { unfold beyond15. destruct target as [t |] eqn:Ht.
    - assert (Hout : t ∉ G) by auto. sim_walk.
    - sim_walk. }
  intros far _. destruct far; [| sim_walk].
  apply sim_modifyA; intros []; auto.
Qed.
End Body.
End Simulation.

(** ** Code that stays inside the rays and waves

    [hid m post]: from a state whose rays and waves are in [G], running
    [m] changes nothing outside. *)

Section Hidden.
Variable G : list ref.

Definition inside (s : State) : Prop :=
  forall a, currentAnimation s = Some a ->
    (forall l, Animation.gammaRays a = Some l -> Forall (fun r => r ∈ G) l) /\
    (forall l, Animation.energyWaves a = Some l -> Forall (fun r => r ∈ G) l).

Definition hid {A} (m : M A) (post : A -> Prop) : Prop :=
  forall s, inside s ->
    outside G (snd (m s)) = outside G s /\
    inside (snd (m s)) /\
    (forall a, fst (m s) = Ok a -> post a).

Abbreviation hid0 m := (hid m (fun _ => True)).

Lemma hid_post {A} (m : M A) (post post' : A -> Prop) :
  hid m post -> (forall a, post a -> post' a) -> hid m post'.
Proof.
  intros Hm Hpost s Hs. destruct (Hm s Hs) as (E & Hc & Hp). auto.
Qed.

Lemma hid_ret {A} (a : A) (post : A -> Prop) : post a -> hid (ret a) post.
Proof.
  intros Ha s Hs. split; [reflexivity |]. split; [exact Hs |].
  intros a' [= <-]. exact Ha.
Qed.

Lemma hid_throw {A} e (post : A -> Prop) : hid (@throw A e) post.
Proof.
  intros s Hs. split; [reflexivity |]. split; [exact Hs |]. intros a' [=].
Qed.

Lemma hid_required {A} (o : option A) (post : A -> Prop) :
  (forall a, o = Some a -> post a) -> hid (required o) post.
Proof. destruct o; intros H; [apply hid_ret; auto | apply hid_throw]. Qed.

Lemma hid_bind {A B} (m : M A) (k : A -> M B) (mid : A -> Prop) (post : B -> Prop) :
  hid m mid -> (forall a, mid a -> hid (k a) post) -> hid (bind m k) post.
Proof.
  intros Hm Hk s Hs. destruct (Hm s Hs) as (E & Hc & Hp).
  unfold bind. destruct (m s) as [[a | e] s1]; cbn [fst snd] in *.
  - destruct (Hk a (Hp a eq_refl) s1 Hc) as (E' & Hc' & Hp').
    split; [congruence | auto].
  - split; [exact E |]. split; [exact Hc |]. intros a' [=].
Qed.

Lemma hid_gets {A} (f : State -> A) (post : A -> Prop) :
  (forall s, inside s -> post (f s)) -> hid (gets f) post.
Proof.
  intros Hpost s Hs. split; [reflexivity |]. split; [exact Hs |].
  intros a [= <-]. auto.
Qed.

Lemma hid_getA {A} (f : Animation.t -> A) (post : A -> Prop) :
  (forall s a, inside s -> currentAnimation s = Some a -> post (f a)) ->
  hid (getA f) post.
Proof.
  intros Hpost s Hs. unfold getA, bind, gets. cbv beta.
  destruct (currentAnimation s) as [a |] eqn:Hcur; cbn.
  - split; [reflexivity |]. split; [exact Hs |]. intros a' [= <-]. eauto.
  - split; [reflexivity |]. split; [exact Hs |]. intros a' [=].
Qed.

Lemma hid_modifyA (f : Animation.t -> Animation.t) :
  (forall a, hide_animation (f a) = hide_animation a) ->
  (forall a l, Animation.gammaRays (f a) = Some l ->
               Animation.gammaRays a = Some l \/ Forall (fun r => r ∈ G) l) ->
  (forall a l, Animation.energyWaves (f a) = Some l ->
               Animation.energyWaves a = Some l \/ Forall (fun r => r ∈ G) l) ->
  hid0 (modifyA f).
Proof.
  intros Hf Hg Hw s Hs. unfold modifyA, bind, gets, modify. cbv beta.
  destruct s as [objs sc ten tlen tape rpos msin mcos macos con playing spd [a |]];
    cbn [currentAnimation required ret fst snd].
  - split; [| split; [| auto]].
    + unfold outside. state_flat. cbn [fmap option_fmap option_map]. rewrite Hf.
      reflexivity.
    + intros a' [= <-]. destruct (Hs a eq_refl) as [H1 H2]. split.
      * intros l Hl. destruct (Hg a l Hl); auto.
      * intros l Hl. destruct (Hw a l Hl); auto.
  - split; [reflexivity |]. split; [exact Hs | auto].
Qed.

Lemma hid_lookupObj (r : ref) : hid0 (lookupObj r).
Proof. apply hid_gets. auto. Qed.

Lemma hid_modifyObj (r : ref) (f : Object3D.t -> Object3D.t) :
  r ∈ G -> hid0 (modifyObj r f).
Proof.
  intros Hr s Hs. unfold modifyObj, getObj, lookupObj, bind, gets, modify. cbv beta.
  destruct (objects s !! r) as [o |] eqn:Ho; cbn [required ret throw fst snd].
  - split; [| split; [| auto]].
    + destruct s as [objs sc ten tlen tape rpos msin mcos macos con playing spd cur].
      unfold outside. state_flat. rewrite insert_hide_in by exact Hr. reflexivity.
    + destruct s as [objs sc ten tlen tape rpos msin mcos macos con playing spd cur].
      exact Hs.
  - split; [reflexivity |]. split; [exact Hs | auto].
Qed.

Lemma hid_scene_remove (r : ref) : r ∈ G -> hid0 (scene_remove r).
Proof.
  intros Hr s Hs. unfold scene_remove, modify. split; [| split; [| auto]].
  - destruct s as [objs sc ten tlen tape rpos msin mcos macos con playing spd cur].
    unfold outside. state_flat. rewrite filter_remove_in by exact Hr. reflexivity.
  - destruct s as [objs sc ten tlen tape rpos msin mcos macos con playing spd cur].
    exact Hs.
Qed.

Lemma hid_filterM (p : ref -> M bool) (l : list ref) :
  Forall (fun r => r ∈ G) l ->
  (forall r, r ∈ G -> hid0 (p r)) ->
  hid (filterM p l) (Forall (fun r => r ∈ G)).
Proof.
  intros Hl Hp. induction Hl as [| r l Hr Hl IH]; cbn [filterM].
  - apply hid_ret. constructor.
  - eapply hid_bind; [apply Hp, Hr |]. intros keep _.
    eapply hid_bind; [apply IH |]. intros rest Hrest.
    apply hid_ret. destruct keep; [constructor |]; assumption.
Qed.

Ltac hid_walk :=
  repeat
    lazymatch goal with
    | |- hid (ret _) _ => apply hid_ret; exact I
    | |- hid (throw _) _ => apply hid_throw
    | |- hid (bind (required None) _) _ => apply hid_throw
    | |- hid (required _) _ => apply hid_required; intros; exact I
    | |- hid (gets _) _ => apply hid_gets; intros; exact I
    | |- hid (bind _ _) _ => apply (hid_bind _ _ (fun _ => True)); [| intros ? _]
    | |- hid (lookupObj _) _ => apply hid_lookupObj
    | |- hid (modifyObj _ _) _ => apply hid_modifyObj; assumption
    | |- hid (scene_remove _) _ => apply hid_scene_remove; assumption
    | |- hid (match ?x with _ => _ end) _ => destruct x
    | |- hid ?m _ => let h := head_of m in unfold h
    end.

Lemma hid_filterGammaRays : hid0 filterGammaRays.
Proof.
  unfold filterGammaRays.
  apply (hid_bind _ _ (fun g => forall l, g = Some l -> Forall (fun r => r ∈ G) l)).
  { apply hid_getA. intros s a Hs Hcur. apply (Hs a Hcur). }
  intros g Hg. destruct g as [l |]; [| hid_walk].
  change (bind (required (Some l)) ?k) with (k l). cbv beta.
  apply (hid_bind _ _ (Forall (fun r => r ∈ G))).
  { apply hid_filterM; [auto |]. intros r Hr. hid_walk. }
  intros kept Hkept.
  apply hid_modifyA; [intros []; reflexivity | |]; intros [] l' Hl'; cbn in *.
  - right. congruence.
  - left. exact Hl'.
Qed.

Lemma hid_filterEnergyWaves : hid0 filterEnergyWaves.
Proof.
  unfold filterEnergyWaves.
  apply (hid_bind _ _ (fun w => forall l, w = Some l -> Forall (fun r => r ∈ G) l)).
  { apply hid_getA. intros s a Hs Hcur. apply (Hs a Hcur). }
  intros w Hw. destruct w as [l |]; [| hid_walk].
  change (bind (required (Some l)) ?k) with (k l). cbv beta.
  apply (hid_bind _ _ (Forall (fun r => r ∈ G))).
  { apply hid_filterM; [auto |]. intros r Hr. hid_walk. }
  intros kept Hkept.
  apply hid_modifyA; [intros []; reflexivity | |]; intros [] l' Hl'; cbn in *.
  - left. exact Hl'.
  - right. congruence.
Qed.
End Hidden.

(** ** The two ticks *)

Lemma bind_gets {A B} (f : State -> A) (k : A -> M B) s :
  bind (gets f) k s = k (f s) s.
Proof. reflexivity. Qed.

Lemma decay_as_absorption (projectile target : option ref) (s : State) :
  nonelasticPhase projectile target "decay" s
  = (filterEnergyWaves ;;; filterGammaRays ;;;
     nonelasticPhase projectile target "absorption") s.
Proof.
  unfold nonelasticPhase. cbn [String.eqb Ascii.eqb Bool.eqb].
  rewrite bind_gets.
  destruct (filterEnergyWaves s) as [[[] | e] s1] eqn:E1.
  2: { rewrite !(bind_Throw _ _ _ _ _ E1). reflexivity. }
  rewrite !(bind_Ok _ _ _ _ _ E1).
  destruct (filterGammaRays s1) as [[[] | e] s2] eqn:E2.
  2: { rewrite !(bind_Throw _ _ _ _ _ E2). reflexivity. }
  rewrite !(bind_Ok _ _ _ _ _ E2). rewrite bind_gets. reflexivity.
Qed.

Lemma filters_time_blind : time_blind (filterEnergyWaves ;;; filterGammaRays).
Proof. tb_walk. Qed.

(** No ray or wave of [a] is one of its effects, its escaping fragment, its
    target, its first trail or the particle that trail follows. *)
Definition separated (s : State) (a : Animation.t) : bool :=
  let out (r : ref) := bool_decide (r ∉ rays_and_waves a) in
  let out_opt (o : option ref) := match o with Some r => out r | None => true end in
  forallb out (Animation.effects a)
  && out_opt (Animation.escapingFragment a)
  && out_opt (Animation.target a)
  && out_opt (Animation.trails a !! 0%nat)
  && out_opt (match Animation.trails a !! 0%nat with
              | Some tr =>
                  match objects s !! tr with
                  | Some o => particle_of o
                  | None => None
                  end
              | None => None
              end).

Lemma separated_facts (s : State) (a : Animation.t) :
  separated s a = true ->
  Forall (fun r => r ∉ rays_and_waves a) (Animation.effects a) /\
  (forall f, Animation.escapingFragment a = Some f -> f ∉ rays_and_waves a) /\
  (forall t, Animation.target a = Some t -> t ∉ rays_and_waves a) /\
  (forall tr, Animation.trails a !! 0%nat = Some tr -> tr ∉ rays_and_waves a) /\
  (forall tr o p,
     Animation.trails a !! 0%nat = Some tr -> objects s !! tr = Some o ->
     particle_of o = Some p -> p ∉ rays_and_waves a).
Proof.
  unfold separated. cbv zeta. rewrite !andb_true_iff.
  intros ((((H1 & H2) & H3) & H4) & H5).
  split; [| split; [| split; [| split]]].
  - apply Forall_forall. intros r Hr.
    rewrite forallb_forall in H1. apply list_elem_of_In in Hr.
    apply (bool_decide_eq_true_1 _ (H1 r Hr)).
  - intros f Hf. rewrite Hf in H2. apply (bool_decide_eq_true_1 _ H2).
  - intros t Ht. rewrite Ht in H3. apply (bool_decide_eq_true_1 _ H3).
  - intros tr Htr. rewrite Htr in H4. apply (bool_decide_eq_true_1 _ H4).
  - intros tr o p Htr Ho Hp. rewrite Htr, Ho, Hp in H5.
    apply (bool_decide_eq_true_1 _ H5).
Qed.

Lemma clear_of_outside (G : list ref) (trail0 : option ref) (s s' : State) :
  (forall tr, trail0 = Some tr -> tr ∉ G) ->
  outside G s = outside G s' -> clear G trail0 s -> clear G trail0 s'.
Proof.
  intros Hout E [Ha Hp].
  assert (Ecur : hide_animation <$> currentAnimation s
                 = hide_animation <$> currentAnimation s')
    by exact (f_equal currentAnimation E).
  assert (Eobj : hide_objects G (objects s) = hide_objects G (objects s'))
    by exact (f_equal objects E).
  split.
  - intros a' Hcur'. rewrite Hcur' in Ecur.
    destruct (currentAnimation s) as [a0 |]; [| discriminate].
    injection Ecur as _ _ _ _ _ _ _ Etrails Eeffects _ Efragment _ _ _ _.
    specialize (Ha a0 eq_refl). rewrite <- Etrails, <- Eeffects, <- Efragment.
    exact Ha.
  - intros tr o p Htr Ho. apply (Hp tr o p Htr).
    rewrite <- (lookup_hide_out G _ tr (Hout tr Htr)), Eobj.
    rewrite lookup_hide_out by exact (Hout tr Htr). exact Ho.
Qed.

Lemma bind_at {A B} (m m' : M A) (k : A -> M B) s :
  m s = m' s -> bind m k s = bind m' k s.
Proof. intros E. unfold bind. rewrite E. reflexivity. Qed.

Lemma hid_filters (G : list ref) :
  hid G (filterEnergyWaves ;;; filterGammaRays) (fun _ => True).
Proof.
  eapply hid_bind; [apply hid_filterEnergyWaves |].
  intros _ _. apply hid_filterGammaRays.
Qed.

Section Two_ticks.
Variable delta : float.
Variables (s : State) (a : Animation.t).
Hypothesis Hcur : currentAnimation s = Some a.
Hypothesis Hsep : separated s a = true.

Let G := rays_and_waves a.
Let trail0 := Animation.trails a !! 0%nat.

(** The state a tick in phase [phase] hands to the [switch]. *)
Definition entered (phase : string) : State :=
  enter delta (Animation.set_phase phase a) (in_phase phase s).

Lemma entered_current phase :
  currentAnimation (in_phase phase s) = Some (Animation.set_phase phase a).
Proof.
  clear Hsep.
  unfold in_phase. rewrite Hcur.
  destruct s as [objs sc ten tlen tape rpos msin mcos macos con playing spd cur].
  reflexivity.
Qed.

Lemma entered_clear phase : clear G trail0 (entered phase).
Proof.
  destruct (separated_facts s a Hsep) as (H1 & H2 & H3 & H4 & H5).
  unfold entered, enter, in_phase. rewrite Hcur.
  destruct s as [objs sc ten tlen tape rpos msin mcos macos con playing spd cur].
  unfold clear. state_flat. cbn [fmap option_fmap option_map].
  split.
  - intros a' [= <-]. destruct a; cbn in *. auto.
  - intros tr o p Htr Ho Hp. apply (H5 tr o p); assumption.
Qed.

Lemma entered_inside phase : inside G (entered phase).
Proof.
  clear Hsep.
  unfold entered, enter, in_phase. rewrite Hcur.
  destruct s as [objs sc ten tlen tape rpos msin mcos macos con playing spd cur].
  unfold inside. state_flat. cbn [fmap option_fmap option_map].
  intros a' [= <-]. unfold G, rays_and_waves. destruct a; cbn.
  split; intros l ->; cbn; apply Forall_forall; intros r Hr;
    rewrite elem_of_app; auto.
Qed.

Lemma entered_outside :
  outside G (entered "decay") = outside G (entered "absorption").
Proof.
  clear Hsep.
  unfold entered, enter, in_phase. rewrite Hcur.
  destruct s as [objs sc ten tlen tape rpos msin mcos macos con playing spd cur].
  destruct a. reflexivity.
Qed.

Lemma entered_with_time phase :
  entered phase
  = with_time (Animation.time a + delta * speed s) (in_phase phase s).
Proof.
  clear Hsep.
  unfold entered, enter, with_time, in_phase. rewrite Hcur.
  destruct s as [objs sc ten tlen tape rpos msin mcos macos con playing spd cur].
  destruct a. reflexivity.
Qed.

Lemma tick_entered phase :
  updateNonelasticBreakup delta (in_phase phase s)
  = bind (nonelasticPhase (Animation.projectile a) (Animation.target a) phase)
      afterSwitch (entered phase).
Proof. exact (updateNonelasticBreakup_enter delta _ _ (entered_current phase)). Qed.

Lemma sim_tick :
  sim G trail0
    (bind (nonelasticPhase (Animation.projectile a) (Animation.target a) "absorption")
       afterSwitch)
    (fun _ => True).
Proof.
  destruct (separated_facts s a Hsep) as (_ & _ & H3 & H4 & _).
  eapply sim_bind; [apply sim_absorption; assumption |].
  intros complete _. apply sim_afterSwitch.
Qed.

Lemma nonelastic_ticks_agree :
  fst ((filterEnergyWaves ;;; filterGammaRays) (in_phase "decay" s)) = Ok tt ->
  fst (updateNonelasticBreakup delta (in_phase "decay" s))
  = fst (updateNonelasticBreakup delta (in_phase "absorption" s)) /\
  outside G (snd (updateNonelasticBreakup delta (in_phase "decay" s)))
  = outside G (snd (updateNonelasticBreakup delta (in_phase "absorption" s))).
Proof.
  intros HF.
  destruct (separated_facts s a Hsep) as (_ & _ & _ & H4 & _).
  rewrite !tick_entered.
  set (C := bind (nonelasticPhase (Animation.projectile a) (Animation.target a)
                    "absorption") afterSwitch).
  (* the decay tick: the filters, then the absorption tick *)
  assert (HD : exists s1,
             bind (nonelasticPhase (Animation.projectile a) (Animation.target a) "decay")
               afterSwitch (entered "decay") = C s1 /\
             outside G s1 = outside G (entered "decay")).
  { pose proof (filters_time_blind (Animation.time a + delta * speed s)%float
                  (in_phase "decay" s)) as Hrun.
    rewrite <- entered_with_time, HF in Hrun.
    destruct (hid_filters G _ (entered_inside "decay")) as (Hout & _ & _).
    rewrite Hrun in Hout. cbn [snd] in Hout.
    eexists. split; [| exact Hout].
    rewrite (bind_at _ _ _ _ (decay_as_absorption _ _ _)).
    rewrite (bind_at _ _ _ _ (eq_sym (bind_assoc _ _ _ _))).
    rewrite bind_assoc. rewrite (bind_Ok _ _ _ _ _ Hrun). reflexivity. }
  destruct HD as (s1 & -> & Hout).
  assert (Hclear : clear G trail0 s1).
  { apply (clear_of_outside G trail0 (entered "decay")); auto using entered_clear. }
  destruct (sim_tick s1 Hclear) as (E1 & _ & _).
  destruct (sim_tick _ (entered_clear "absorption")) as (E2 & _ & _).
  fold C in E1, E2.
  rewrite Hout, entered_outside, E2 in E1.
  split; [exact (eq_sym (f_equal fst E1)) | exact (eq_sym (f_equal snd E1))].
Qed.
End Two_ticks.

(** ** From the per-kind update to [update] *)

Section Reading_outside.
Variable G : list ref.
Variables x y : State.
Hypothesis E : outside G x = outside G y.

Lemma outside_effects :
  Animation.effects <$> currentAnimation x = Animation.effects <$> currentAnimation y.
Proof using E.
  pose proof (f_equal currentAnimation E) as Ecur.
  change (hide_animation <$> currentAnimation x = hide_animation <$> currentAnimation y)
    in Ecur.
  destruct (currentAnimation x) as [ax |], (currentAnimation y) as [ay |];
    try discriminate; [| reflexivity].
  injection Ecur as _ _ _ _ _ _ _ _ Eeffects _ _ _ _ _ _. cbn. congruence.
Qed.

Lemma outside_objects (r : ref) : r ∉ G -> objects x !! r = objects y !! r.
Proof using E.
  intros Hr. pose proof (f_equal objects E) as Eobj.
  change (hide_objects G (objects x) = hide_objects G (objects y)) in Eobj.
  rewrite <- (lookup_hide_out G _ r Hr), Eobj. apply lookup_hide_out, Hr.
Qed.

Lemma outside_scene (r : ref) : r ∉ G -> r ∈ scene x <-> r ∈ scene y.
Proof using E.
  intros Hr. pose proof (f_equal scene E) as Esc.
  change (filter (fun r => r ∉ G) (scene x) = filter (fun r => r ∉ G) (scene y)) in Esc.
  assert (H : forall sc, r ∈ sc <-> r ∈ filter (fun r => r ∉ G) sc)
    by (intros sc; rewrite list_elem_of_filter; tauto).
  rewrite (H (scene x)), (H (scene y)), Esc. reflexivity.
Qed.

Lemma outside_complete :
  phase_of x = Some "complete" <-> phase_of y = Some "complete".
Proof using E.
  pose proof (f_equal currentAnimation E) as Ecur.
  change (hide_animation <$> currentAnimation x = hide_animation <$> currentAnimation y)
    in Ecur.
  unfold phase_of.
  destruct (currentAnimation x) as [ax |], (currentAnimation y) as [ay |];
    try discriminate; [| reflexivity].
  injection Ecur as _ _ _ Ephase _ _ _ _ _ _ _ _ _ _ _. cbn. unfold relabel in Ephase.
  split; intros [= H]; rewrite H in Ephase; cbn in Ephase; f_equal.
  - destruct (String.eqb (Animation.phase ay) "decay"); [discriminate | congruence].
  - destruct (String.eqb (Animation.phase ax) "decay"); [discriminate | congruence].
Qed.
End Reading_outside.

(** What [update] makes of the answer of [advance] when an animation is
    playing. *)
Definition finish (x : outcome bool * State) : outcome bool * State :=
  match fst x with
  | Ok true =>
      (Ok true,
       set_console (console (snd x) ++ [Log "Animation complete"])
         (set_isPlaying false (snd x)))
  | Ok false => (Ok false, snd x)
  | Throw error =>
      (Ok true,
       set_isPlaying false
         (set_console (console (snd x) ++ [LogError "Animation update error:" error])
            (snd x)))
  end.

Lemma update_finish delta s :
  is_Some (currentAnimation s) -> isPlaying s = true ->
  update delta s = finish (advance delta s).
Proof.
  intros Hcur Hplay. rewrite update_eq, Hplay.
  rewrite bool_decide_eq_true_2 by exact Hcur. cbn [negb orb].
  unfold try_catch, bind, finish. destruct (advance delta s) as [[[] | e] s1]; reflexivity.
Qed.

Lemma finish_outside (G : list ref) (x y : outcome bool * State) :
  fst x = fst y -> outside G (snd x) = outside G (snd y) ->
  fst (finish x) = fst (finish y) /\
  outside G (snd (finish x)) = outside G (snd (finish y)).
Proof.
  destruct x as [rx sx], y as [ry sy]. cbn [fst snd]. intros <- E.
  unfold finish. cbn [fst snd].
  assert (Econ : console sx = console sy) by exact (f_equal console E).
  destruct rx as [[] | e]; cbn [fst snd]; (split; [reflexivity |]); [| exact E |].
  - transitivity
      (set_console (console sx ++ [Log "Animation complete"])
         (set_isPlaying false (outside G sx))).
    + destruct sx; reflexivity.
    + rewrite E, Econ. destruct sy; reflexivity.
  - transitivity
      (set_isPlaying false
         (set_console (console sx ++ [LogError "Animation update error:" e])
            (outside G sx))).
    + destruct sx; reflexivity.
    + rewrite E, Econ. destruct sy; reflexivity.
Qed.

(** X1.  Take a nonelastic animation whose gamma rays and energy waves
    are separate objects (none of them is an effect, the escaping fragment,
    the target, the first trail or the particle it follows) and can be
    updated without an exception.  From the same state, one [update] in the
    legacy phase [absorption] and one in the phase [decay] give the same
    answer and the same state outside those rays and waves: the same
    effects collection after [updateEffects], the same objects (so the same
    motion of the escaping fragment and the same trail), the same scene, and
    [complete] is reached in the one exactly when it is in the other. *)
Theorem absorption_tick_as_decay_tick (delta : float) (s : State) (a : Animation.t) :
  currentAnimation s = Some a ->
  Animation.type a = "nonelastic" ->
  separated s a = true ->
  fst ((filterEnergyWaves ;;; filterGammaRays) (in_phase "decay" s)) = Ok tt ->
  let G := rays_and_waves a in
  let d := update delta (in_phase "decay" s) in
  let b := update delta (in_phase "absorption" s) in
  fst d = fst b /\
  outside G (snd d) = outside G (snd b) /\
  Animation.effects <$> currentAnimation (snd d)
  = Animation.effects <$> currentAnimation (snd b) /\
  (forall r, r ∉ G -> objects (snd d) !! r = objects (snd b) !! r) /\
  (forall r, r ∉ G -> r ∈ scene (snd d) <-> r ∈ scene (snd b)) /\
  (phase_of (snd d) = Some "complete" <-> phase_of (snd b) = Some "complete").
Proof.
  intros Hcur Htype Hsep HF G d b.
  assert (H : fst d = fst b /\ outside G (snd d) = outside G (snd b)).
  { subst d b.
    destruct (isPlaying s) eqn:Hplay.
    - rewrite !update_finish;
        try (rewrite (entered_current s a Hcur); eauto);
        try (unfold in_phase; destruct s; exact Hplay).
      apply finish_outside.
      all: unfold advance;
        rewrite !(bind_Ok _ _ _ _ _ (getA_Some _ _ _ (entered_current s a Hcur _)));
        replace (Animation.type (Animation.set_phase "decay" a)) with "nonelastic"
          by (rewrite <- Htype; destruct a; reflexivity);
        replace (Animation.type (Animation.set_phase "absorption" a)) with "nonelastic"
          by (rewrite <- Htype; destruct a; reflexivity);
        cbn [String.eqb Ascii.eqb Bool.eqb];
        apply (nonelastic_ticks_agree delta s a Hcur Hsep HF).
    - rewrite !update_eq.
      replace (isPlaying (in_phase "decay" s)) with false
        by (rewrite <- Hplay; unfold in_phase; destruct s; reflexivity).
      replace (isPlaying (in_phase "absorption" s)) with false
        by (rewrite <- Hplay; unfold in_phase; destruct s; reflexivity).
      rewrite !orb_true_r. cbn [fst snd]. split; [reflexivity |].
      unfold in_phase. rewrite Hcur. destruct s, a. reflexivity. }
  destruct H as [Hfst Hout].
  split; [exact Hfst |]. split; [exact Hout |].
  split; [apply (outside_effects G _ _ Hout) |].
  split; [intros r; apply (outside_objects G _ _ Hout) |].
  split; [intros r; apply (outside_scene G _ _ Hout) |].
  apply (outside_complete G _ _ Hout).
Qed.

(** The page's nonelastic scene after 137 frames is such an animation: it
    is in [decay] with four gamma rays and four waves, 51 effects, the
    escaping fragment 3 and its trail 5. *)
Lemma absorption_tick_as_decay_tick_witness :
  exists a,
    currentAnimation (snd (frames 137 (snd (nonelasticScene sample)))) = Some a /\
    fst (update 0.016 (in_phase "decay" (snd (frames 137 (snd (nonelasticScene sample))))))
    = fst (update 0.016
             (in_phase "absorption" (snd (frames 137 (snd (nonelasticScene sample)))))) /\
    outside (rays_and_waves a)
      (snd (update 0.016
              (in_phase "decay" (snd (frames 137 (snd (nonelasticScene sample)))))))
    = outside (rays_and_waves a)
        (snd (update 0.016
                (in_phase "absorption" (snd (frames 137 (snd (nonelasticScene sample))))))).
Proof.
  set (s := snd (frames 137 (snd (nonelasticScene sample)))).
  assert (Htype : Animation.type <$> currentAnimation s = Some "nonelastic")
    by (vm_compute; reflexivity).
  assert (Hsep : separated s <$> currentAnimation s = Some true)
    by (vm_compute; reflexivity).
  assert (HF : fst ((filterEnergyWaves ;;; filterGammaRays) (in_phase "decay" s)) = Ok tt)
    by (vm_compute; reflexivity).
  clearbody s.
  destruct (currentAnimation s) as [a |] eqn:Hcur; [| discriminate].
  injection Htype as Htype. injection Hsep as Hsep.
  exists a. split; [reflexivity |].
  destruct (absorption_tick_as_decay_tick 0.016 s a Hcur Htype Hsep HF)
    as (Hfst & Hout & _).
  split; [exact Hfst | exact Hout].
Defined.

(** * Further properties of the animator *)

(** ** The animator at rest *)

Lemma reset_without_animation (s : State) :
  currentAnimation s = None ->
  reset s = (Ok tt, set_isPlaying false (set_currentAnimation None s)).
Proof.
  intros Hcur. unfold reset. unfold bind at 1, gets. cbv beta iota. rewrite Hcur.
  reflexivity.
Qed.

Lemma update_at_rest (delta : float) (s : State) :
  isPlaying s = false -> update delta s = (Ok false, s).
Proof.
  intros Hplay. rewrite update_eq, Hplay. rewrite orb_true_r. reflexivity.
Qed.

(** X2.  [reset] never raises, whatever the state.  It leaves no current
    animation and the playing flag down; from there every [update] answers
    [false] and changes nothing, and a second [reset] changes nothing. *)
Theorem reset_leaves_the_animator_idle (s : State) :
  exists s1,
    reset s = (Ok tt, s1) /\
    currentAnimation s1 = None /\ isPlaying s1 = false /\
    (forall delta, update delta s1 = (Ok false, s1)) /\
    reset s1 = (Ok tt, s1) /\ cleanup s = (Ok tt, s1).
Proof.
  assert (H : exists s1, reset s = (Ok tt, s1) /\
                         currentAnimation s1 = None /\ isPlaying s1 = false).
  { destruct (currentAnimation s) as [a |] eqn:Hcur.
    - rewrite (reset_eq s a Hcur). eexists. split; [reflexivity |].
      destruct s; split; reflexivity.
    - rewrite (reset_without_animation s Hcur). eexists. split; [reflexivity |].
      destruct s; split; reflexivity. }
  destruct H as (s1 & Hreset & Hnone & Hidle).
  exists s1. split; [exact Hreset |]. split; [exact Hnone |]. split; [exact Hidle |].
  split; [intros delta; apply update_at_rest, Hidle |].
  split; [| exact Hreset].
  rewrite (reset_without_animation s1 Hnone).
  destruct s1 as [objs sc ten tlen tape rpos msin mcos macos con playing spd cur].
  cbn in Hnone, Hidle. subst. reflexivity.
Qed.

(** ** The completion signal *)

Lemma update_true_stops (delta : float) (s : State) :
  fst (update delta s) = Ok true -> isPlaying (snd (update delta s)) = false.
Proof.
  rewrite update_eq.
  destruct (negb (bool_decide (is_Some (currentAnimation s))) || negb (isPlaying s));
    [discriminate |].
  unfold try_catch, bind.
  destruct (advance delta s) as [[[] | e] s1]; cbn; try discriminate; intros _;
    destruct s1; reflexivity.
Qed.

(** X3.  [update] answers [true] at most once for a [play]: when it has
    answered [true], whether on completion or after an exception, every
    further [update] answers [false] and changes nothing, for any deltas. *)
Theorem completion_is_signalled_once (delta : float) (s : State) :
  fst (update delta s) = Ok true ->
  forall deltas delta',
    ticks deltas (snd (update delta s)) = (Ok tt, snd (update delta s)) /\
    update delta' (snd (update delta s)) = (Ok false, snd (update delta s)).
Proof.
  intros Htrue deltas delta'.
  pose proof (update_true_stops delta s Htrue) as Hidle.
  set (s1 := snd (update delta s)) in *. clearbody s1.
  split; [| apply update_at_rest, Hidle].
  induction deltas as [| d deltas IH]; [reflexivity |].
  rewrite ticks_cons, (update_at_rest d s1 Hidle). exact IH.
Qed.

Lemma completion_is_signalled_once_witness :
  fst (update 0.016 (snd (frames 245 (snd (elasticScene sample))))) = Ok true /\
  update 0.016 (snd (update 0.016 (snd (frames 245 (snd (elasticScene sample))))))
  = (Ok false, snd (update 0.016 (snd (frames 245 (snd (elasticScene sample)))))).
Proof.
  set (s := snd (frames 245 (snd (elasticScene sample)))).
  assert (Htrue : fst (update 0.016 s) = Ok true) by (vm_compute; reflexivity).
  clearbody s. split; [exact Htrue |].
  apply (completion_is_signalled_once 0.016 s Htrue [] 0.016).
Defined.

(** ** Starting an animation *)

(** X4.  [play] installs the animation and raises the playing flag only when it
    has read the positions of the projectile and of the target; when either
    is missing it raises, and the current animation and the flag are as
    before.  In both cases the objects and the scene are untouched. *)
Theorem play_is_all_or_nothing (animation : Animation.t) (s : State) :
  objects (snd (play animation s)) = objects s /\
  scene (snd (play animation s)) = scene s /\
  match fst (play animation s) with
  | Ok _ =>
      currentAnimation (snd (play animation s)) = Some animation /\
      isPlaying (snd (play animation s)) = true /\
      (exists p t po to,
         Animation.projectile animation = Some p /\ objects s !! p = Some po /\
         Animation.target animation = Some t /\ objects s !! t = Some to)
  | Throw e =>
      e = TypeError /\
      currentAnimation (snd (play animation s)) = currentAnimation s /\
      isPlaying (snd (play animation s)) = isPlaying s /\
      (Animation.projectile animation = None \/
       Animation.target animation = None \/
       (exists p, Animation.projectile animation = Some p /\ objects s !! p = None) \/
       (exists t, Animation.target animation = Some t /\ objects s !! t = None))
  end.
Proof.
  unfold play, console_log, position_of, getObj, lookupObj, modify, gets, bind, required,
    ret, throw.
  destruct s as [objs sc ten tlen tape rpos msin mcos macos con playing spd cur].
  cbn [objects set_console console].
  destruct (Animation.projectile animation) as [p |]; cbn;
    [| intuition eauto].
  destruct (objs !! p) as [po |] eqn:Hp; cbn; [| intuition eauto].
  destruct (Animation.target animation) as [t |]; cbn; [| intuition eauto].
  destruct (objs !! t) as [to |] eqn:Ht; cbn; [| intuition eauto 10].
  intuition eauto 10.
Qed.

(** ** What a tick leaves alone *)

(** The settings and the host, and how far the store and the random tape
    have got. *)
Definition settled (s0 s : State) : Prop :=
  speed s = speed s0 /\
  trailsEnabled s = trailsEnabled s0 /\
  trailLength s = trailLength s0 /\
  Math_random_tape s = Math_random_tape s0 /\
  Math_sin s = Math_sin s0 /\ Math_cos s = Math_cos s0 /\ Math_acos s = Math_acos s0 /\
  Math_random_pos s0 <= Math_random_pos s /\
  length (objects s0) <= length (objects s) /\
  (is_Some (currentAnimation s0) -> is_Some (currentAnimation s)).

Ltac settled_side :=
  intros;
  lazymatch goal with
  | s : State |- _ =>
      destruct s as [objs sc ten tlen tape rpos msin mcos macos con playing spd cur]
  end;
  unfold settled in *;
  cbv [set_objects set_scene set_trailsEnabled set_Math_random_pos set_console
       set_isPlaying set_speed set_currentAnimation
       objects scene trailsEnabled trailLength Math_random_tape Math_random_pos
       Math_sin Math_cos Math_acos console isPlaying speed currentAnimation] in *;
  rewrite ?length_insert, ?length_app; cbn [length];
  intuition (eauto; lia).

Lemma advance_settled (s0 : State) (delta : float) : inv (settled s0) (advance delta).
Proof.
  unfold advance, updateElasticBreakup, updateNonelasticBreakup, updateInelasticBreakup,
    elasticPhase, nonelasticPhase, inelasticPhase.
  inv_walk settled_side.
Qed.

(** X5.  [update] never changes the speed, the trail settings or the host's
    functions, never rewinds the random tape, never frees a handle and
    never drops the current animation (only [reset] does). *)
Theorem update_keeps_the_settings (delta : float) (s : State) :
  speed (snd (update delta s)) = speed s /\
  trailsEnabled (snd (update delta s)) = trailsEnabled s /\
  trailLength (snd (update delta s)) = trailLength s /\
  Math_random_tape (snd (update delta s)) = Math_random_tape s /\
  Math_sin (snd (update delta s)) = Math_sin s /\
  Math_cos (snd (update delta s)) = Math_cos s /\
  Math_acos (snd (update delta s)) = Math_acos s /\
  Math_random_pos s <= Math_random_pos (snd (update delta s)) /\
  length (objects s) <= length (objects (snd (update delta s))) /\
  (is_Some (currentAnimation s) -> is_Some (currentAnimation (snd (update delta s)))).
Proof.
  change (settled s (snd (update delta s))).
  assert (H : inv (settled s) (update delta)).
  { unfold update.
    apply inv_bind; [apply inv_gets | intro].
    apply inv_bind; [apply inv_gets | intro].
    destruct (_ || _); [apply inv_ret |].
    apply inv_try_catch; [| intro; inv_walk settled_side].
    apply inv_bind; [apply advance_settled | intros []; inv_walk settled_side]. }
  apply H. unfold settled. intuition lia.
Qed.

(** ** The clock of the animation *)

(** The current animation shows the time [t]. *)
Definition clock (t : float) (s : State) : Prop :=
  exists a, currentAnimation s = Some a /\ Animation.time a = t.

Ltac clock_side :=
  intros;
  lazymatch goal with
  | s : State |- _ =>
      destruct s as [objs sc ten tlen tape rpos msin mcos macos con playing spd cur]
  end;
  unfold clock in *;
  cbv [set_objects set_scene set_trailsEnabled set_Math_random_pos set_console
       set_isPlaying set_speed set_currentAnimation
       objects scene trailsEnabled trailLength Math_random_tape Math_random_pos
       Math_sin Math_cos Math_acos console isPlaying speed currentAnimation] in *;
  lazymatch goal with
  | H : exists _, _ |- _ =>
      let a := fresh "a" in
      let Hc := fresh "Hc" in
      let Ht := fresh "Ht" in
      destruct H as (a & Hc & Ht);
      first
        [ exists a; split; [exact Hc | exact Ht]
        | eexists; split; [reflexivity |]; rewrite <- Ht;
          match goal with
          | H1 : ?c = Some ?x, H2 : ?c = Some ?y |- _ =>
              assert (x = y) by congruence; subst y; destruct x; reflexivity
          end ]
  end.

Section Clock.
Variable delta : float.
Variables (s : State) (a : Animation.t).
Hypothesis Hcur : currentAnimation s = Some a.

Lemma enter_clock : clock (Animation.time a + delta * speed s) (enter delta a s).
Proof.
  unfold clock, enter. eexists. split; [destruct s; reflexivity |].
  destruct a; reflexivity.
Qed.

Lemma advance_clock :
  clock (Animation.time a + delta * speed s) (snd (advance delta s)).
Proof.
  unfold advance. rewrite (bind_Ok _ _ _ _ _ (getA_Some _ _ _ Hcur)).
  repeat lazymatch goal with
         | |- context [if ?b then _ else _] => destruct b
         end.
  - rewrite (updateElasticBreakup_enter delta s a Hcur).
    assert (H : inv (clock (Animation.time a + delta * speed s))
                  (elasticPhase (Animation.projectile a) (Animation.target a)
                     (Animation.phase a)))
      by (unfold elasticPhase; inv_walk clock_side).
    apply H, enter_clock.
  - rewrite (updateNonelasticBreakup_enter delta s a Hcur).
    match goal with
    | |- clock _ (snd (?m _)) =>
        assert (H : inv (clock (Animation.time a + delta * speed s)) m)
          by (unfold nonelasticPhase; inv_walk clock_side)
    end.
    apply H, enter_clock.
  - rewrite (updateInelasticBreakup_enter delta s a Hcur).
    assert (H : inv (clock (Animation.time a + delta * speed s))
                  (inelasticPhase (Animation.projectile a) (Animation.target a)
                     (Animation.phase a)))
      by (unfold inelasticPhase; inv_walk clock_side).
    apply H, enter_clock.
  - rewrite (updateNonelasticBreakup_enter delta s a Hcur).
    match goal with
    | |- clock _ (snd (?m _)) =>
        assert (H : inv (clock (Animation.time a + delta * speed s)) m)
          by (unfold nonelasticPhase; inv_walk clock_side)
    end.
    apply H, enter_clock.
Qed.
End Clock.

(** X6.  While an animation is playing, every [update] moves its clock on by
    [delta * speed], whatever the kind and the phase, also when the tick
    completes the animation or ends in an exception. *)
Theorem update_advances_the_clock (delta : float) (s : State) (a : Animation.t) :
  currentAnimation s = Some a ->
  isPlaying s = true ->
  exists a',
    currentAnimation (snd (update delta s)) = Some a' /\
    Animation.time a' = (Animation.time a + delta * speed s)%float.
Proof.
  intros Hcur Hplay.
  rewrite (update_finish delta s) by (rewrite ?Hcur; eauto).
  destruct (advance_clock delta s a Hcur) as (a' & Hcur' & Htime).
  exists a'. split; [| exact Htime].
  unfold finish. destruct (advance delta s) as [[[] | e] s1]; cbn [fst snd] in *;
    destruct s1; exact Hcur'.
Qed.

(** ** What the effect updates never add *)

Lemma inv_filterM_in {A} (I : State -> Prop) (p : A -> M bool) (l : list A) :
  (forall x, x ∈ l -> inv I (p x)) -> inv I (filterM p l).
Proof.
  induction l as [| x l IH]; intros Hp; cbn [filterM].
  - apply inv_ret.
  - apply inv_bind; [apply Hp; left | intro].
    apply inv_bind; [apply IH; intros y Hy; apply Hp; right; exact Hy | intro].
    apply inv_ret.
Qed.

(** The scene and the current animation are as in [s0]. *)
Definition same_scene (s0 s : State) : Prop :=
  scene s = scene s0 /\ currentAnimation s = currentAnimation s0.

Ltac same_scene_side :=
  intros;
  lazymatch goal with
  | s : State |- _ =>
      destruct s as [objs sc ten tlen tape rpos msin mcos macos con playing spd cur]
  end;
  assumption.

(** X7.  [updateExplosion] never touches the scene or the animation: a particle
    it splices out of the array it was given stays on the scene, and in the
    collection the array was copied from.  What it returns is the array it
    was given with some particles left out, in the same order. *)
Theorem updateExplosion_leaves_the_scene (particles : list ref) (s : State) :
  scene (snd (updateExplosion particles s)) = scene s /\
  currentAnimation (snd (updateExplosion particles s)) = currentAnimation s /\
  (forall alive, fst (updateExplosion particles s) = Ok alive ->
                 alive `sublist_of` particles).
Proof.
  assert (H : inv (same_scene s) (updateExplosion particles))
    by (inv_walk same_scene_side).
  destruct (H s) as [Hscene Hcur]; [split; reflexivity |].
  split; [exact Hscene |]. split; [exact Hcur |].
  intros alive Halive. unfold updateExplosion in Halive.
  destruct (bind _ _ s) as [r s'] eqn:E. cbn [fst] in Halive. subst r.
  apply bind_Ok_inv in E as (kept & s1 & Hkept & E). injection E as <- _.
  rewrite <- (rev_involutive particles). apply sublist_rev.
  apply (filterM_sublist _ _ _ _ _ Hkept).
Qed.

(** While a collection [handles] is filtered: the animation is [a], the
    scene has only lost members, and of those of [sc] it has lost none but
    [handles]. *)
Definition shrunk (a : Animation.t) (sc : list ref) (handles : list ref) (s : State) : Prop :=
  currentAnimation s = Some a /\
  scene s `sublist_of` sc /\
  (forall r, r ∈ sc -> r ∉ handles -> r ∈ scene s).

Lemma shrunk_modifyObj a sc handles r f :
  inv (shrunk a sc handles) (modifyObj r f).
Proof.
  unfold modifyObj. apply inv_bind; [apply inv_getObj | intro]. apply inv_modify.
  intros [objs sc' ten tlen tape rpos msin mcos macos con playing spd cur] H. exact H.
Qed.

Lemma shrunk_scene_remove a sc handles r :
  r ∈ handles -> inv (shrunk a sc handles) (scene_remove r).
Proof.
  intros Hr. unfold scene_remove. apply inv_modify.
  intros [objs sc' ten tlen tape rpos msin mcos macos con playing spd cur] (Hcur & Hsub & Hkeep).
  unfold shrunk in *. state_flat. cbv [scene currentAnimation] in *.
  split; [exact Hcur |]. split.
  - etransitivity; [apply sublist_filter | exact Hsub].
  - intros r' Hin Hout. apply list_elem_of_filter. split; [congruence | auto].
Qed.

Ltac shrunk_walk :=
  repeat
    lazymatch goal with
    | |- inv _ (modifyObj _ _) => apply shrunk_modifyObj
    | |- inv _ (scene_remove _) => apply shrunk_scene_remove; assumption
    | |- inv _ (ret _) => apply inv_ret
    | |- inv _ (throw _) => apply inv_throw
    | |- inv _ (required _) => apply inv_required
    | |- inv _ (gets _) => apply inv_gets
    | |- inv _ (lookupObj _) => apply inv_lookupObj
    | |- inv _ (getObj _) => apply inv_getObj
    | |- inv _ (bind _ _) => apply inv_bind; [| intro]
    | |- inv _ (match ?x with _ => _ end) => destruct x
    | |- inv _ ?m => let h := head_of m in unfold h
    end.

Section Filters.
Variables (s : State) (a : Animation.t).
Hypothesis Hcur : currentAnimation s = Some a.

Lemma shrunk_start handles : shrunk a (scene s) handles s.
Proof. split; [exact Hcur |]. split; [reflexivity | auto]. Qed.

(** X8.  The three filters over the animation's collections only ever shrink:
    when [updateEffects], [filterGammaRays] or [filterEnergyWaves] returns,
    its collection is the old one with some members left out, nothing else
    of the animation has changed, and the scene has lost members only, all
    of them members of that collection. *)
Theorem filters_only_shrink (s' : State) :
  (updateEffects s = (Ok tt, s') ->
   exists kept,
     currentAnimation s' = Some (Animation.set_effects kept a) /\
     kept `sublist_of` Animation.effects a /\
     scene s' `sublist_of` scene s /\
     (forall r, r ∈ scene s -> r ∉ Animation.effects a -> r ∈ scene s')) /\
  (filterGammaRays s = (Ok tt, s') ->
   exists rays kept,
     Animation.gammaRays a = Some rays /\
     currentAnimation s' = Some (Animation.set_gammaRays (Some kept) a) /\
     kept `sublist_of` rays /\
     scene s' `sublist_of` scene s /\
     (forall r, r ∈ scene s -> r ∉ rays -> r ∈ scene s')) /\
  (filterEnergyWaves s = (Ok tt, s') ->
   exists waves kept,
     Animation.energyWaves a = Some waves /\
     currentAnimation s' = Some (Animation.set_energyWaves (Some kept) a) /\
     kept `sublist_of` waves /\
     scene s' `sublist_of` scene s /\
     (forall r, r ∈ scene s -> r ∉ waves -> r ∈ scene s')).
Proof.
  split; [| split].
  - unfold updateEffects. rewrite (bind_Ok _ _ _ _ _ (getA_Some _ _ _ Hcur)).
    intros H. apply bind_Ok_inv in H as (kept & s1 & Hkept & H).
    assert (Hinv : inv (shrunk a (scene s) (Animation.effects a))
                     (filterM updateEffect (Animation.effects a))).
    { apply inv_filterM_in. intros e He. shrunk_walk. }
    specialize (Hinv s (shrunk_start _)). rewrite Hkept in Hinv.
    destruct Hinv as (Hcur1 & Hsub & Hkeep). cbn [snd] in *.
    rewrite (modifyA_Some _ _ _ Hcur1) in H. injection H as <-.
    exists kept. split; [destruct s1; reflexivity |].
    split; [apply (filterM_sublist _ _ _ _ _ Hkept) |].
    destruct s1; split; [exact Hsub | exact Hkeep].
  - unfold filterGammaRays. rewrite (bind_Ok _ _ _ _ _ (getA_Some _ _ _ Hcur)).
    destruct (Animation.gammaRays a) as [rays |] eqn:Hrays; [| discriminate].
    change (bind (required (Some rays)) ?k) with (k rays). cbv beta.
    intros H. apply bind_Ok_inv in H as (kept & s1 & Hkept & H).
    assert (Hinv : inv (shrunk a (scene s) rays) (filterM stepGamma rays)).
    { apply inv_filterM_in. intros e He. shrunk_walk. }
    specialize (Hinv s (shrunk_start _)). rewrite Hkept in Hinv.
    destruct Hinv as (Hcur1 & Hsub & Hkeep). cbn [snd] in *.
    rewrite (modifyA_Some _ _ _ Hcur1) in H. injection H as <-.
    exists rays, kept. split; [reflexivity |]. split; [destruct s1; reflexivity |].
    split; [apply (filterM_sublist _ _ _ _ _ Hkept) |].
    destruct s1; split; [exact Hsub | exact Hkeep].
  - unfold filterEnergyWaves. rewrite (bind_Ok _ _ _ _ _ (getA_Some _ _ _ Hcur)).
    destruct (Animation.energyWaves a) as [waves |] eqn:Hwaves; [| discriminate].
    change (bind (required (Some waves)) ?k) with (k waves). cbv beta.
    intros H. apply bind_Ok_inv in H as (kept & s1 & Hkept & H).
    assert (Hinv : inv (shrunk a (scene s) waves) (filterM stepWave waves)).
    { apply inv_filterM_in. intros e He. shrunk_walk. }
    specialize (Hinv s (shrunk_start _)). rewrite Hkept in Hinv.
    destruct Hinv as (Hcur1 & Hsub & Hkeep). cbn [snd] in *.
    rewrite (modifyA_Some _ _ _ Hcur1) in H. injection H as <-.
    exists waves, kept. split; [reflexivity |]. split; [destruct s1; reflexivity |].
    split; [apply (filterM_sublist _ _ _ _ _ Hkept) |].
    destruct s1; split; [exact Hsub | exact Hkeep].
Qed.
End Filters.

(** ** What the factory makes *)

(** [n] objects within [P] were appended to the store, [refs] are their
    handles, [d] draws were taken for each, and the scene and the animation
    are as they were. *)
Definition made (P : Object3D.t -> Prop) (d n : nat) (s : State) (refs : list ref)
    (s' : State) : Prop :=
  refs = seq (length (objects s)) n /\
  (exists new, length new = n /\ Forall P new /\ objects s' = objects s ++ new) /\
  scene s' = scene s /\
  currentAnimation s' = currentAnimation s /\
  console s' = console s /\
  Math_random_pos s' = Math_random_pos s + d * n.

Lemma repeatM_made (P : Object3D.t -> Prop) (d : nat) (m : M ref) n :
  (forall s, wp m (fun r s' => made P d 1 s [r] s') s) ->
  forall s, wp (repeatM n m) (fun refs s' => made P d n s refs s') s.
Proof.
  intros Hm. induction n as [| n IH]; intros s; cbn [repeatM].
  - apply wp_ret. split; [reflexivity |]. split.
    + exists []. rewrite app_nil_r. auto.
    + split; [reflexivity |]. split; [reflexivity |]. split; [reflexivity | nia].
  - apply wp_bind. eapply wp_consequence; [apply Hm |].
    intros r s1 (Hr & (new1 & Hlen1 & HP1 & Hobj1) & Hsc1 & Hcur1 & Hcon1 & Hpos1).
    apply wp_bind. eapply wp_consequence; [apply IH |].
    intros refs s2 (Hrefs & (new2 & Hlen2 & HP2 & Hobj2) & Hsc2 & Hcur2 & Hcon2 & Hpos2).
    apply wp_ret. injection Hr as ->.
    split; [| split; [| split; [| split; [| split]]]].
    + rewrite Hrefs, Hobj1, length_app, Hlen1. cbn [seq length]. do 2 f_equal. lia.
    + exists (new1 ++ new2). rewrite length_app, Hlen1, Hlen2, Hobj2, Hobj1, app_assoc.
      split; [reflexivity |]. split; [apply Forall_app; auto | reflexivity].
    + congruence.
    + congruence.
    + congruence.
    + rewrite Hpos2, Hpos1. nia.
Qed.

Section Rays.
Local Open Scope float_scope.

(** A gamma ray as [createGammaRay] makes it at [origin]. *)
Definition new_ray (origin : Vector3.t) (o : Object3D.t) : Prop :=
  Object3D.position o = origin /\
  exists ud v,
    Object3D.userData o = Some ud /\
    UserData.type ud = Some "gamma" /\
    UserData.life ud = Some 1 /\ UserData.decay ud = Some 0.025 /\
    UserData.velocity ud = Some v.

Lemma createGammaRay_made origin s :
  wp (createGammaRay origin) (fun r s' => made (new_ray origin) 2 1 s [r] s') s.
Proof.
  destruct s as [objs sc ten tlen tape rpos msin mcos macos con playing spd cur].
  unfold createGammaRay.
  do 3 (apply wp_bind, wp_gets; state_norm).
  do 2 (apply wp_bind, wp_Math_random; state_norm).
  apply wp_alloc. unfold made. state_flat.
  split; [reflexivity |]. split.
  - eexists [_]. split; [reflexivity |]. split; [| reflexivity].
    constructor; [| constructor]. split; [reflexivity |].
    eexists _, _. repeat split; reflexivity.
  - split; [reflexivity |]. split; [reflexivity |]. split; [reflexivity | lia].
Qed.

Lemma createGammaRays_made origin count s :
  wp (createGammaRays origin count)
     (fun refs s' => made (new_ray origin) 2 (Num.iterations count) s refs s') s.
Proof.
  unfold createGammaRays. apply repeatM_made. apply createGammaRay_made.
Qed.

Lemma addGammas_spec (rays : list ref) (s : State) (a : Animation.t) (g : list ref) :
  currentAnimation s = Some a ->
  Animation.gammaRays a = Some g ->
  wp (addGammas rays)
     (fun _ s' =>
        currentAnimation s' = Some (Animation.set_gammaRays (Some (g ++ rays)) a) /\
        objects s' = objects s /\
        Math_random_pos s' = Math_random_pos s /\
        console s' = console s /\
        forall x, x ∈ scene s' <-> x ∈ scene s \/ x ∈ rays) s.
Proof.
  revert s a g. induction rays as [| r rays IH]; intros s a g Hcur Hg;
    unfold addGammas; cbn [forEach].
  - apply wp_ret. rewrite app_nil_r. split; [| split; [| split; [| split]]]; auto.
    + rewrite Hcur, <- Hg. destruct a; reflexivity.
    + intros x. rewrite elem_of_nil. tauto.
  - fold (addGammas rays). apply wp_bind. apply wp_bind, wp_modify.
    unfold push_gammaRays.
    apply wp_bind. eapply wp_getA; [destruct s; exact Hcur |].
    rewrite Hg. apply wp_bind, wp_ret.
    eapply wp_modifyA; [destruct s; exact Hcur |].
    eapply wp_consequence.
    { apply (IH _ (Animation.set_gammaRays (Some (g ++ [r])) a) (g ++ [r]));
        [destruct s; reflexivity | destruct a; reflexivity]. }
    intros _ s' (Hcur' & Hobj & Hpos & Hcon & Hsc).
    split; [| split; [| split; [| split]]].
    + rewrite Hcur'. rewrite <- app_assoc. destruct a; reflexivity.
    + rewrite Hobj. destruct s; reflexivity.
    + rewrite Hpos. destruct s; reflexivity.
    + rewrite Hcon. destruct s; reflexivity.
    + intros x. rewrite Hsc. destruct s. state_flat.
      rewrite elem_of_app, list_elem_of_filter, list_elem_of_singleton, elem_of_cons.
      destruct (decide (x = r)); intuition congruence.
Qed.
End Rays.

Section Emission.
Local Open Scope float_scope.

(** X9.  [emitGammaRays] draws once for the count and twice for each ray.  The
    rays are new objects at the position of the target, and each of them is
    both appended to the animation's gamma rays and put on the scene, so
    none is on the scene without being tracked.  Nothing else on the scene
    or in the store changes. *)
Theorem emitted_rays_are_tracked
    (s : State) (a : Animation.t) (t : ref) (to : Object3D.t) (g : list ref) :
  currentAnimation s = Some a ->
  Animation.target a = Some t ->
  objects s !! t = Some to ->
  Animation.gammaRays a = Some g ->
  let count := 3 + Num.Math_floor (Math_random_tape s (Math_random_pos s) * 3) in
  let rays := seq (length (objects s)) (Num.iterations count) in
  exists s' new,
    emitGammaRays s = (Ok tt, s') /\
    currentAnimation s' = Some (Animation.set_gammaRays (Some (g ++ rays)) a) /\
    objects s' = objects s ++ new /\
    length new = length rays /\
    Forall (new_ray (Object3D.position to)) new /\
    (forall x, x ∈ scene s' <-> x ∈ scene s \/ x ∈ rays) /\
    Math_random_pos s' = (Math_random_pos s + 1 + 2 * length rays)%nat /\
    console s' = console s ++ [LogNumber "Emitting gamma rays from de-excitation:" count].
Proof.
  intros Hcur Htarget Hto Hg count rays. subst count rays.
  set (count := 3 + Num.Math_floor (Math_random_tape s (Math_random_pos s) * 3)).
  set (rays := seq (length (objects s)) (Num.iterations count)).
  assert (H : wp emitGammaRays
                (fun _ s' =>
                   exists new,
                     currentAnimation s' = Some (Animation.set_gammaRays (Some (g ++ rays)) a) /\
                     objects s' = objects s ++ new /\
                     length new = length rays /\
                     Forall (new_ray (Object3D.position to)) new /\
                     (forall x, x ∈ scene s' <-> x ∈ scene s \/ x ∈ rays) /\
                     Math_random_pos s' = (Math_random_pos s + 1 + 2 * length rays)%nat /\
                     console s'
                     = console s ++ [LogNumber "Emitting gamma rays from de-excitation:" count])
                s).
  { unfold emitGammaRays.
    apply wp_bind. eapply wp_getA; [exact Hcur |]. rewrite Htarget.
    apply wp_bind, wp_ret.
    apply wp_bind. unfold position_of. apply wp_bind.
    eapply wp_getObj; [exact Hto |]. apply wp_ret.
    apply wp_bind, wp_Math_random.
    apply wp_bind. eapply wp_consequence; [apply createGammaRays_made |].
    intros refs s1 (Hrefs & (new & Hlen & Hnew & Hobj) & Hsc & Hcur1 & Hcon & Hpos).
    assert (Hrays : refs = rays).
    { rewrite Hrefs. destruct s; reflexivity. }
    subst refs.
    apply wp_bind. eapply wp_consequence.
    { apply (addGammas_spec rays s1 a g); [| exact Hg].
      rewrite Hcur1. destruct s; exact Hcur. }
    intros _ s2 (Hcur2 & Hobj2 & Hpos2 & Hcon2 & Hsc2).
    unfold console_log. apply wp_modify.
    exists new.
    destruct s as [objs sc ten tlen tape rpos msin mcos macos con playing spd cur].
    destruct s1 as [objs1 sc1 ten1 tlen1 tape1 rpos1 msin1 mcos1 macos1 con1 playing1 spd1 cur1].
    destruct s2 as [objs2 sc2 ten2 tlen2 tape2 rpos2 msin2 mcos2 macos2 con2 playing2 spd2 cur2].
    subst rays count.
    state_flat. cbv [objects scene currentAnimation Math_random_pos console
                     Math_random_tape set_Math_random_pos] in *.
    subst. rewrite length_seq.
    repeat split; try assumption; try reflexivity.
    - apply Hsc2.
    - apply Hsc2.
    - lia. }
  destruct H as ([] & s' & Hrun & new & H). exists s', new. split; [exact Hrun | exact H].
Qed.
End Emission.

Section Sparks.
Local Open Scope float_scope.

(** An explosion particle as [createExplosion] makes it at [position]. *)
Definition new_spark (position : Vector3.t) (o : Object3D.t) : Prop :=
  Object3D.position o = position /\
  is_Some (Object3D.material o) /\
  exists ud v decay,
    Object3D.userData o = Some ud /\
    UserData.life ud = Some 1 /\
    UserData.velocity ud = Some v /\ UserData.decay ud = Some decay.

Lemma createExplosionParticle_made position s :
  wp (createExplosionParticle position)
     (fun r s' => made (new_spark position) 4 1 s [r] s') s.
Proof.
  destruct s as [objs sc ten tlen tape rpos msin mcos macos con playing spd cur].
  unfold createExplosionParticle.
  do 3 (apply wp_bind, wp_gets; state_norm).
  do 4 (apply wp_bind, wp_Math_random; state_norm).
  apply wp_alloc. unfold made. state_flat.
  split; [reflexivity |]. split.
  - eexists [_]. split; [reflexivity |]. split; [| reflexivity].
    constructor; [| constructor]. split; [reflexivity |]. split; [eexists; reflexivity |].
    eexists _, _, _. repeat split; reflexivity.
  - split; [reflexivity |]. split; [reflexivity |]. split; [reflexivity | lia].
Qed.

(** X10.  The two factories with a loop.  [createExplosion] always makes 50
    particles and takes 200 draws.  For a [count] of at most 2^53 (or NaN),
    for which its loop ends, [createGammaRays] makes as many rays as the loop
    has rounds (none for a count that is NaN or not positive) and takes two
    draws for each.  The objects are new, their handles follow the store in
    order, and neither factory touches the scene or the animation: putting
    them there is the caller's. *)
Theorem factories_make_new_objects (s : State) :
  (forall position,
     exists s' new,
       createExplosion position s = (Ok (seq (length (objects s)) 50), s') /\
       objects s' = objects s ++ new /\ length new = 50%nat /\
       Forall (new_spark position) new /\
       scene s' = scene s /\ currentAnimation s' = currentAnimation s /\
       Math_random_pos s' = (Math_random_pos s + 200)%nat) /\
  (forall origin count,
     Num.loop_ends count = true ->
     exists s' new,
       createGammaRays origin count s
       = (Ok (seq (length (objects s)) (Num.iterations count)), s') /\
       objects s' = objects s ++ new /\ length new = Num.iterations count /\
       Forall (new_ray origin) new /\
       scene s' = scene s /\ currentAnimation s' = currentAnimation s /\
       Math_random_pos s' = (Math_random_pos s + 2 * Num.iterations count)%nat).
Proof.
  split.
  - intros position.
    destruct (repeatM_made (new_spark position) 4 (createExplosionParticle position) 50
                (createExplosionParticle_made position) s)
      as (refs & s' & Hrun & Hrefs & (new & Hlen & Hnew & Hobj) & Hsc & Hcur & _ & Hpos).
    exists s', new. subst refs. unfold createExplosion. auto 10.
  - intros origin count _.
    destruct (createGammaRays_made origin count s)
      as (refs & s' & Hrun & Hrefs & (new & Hlen & Hnew & Hobj) & Hsc & Hcur & _ & Hpos).
    exists s', new. subst refs. auto 10.
Qed.
End Sparks.

Lemma factories_make_new_objects_witness :
  Num.loop_ends 4 = true /\
  exists s' new,
    createGammaRays Vector3.zero 4 sample = (Ok [0; 1; 2; 3]%nat, s') /\
    objects s' = objects sample ++ new /\ length new = 4%nat.
Proof.
  split; [reflexivity |].
  destruct (proj2 (factories_make_new_objects sample) Vector3.zero 4%float eq_refl)
    as (s' & new & Hrun & Hobj & Hlen & _).
  exists s', new. split; [exact Hrun |]. split; [exact Hobj | exact Hlen].
Defined.

(** ** Placing the projectile *)

Section Placement.
Local Open Scope float_scope.

(** Where the creators put the projectile: 12 to the left of the target,
    at height [impactParam] over the axis, in the plane. *)
Definition startPosition (target : Object3D.t) (impactParam : float) : Vector3.t :=
  Vector3.mk (Vector3.x (Object3D.position target) - 12) impactParam 0.

(** X11.  The three creators place the projectile in the same way, whatever its
    position before and whatever the height of the target: at
    [startPosition], with velocity (0.2, 0, 0).  They change no other
    object, put nothing on the scene, install nothing in the animator and
    write one line to the console; the animation they return is in
    [approach] at time 0 with empty collections.  When the projectile has no [userData]
    they raise, and the projectile has been moved all the same. *)
Theorem creators_place_the_projectile
    (s : State) (projectile target : ref) (impactParam : float) (p t : Object3D.t) :
  objects s !! projectile = Some p ->
  objects s !! target = Some t ->
  let start := startPosition t impactParam in
  let moved := <[projectile := Object3D.set_position start p]> (objects s) in
  let placed ud :=
    <[projectile :=
        Object3D.set_userData (Some (UserData.set_velocity (Vector3.mk 0.2 0 0) ud))
          (Object3D.set_position start p)]> (objects s) in
  let outcome create kind entry (extra : Animation.t -> Prop) :=
    match Object3D.userData p with
    | Some ud =>
        exists a,
          create projectile target impactParam s
          = (Ok a, set_console (console s ++ [entry]) (set_objects (placed ud) s)) /\
          Animation.type a = kind /\
          Animation.projectile a = Some projectile /\ Animation.target a = Some target /\
          Animation.phase a = "approach" /\ Animation.time a = 0 /\
          Animation.impactParam a = impactParam /\
          Animation.fragments a = [] /\ Animation.trails a = [] /\
          Animation.effects a = [] /\ extra a
    | None =>
        create projectile target impactParam s = (Throw TypeError, set_objects moved s)
    end in
  outcome createElasticBreakup "elastic"
    (LogVector "Elastic breakup created, projectile at:" start)
    (fun a => Animation.gammaRays a = None /\ Animation.energyWaves a = None) /\
  outcome createNonelasticBreakup "nonelastic"
    (LogVector "Nonelastic breakup created, projectile at:" start)
    (fun a => Animation.gammaRays a = Some [] /\ Animation.energyWaves a = Some [] /\
              Animation.resonanceTime a = Some 0 /\
              Animation.maxResonanceTime a = Some 80) /\
  outcome createInelasticBreakup "inelastic" (Log "Inelastic breakup created")
    (fun a => Animation.gammaRays a = Some [] /\ Animation.energyWaves a = Some [] /\
              Animation.excitedTarget a = None).
Proof.
  intros Hp Ht start moved placed outcome.
  assert (Hlt : projectile < length (objects s)) by (eapply lookup_lt_Some, Hp).
  assert (Hplace :
            placeProjectile projectile target impactParam s
            = match Object3D.userData p with
              | Some ud => (Ok tt, set_objects (placed ud) s)
              | None => (Throw TypeError, set_objects moved s)
              end).
  { unfold placeProjectile.
    rewrite (bind_Ok _ _ _ _ _ (getObj_eq _ _ _ Ht)).
    cbv zeta.
    rewrite (bind_Ok _ _ _ _ _ (modifyObj_eq _ _ _ _ Hp)).
    match goal with
    | |- context [set_objects (<[projectile := ?o']> (objects s)) s] =>
        pose proof (lookup_modified projectile p o' s Hp) as Hmoved
    end.
    pose proof (getUserData_eq _ _ _ Hmoved) as Hread.
    cbn [Object3D.userData Object3D.set_position] in Hread.
    destruct (Object3D.userData p) as [ud |] eqn:Hud;
      [rewrite (bind_Ok _ _ _ _ _ Hread) | rewrite (bind_Throw _ _ _ _ _ Hread); reflexivity].
    unfold modifyUserData. rewrite (modifyObj_eq _ _ _ _ Hmoved).
    cbn [Object3D.userData Object3D.set_position].
    rewrite Hud. unfold placed.
    destruct s as [objs sc ten tlen tape rpos msin mcos macos con playing spd cur]. cbn [objects set_objects fmap option_fmap option_map].
    rewrite list_insert_insert_eq. reflexivity. }
  assert (Hread : forall ud,
            objects (set_objects (placed ud) s) !! projectile
            = Some (Object3D.set_userData
                      (Some (UserData.set_velocity (Vector3.mk 0.2 0 0) ud))
                      (Object3D.set_position start p))).
  { intros ud. destruct s as [objs sc ten tlen tape rpos msin mcos macos con playing spd cur]. unfold placed. cbn [objects set_objects].
    apply list_lookup_insert_eq. exact Hlt. }
  unfold outcome, createElasticBreakup, createNonelasticBreakup, createInelasticBreakup.
  destruct (Object3D.userData p) as [ud |] eqn:Hud.
  - repeat split; eexists;
      (split;
       [ cbv zeta; rewrite (bind_Ok _ _ _ _ _ Hplace); cbv beta;
         try erewrite bind_Ok by (apply getObj_eq, Hread);
         destruct s as [objs sc ten tlen tape rpos msin mcos macos con playing spd cur];
         reflexivity
       | repeat split; reflexivity ]).
  - repeat split; rewrite (bind_Throw _ _ _ _ _ Hplace); reflexivity.
Qed.
End Placement.

(** ** Worked instances *)

Lemma update_advances_the_clock_witness :
  exists a a',
    currentAnimation (snd (elasticScene sample)) = Some a /\
    currentAnimation (snd (update 0.016 (snd (elasticScene sample)))) = Some a' /\
    Animation.time a' = (Animation.time a + 0.016 * speed (snd (elasticScene sample)))%float.
Proof.
  set (s := snd (elasticScene sample)).
  assert (Hplay : isPlaying s = true) by (vm_compute; reflexivity).
  assert (Hsome : is_Some (currentAnimation s)) by (vm_compute; eauto).
  clearbody s. destruct Hsome as [a Hcur].
  destruct (update_advances_the_clock 0.016 s a Hcur Hplay) as (a' & Hcur' & Htime).
  exists a, a'. auto.
Defined.

Lemma filters_only_shrink_witness :
  exists a kept,
    currentAnimation (snd (frames 137 (snd (nonelasticScene sample)))) = Some a /\
    currentAnimation (snd (updateEffects (snd (frames 137 (snd (nonelasticScene sample))))))
    = Some (Animation.set_effects kept a) /\
    kept `sublist_of` Animation.effects a.
Proof.
  set (s := snd (frames 137 (snd (nonelasticScene sample)))).
  assert (Hrun : fst (updateEffects s) = Ok tt) by (vm_compute; reflexivity).
  assert (Hsome : is_Some (currentAnimation s)) by (vm_compute; eauto).
  clearbody s. destruct Hsome as [a Hcur].
  destruct (filters_only_shrink s a Hcur (snd (updateEffects s))) as (Heffects & _).
  destruct Heffects as (kept & Hcur' & Hsub & _).
  { destruct (updateEffects s) as [r s']. cbn [fst snd] in *. rewrite Hrun. reflexivity. }
  exists a, kept. auto.
Defined.

Lemma emitted_rays_are_tracked_witness :
  exists a s',
    currentAnimation (snd (nonelasticScene sample)) = Some a /\
    emitGammaRays (snd (nonelasticScene sample)) = (Ok tt, s') /\
    Animation.gammaRays <$> currentAnimation s' = Some (Some [3; 4; 5; 6]).
Proof.
  set (s := snd (nonelasticScene sample)).
  assert (Htarget : Animation.target <$> currentAnimation s = Some (Some 0))
    by (vm_compute; reflexivity).
  assert (Hg : Animation.gammaRays <$> currentAnimation s = Some (Some []))
    by (vm_compute; reflexivity).
  assert (Hto : is_Some (objects s !! 0)) by (vm_compute; eauto).
  assert (Hrays : seq (length (objects s))
                    (Num.iterations
                       (3 + Num.Math_floor (Math_random_tape s (Math_random_pos s) * 3)))
                  = [3; 4; 5; 6]) by (vm_compute; reflexivity).
  clearbody s. destruct Hto as [to Hto].
  destruct (currentAnimation s) as [a |] eqn:Hcur; [| discriminate].
  injection Htarget as Htarget. injection Hg as Hg.
  destruct (emitted_rays_are_tracked s a 0 to [] Hcur Htarget Hto Hg)
    as (s' & new & Hrun & Hcur' & _).
  exists a, s'. split; [reflexivity |]. split; [exact Hrun |].
  rewrite Hcur', Hrays. destruct a; reflexivity.
Defined.

Lemma creators_place_the_projectile_witness :
  exists a s',
    createElasticBreakup 1 0 3 (snd (initComparisonScene sample)) = (Ok a, s') /\
    Animation.phase a = "approach" /\
    Object3D.position <$> objects s' !! 1 = Some (Vector3.mk (-9) 3 0).
Proof.
  set (s := snd (initComparisonScene sample)).
  assert (Hp : is_Some (objects s !! 1)) by (vm_compute; eauto).
  assert (Ht : is_Some (objects s !! 0)) by (vm_compute; eauto).
  destruct Hp as [p Hp]. destruct Ht as [t Ht].
  assert (Hud : is_Some (Object3D.userData p)).
  { vm_compute in Hp. injection Hp as <-. eauto. }
  assert (Hx : Vector3.x (Object3D.position t) = 3%float).
  { vm_compute in Ht. injection Ht as <-. reflexivity. }
  assert (Hlt : 1 < length (objects s)) by (eapply lookup_lt_Some, Hp).
  clearbody s. destruct Hud as [ud Hud].
  destruct (creators_place_the_projectile s 1 0 3 p t Hp Ht) as (Helastic & _).
  rewrite Hud in Helastic. destruct Helastic as (a & Hrun & _ & _ & _ & Hphase & _).
  eexists a, _. split; [exact Hrun |]. split; [exact Hphase |].
  destruct s as [objs sc ten tlen tape rpos msin mcos macos con playing spd cur].
  cbn [objects set_objects set_console] in *.
  rewrite list_lookup_insert_eq by exact Hlt.
  cbn. unfold startPosition. rewrite Hx. reflexivity.
Defined.

(** * What the ticks add to the scene *)

(** What the scene bookkeeping can see of a state: the scene, the current
    animation and the console.  Updates of objects, allocations and draws
    leave it alone. *)
Record View := mkView {
  v_scene : list ref;
  v_animation : option Animation.t;
  v_console : list LogEntry
}.

Definition view (s : State) : View :=
  mkView (scene s) (currentAnimation s) (console s).

(** From a state with view [v], [m] answers [a] in a view within [Q a], or
    raises in a view within [E]. *)
Definition wpv {A} (m : M A) (Q : A -> View -> Prop) (E : View -> Prop) (v : View) : Prop :=
  forall s, view s = v ->
    match m s with
    | (Ok a, s') => Q a (view s')
    | (Throw _, s') => E (view s')
    end.

(** [m] leaves the view alone. *)
Definition quiet {A} (m : M A) : Prop := forall s, view (snd (m s)) = view s.

Section Views.
Context {A : Type}.
Variables (Q : A -> View -> Prop) (E : View -> Prop) (v : View).

Lemma wpv_ret (a : A) : Q a v -> wpv (ret a) Q E v.
Proof. intros H s <-. exact H. Qed.

Lemma wpv_throw e : E v -> wpv (@throw A e) Q E v.
Proof. intros H s <-. exact H. Qed.

Lemma wpv_required (o : option A) :
  match o with Some a => Q a v | None => E v end -> wpv (required o) Q E v.
Proof. destruct o; [apply wpv_ret | apply wpv_throw]. Qed.

Lemma wpv_bind {B} (m : M B) (k : B -> M A) :
  wpv m (fun b v' => wpv (k b) Q E v') E v -> wpv (bind m k) Q E v.
Proof.
  intros H s Hv. specialize (H s Hv). unfold bind.
  destruct (m s) as [[b | e] s1]; [apply H; reflexivity | exact H].
Qed.

Lemma wpv_quiet (m : M A) : quiet m -> E v -> (forall a, Q a v) -> wpv m Q E v.
Proof.
  intros Hm He Hq s Hv. specialize (Hm s). rewrite Hv in Hm.
  destruct (m s) as [[a | e] s1]; cbn [snd] in Hm; rewrite Hm; auto.
Qed.

Lemma wpv_getA (f : Animation.t -> A) :
  match v_animation v with Some a => Q (f a) v | None => E v end ->
  wpv (getA f) Q E v.
Proof.
  intros H s <-. unfold getA, bind, gets, required, ret, throw. cbn [view v_animation] in H.
  destruct (currentAnimation s); exact H.
Qed.

Lemma wpv_consequence (Q' : A -> View -> Prop) (E' : View -> Prop) (m : M A) :
  wpv m Q' E' v -> (forall a v', Q' a v' -> Q a v') -> (forall v', E' v' -> E v') ->
  wpv m Q E v.
Proof.
  intros H HQ HE s Hv. specialize (H s Hv). destruct (m s) as [[a | e] s1]; auto.
Qed.

Lemma wpv_post (Q' : A -> View -> Prop) (m : M A) :
  wpv m Q' E v -> (forall a v', Q' a v' -> Q a v') -> wpv m Q E v.
Proof. intros H HQ. apply (wpv_consequence Q' E m H HQ). auto. Qed.
End Views.

Section Views_unit.
Variables (Q : unit -> View -> Prop) (E : View -> Prop) (v : View).

Lemma wpv_modifyA (f : Animation.t -> Animation.t) :
  match v_animation v with
  | Some a => Q tt (mkView (v_scene v) (Some (f a)) (v_console v))
  | None => E v
  end ->
  wpv (modifyA f) Q E v.
Proof.
  intros H s <-. unfold modifyA, bind, gets, required, ret, throw, modify.
  cbn [view v_animation v_scene v_console] in H.
  destruct s as [objs sc ten tlen tape rpos msin mcos macos con playing spd [a |]]; exact H.
Qed.

Lemma wpv_scene_add (r : ref) :
  Q tt (mkView (filter (fun r' => r' <> r) (v_scene v) ++ [r]) (v_animation v) (v_console v)) ->
  wpv (scene_add r) Q E v.
Proof. intros H s <-. destruct s; exact H. Qed.

Lemma wpv_scene_remove (r : ref) :
  Q tt (mkView (filter (fun r' => r' <> r) (v_scene v)) (v_animation v) (v_console v)) ->
  wpv (scene_remove r) Q E v.
Proof. intros H s <-. destruct s; exact H. Qed.

Lemma wpv_console_log (e : LogEntry) :
  Q tt (mkView (v_scene v) (v_animation v) (v_console v ++ [e])) ->
  wpv (console_log e) Q E v.
Proof. intros H s <-. destruct s; exact H. Qed.
End Views_unit.

(** Loops, by an invariant of the view. *)
Lemma wpv_forEach {A} (I : View -> Prop) (f : A -> M unit) (l : list A)
    (Q : unit -> View -> Prop) (E : View -> Prop) (v : View) :
  I v ->
  (forall x v', x ∈ l -> I v' -> wpv (f x) (fun _ => I) E v') ->
  (forall v', I v' -> Q tt v') ->
  wpv (forEach f l) Q E v.
Proof.
  intros Hv Hf HQ. revert v Hv. induction l as [| x l IH]; intros v Hv; cbn [forEach].
  - apply wpv_ret, HQ, Hv.
  - apply wpv_bind. eapply wpv_consequence; [apply (Hf x v); [left | exact Hv] | | auto].
    intros [] v' Hv'. apply IH; [| exact Hv'].
    intros y v'' Hy. apply Hf. right. exact Hy.
Qed.

(** A [filter] whose callback keeps the animation and the console, only
    removes from the scene, and (when [strict]) has removed the member it
    answers [false] for. *)
Definition thinned (strict : bool) (v : View) (l kept : list ref) (v' : View) : Prop :=
  v_animation v' = v_animation v /\ v_console v' = v_console v /\
  (forall r, r ∈ v_scene v' -> r ∈ v_scene v) /\
  (forall r, r ∈ kept -> r ∈ l) /\
  (strict = true -> forall r, r ∈ l -> r ∉ kept -> r ∉ v_scene v').

Lemma thinned_refl (strict : bool) (v : View) : thinned strict v [] [] v.
Proof.
  unfold thinned. split; [reflexivity |]. split; [reflexivity |]. split; [auto |].
  split; [auto |]. intros _ r Hr. apply elem_of_nil in Hr as [].
Qed.

Lemma thinned_cons (strict : bool) (v v1 v2 : View) (x : ref) (keep : bool)
    (l rest : list ref) :
  thinned strict v [x] (if keep then [x] else []) v1 ->
  thinned strict v1 l rest v2 ->
  thinned strict v (x :: l) (if keep then x :: rest else rest) v2.
Proof.
  intros (Ha1 & Hc1 & Hs1 & _ & Hd1) (Ha2 & Hc2 & Hs2 & Hk2 & Hd2).
  unfold thinned. split; [congruence |]. split; [congruence |]. split; [auto |]. split.
  - intros r Hr. destruct keep; [apply elem_of_cons in Hr as [-> | Hr] |];
      [left | right; auto | right; auto].
  - intros Hstrict r Hr Hout. apply elem_of_cons in Hr as [-> | Hr].
    + destruct keep; [exfalso; apply Hout; left |].
      intros Hin. apply (Hd1 Hstrict x); [left | | apply Hs2, Hin].
      intros H. apply elem_of_nil in H as [].
    + apply Hd2; auto. intros Hin. apply Hout. destruct keep; [right |]; exact Hin.
Qed.

(** The console and the animation of [v'] are those of [v]. *)
Definition still (v v' : View) : Prop :=
  v_console v' = v_console v /\ v_animation v' = v_animation v.

Lemma wpv_filterM (strict : bool) (p : ref -> M bool) (l : list ref)
    (E : View -> Prop) (v : View) :
  (forall x v', still v v' ->
                wpv (p x)
                  (fun keep v'' => thinned strict v' [x] (if keep then [x] else []) v'') E v') ->
  wpv (filterM p l) (fun kept v' => thinned strict v l kept v') E v.
Proof.
  intros Hp.
  enough (H : forall v', still v v' ->
                         wpv (filterM p l) (fun kept v'' => thinned strict v' l kept v'') E v')
    by (apply H; split; reflexivity).
  induction l as [| x l IH]; intros v' Hv'; cbn [filterM].
  - apply wpv_ret, thinned_refl.
  - apply wpv_bind. eapply wpv_consequence; [apply Hp, Hv' | | auto].
    intros keep v1 H1. cbv beta.
    apply wpv_bind. eapply wpv_consequence; [apply IH | | auto].
    + destruct Hv' as [Hc Ha], H1 as (Ha1 & Hc1 & _). split; congruence.
    + intros rest v2 H2. cbv beta. apply wpv_ret. exact (thinned_cons _ _ _ _ _ _ _ _ H1 H2).
Qed.

(** [list.forEach(o => scene.add(o))] *)
Lemma wpv_add_all (l : list ref) (Q : unit -> View -> Prop) (E : View -> Prop) (v : View) :
  (forall sc', (forall r, r ∈ sc' -> r ∈ v_scene v \/ r ∈ l) ->
               Q tt (mkView sc' (v_animation v) (v_console v))) ->
  wpv (forEach scene_add l) Q E v.
Proof.
  intros HQ.
  apply (wpv_forEach
           (fun v' => v_animation v' = v_animation v /\ v_console v' = v_console v /\
                      forall r, r ∈ v_scene v' -> r ∈ v_scene v \/ r ∈ l)).
  - auto.
  - intros x [vs va vc] Hx (Ha & Hc & Hs). cbn [v_scene v_animation v_console] in *.
    apply wpv_scene_add. cbn [v_scene v_animation v_console].
    split; [exact Ha |]. split; [exact Hc |].
    intros r Hr. apply elem_of_app in Hr as [Hr | Hr].
    + apply list_elem_of_filter in Hr as [_ Hr]. auto.
    + apply list_elem_of_singleton in Hr as ->. auto.
  - intros [vs va vc] (Ha & Hc & Hs). cbn [v_scene v_animation v_console] in *.
    subst va vc. apply HQ, Hs.
Qed.

Ltac fields_in_goal :=
  cbn [Animation.type Animation.projectile Animation.target Animation.phase Animation.time
       Animation.impactParam
       Animation.fragments Animation.trails Animation.effects Animation.absorbedFragment
       Animation.escapingFragment Animation.compoundNucleus Animation.excitedTarget
       Animation.gammaRays Animation.energyWaves Animation.resonanceTime
       Animation.maxResonanceTime
       Animation.set_phase Animation.set_time Animation.set_fragments Animation.set_trails
       Animation.set_effects Animation.set_absorbedFragment Animation.set_escapingFragment
       Animation.set_compoundNucleus Animation.set_excitedTarget Animation.set_gammaRays
       Animation.set_energyWaves Animation.set_resonanceTime
       default from_option id option_list option_rect fmap option_fmap option_map
       v_scene v_animation v_console fst snd].

Ltac fields :=
  cbn [Animation.type Animation.projectile Animation.target Animation.phase Animation.time
       Animation.impactParam
       Animation.fragments Animation.trails Animation.effects Animation.absorbedFragment
       Animation.escapingFragment Animation.compoundNucleus Animation.excitedTarget
       Animation.gammaRays Animation.energyWaves Animation.resonanceTime
       Animation.maxResonanceTime
       Animation.set_phase Animation.set_time Animation.set_fragments Animation.set_trails
       Animation.set_effects Animation.set_absorbedFragment Animation.set_escapingFragment
       Animation.set_compoundNucleus Animation.set_excitedTarget Animation.set_gammaRays
       Animation.set_energyWaves Animation.set_resonanceTime
       default from_option id option_list option_rect fmap option_fmap option_map
       v_scene v_animation v_console fst snd] in *.

(** ** Code that leaves the view alone *)

Ltac quiet_side :=
  intros;
  lazymatch goal with
  | s : State |- _ =>
      destruct s as [objs sc ten tlen tape rpos msin mcos macos con playing spd cur]
  end;
  assumption.

Lemma quiet_inv {A} (m : M A) :
  (forall v, inv (fun s => view s = v) m) -> quiet m.
Proof. intros H s. apply (H (view s) s). reflexivity. Qed.

Ltac quiet_walk := apply quiet_inv; intro; inv_walk quiet_side.

(** The methods that touch the scene, the animation or the console. *)
Ltac loud m :=
  lazymatch m with
  | context [modifyA] => idtac
  | context [scene_add] => idtac
  | context [scene_remove] => idtac
  | context [console_log] => idtac
  | context [push_fragments] => idtac
  | context [push_trails] => idtac
  | context [push_effects] => idtac
  | context [push_gammaRays] => idtac
  | context [push_energyWaves] => idtac
  | context [addGammas] => idtac
  | context [stepGamma] => idtac
  | context [stepWave] => idtac
  | context [updateEffect] => idtac
  | context [updateEffects] => idtac
  | context [filterGammaRays] => idtac
  | context [filterEnergyWaves] => idtac
  | context [emitGammaRays] => idtac
  | context [emitTargetGammas] => idtac
  | context [createCompoundNucleusEffect] => idtac
  | context [initiateDecayPhase] => idtac
  | context [initiateElasticBreakup] => idtac
  | context [initiateNonelasticBreakup] => idtac
  | context [initiateInelasticBreakup] => idtac
  end.

Ltac by_quiet :=
  lazymatch goal with
  | |- wpv ?m _ _ _ => tryif loud m then fail else idtac
  end;
  apply wpv_quiet; [solve [quiet_walk] | | intro].

(** Walk a method body, keeping the view symbolic. *)
Ltac view_tidy := cbv beta; fields_in_goal.

(** A case split that remembers what was found, and reuses it. *)
Ltac split_on x :=
  first
    [ match goal with H : x = _ |- _ => rewrite H end
    | destruct x eqn:? ].

Ltac view_prim :=
  lazymatch goal with
  | |- wpv (ret _) _ _ _ => apply wpv_ret
  | |- wpv (throw _) _ _ _ => apply wpv_throw
  | |- wpv (required _) _ _ _ => apply wpv_required
  | |- wpv (getA _) _ _ _ => apply wpv_getA
  | |- wpv (modifyA _) _ _ _ => apply wpv_modifyA
  | |- wpv (scene_add _) _ _ _ => apply wpv_scene_add
  | |- wpv (scene_remove _) _ _ _ => apply wpv_scene_remove
  | |- wpv (console_log _) _ _ _ => apply wpv_console_log
  | |- wpv (forEach scene_add _) _ _ _ => apply wpv_add_all; intros ? ?
  | |- wpv (bind _ _) _ _ _ => apply wpv_bind
  | |- wpv (forEach _ _) _ _ _ => by_quiet
  | |- wpv (forEachIndexed _ _ _) _ _ _ => by_quiet
  | |- wpv (filterM _ _) _ _ _ => by_quiet
  | |- wpv (every _ _) _ _ _ => by_quiet
  | |- wpv (repeatM _ _) _ _ _ => by_quiet
  | |- wpv (match ?x with _ => _ end) _ _ _ => first [by_quiet | split_on x]
  | |- match ?x with Some _ => _ | None => _ end => split_on x
  | |- True => exact I
  end.

Ltac view_call :=
  lazymatch goal with
  | |- wpv ?m _ _ _ =>
      first
        [ by_quiet
        | let h := head_of m in
          lazymatch h with
          | @forEach => fail
          | @forEachIndexed => fail
          | @filterM => fail
          | @every => fail
          | @repeatM => fail
          | _ => unfold h
          end ]
  end.

Ltac view_step := first [view_prim | view_call]; view_tidy.

Ltac view_walk := repeat view_step.

(** ** The loops of the animator *)

(** [gammas.forEach(...)]: the rays join the scene and [gammaRays].  With
    a [gammaRays] array it cannot raise. *)
Lemma addGammas_some (E : View -> Prop) (l : list ref) (v : View) (a : Animation.t)
    (g : list ref) :
  v_animation v = Some a ->
  Animation.gammaRays a = Some g ->
  wpv (addGammas l)
    (fun _ v' =>
       v_animation v' = Some (Animation.set_gammaRays (Some (g ++ l)) a) /\
       v_console v' = v_console v /\
       forall r, r ∈ v_scene v' -> r ∈ v_scene v \/ r ∈ l)
    E v.
Proof.
  revert v a g. unfold addGammas.
  induction l as [| x l IH]; intros [vs va vc] a g Ha Hg; cbn [forEach v_animation] in *;
    subst va.
  - apply wpv_ret. fields_in_goal. split; [| split; [reflexivity | auto]].
    destruct a; fields; subst. rewrite app_nil_r. reflexivity.
  - unfold push_gammaRays. view_walk.
    eapply wpv_consequence; [eapply IH; reflexivity | | auto].
    intros [] [vs' va' vc'] (Ha' & Hc' & Hs'). fields.
    split; [| split; [exact Hc' |]].
    + rewrite Ha'. destruct a. fields. rewrite <- app_assoc. reflexivity.
    + intros r Hr. apply Hs' in Hr as [Hr | Hr]; [| right; right; exact Hr].
      apply elem_of_app in Hr as [Hr | Hr].
      * apply list_elem_of_filter in Hr as [_ Hr]. left. exact Hr.
      * apply list_elem_of_singleton in Hr as ->. right. left.
Qed.

Lemma addGammas_view (E : View -> Prop) (l : list ref) (v : View) (a : Animation.t) :
  v_animation v = Some a ->
  (forall v', still v v' -> E v') ->
  wpv (addGammas l)
    (fun _ v' =>
       v_animation v' =
         Some (Animation.set_gammaRays ((fun g => g ++ l) <$> Animation.gammaRays a) a) /\
       v_console v' = v_console v /\
       forall r, r ∈ v_scene v' -> r ∈ v_scene v \/ r ∈ l)
    E v.
Proof.
  intros Ha HE. destruct (Animation.gammaRays a) as [g |] eqn:Hg.
  - apply (addGammas_some E l v a g Ha Hg).
  - destruct v as [vs va vc]. fields. subst va. unfold addGammas.
    destruct l as [| x l]; cbn [forEach].
    + apply wpv_ret. fields_in_goal. split; [| split; [reflexivity | auto]].
      destruct a; fields; subst; reflexivity.
    + unfold push_gammaRays. view_walk. apply HE. split; reflexivity.
Qed.

(** The filters over the rays and the waves: the collection keeps some of
    its members, and those it drops have left the scene. *)
Ltac step_thins HE :=
  view_walk; [exact HE | |];
  match goal with H : negb ?b = _ |- _ => destruct b; try discriminate H end;
  unfold thinned; cbn [v_scene v_animation v_console];
  (split; [reflexivity |]); (split; [reflexivity |]);
  (split; [intros r Hr; try apply list_elem_of_filter in Hr as [_ Hr]; exact Hr |]);
  (split; [intros r Hr; first [exact Hr | apply elem_of_nil in Hr as []] |]);
  intros _ r Hr Hout;
  [ apply list_elem_of_singleton in Hr as ->; intros Hin;
    apply list_elem_of_filter in Hin as [Hne _]; apply Hne; reflexivity
  | exfalso; apply Hout, Hr ].

Lemma stepGamma_thins (E : View -> Prop) (x : ref) (v : View) :
  E v ->
  wpv (stepGamma x) (fun keep v' => thinned true v [x] (if keep then [x] else []) v') E v.
Proof. intros HE. destruct v as [vs va vc]. unfold stepGamma. step_thins HE. Qed.

Lemma stepWave_thins (E : View -> Prop) (x : ref) (v : View) :
  E v ->
  wpv (stepWave x) (fun keep v' => thinned true v [x] (if keep then [x] else []) v') E v.
Proof. intros HE. destruct v as [vs va vc]. unfold stepWave. step_thins HE. Qed.

(** The view after a strict filter of the collection [l] of [a]. *)
Definition filtered (set : option (list ref) -> Animation.t -> Animation.t)
    (v : View) (a : Animation.t) (l : list ref) (v' : View) : Prop :=
  exists kept,
    v_animation v' = Some (set (Some kept) a) /\
    v_console v' = v_console v /\
    (forall r, r ∈ v_scene v' -> r ∈ v_scene v) /\
    (forall r, r ∈ kept -> r ∈ l) /\
    (forall r, r ∈ l -> r ∉ kept -> r ∉ v_scene v').

Lemma filterGammaRays_view (E : View -> Prop) (v : View) (a : Animation.t) :
  v_animation v = Some a ->
  (forall v', still v v' -> E v') ->
  wpv filterGammaRays
    (fun _ v' => exists g, Animation.gammaRays a = Some g /\
                           filtered Animation.set_gammaRays v a g v')
    E v.
Proof.
  destruct v as [vs va vc]. cbn [v_animation v_console]. intros -> HE.
  unfold filterGammaRays. view_walk; [| apply HE; split; reflexivity].
  eapply wpv_consequence;
    [apply (wpv_filterM true); intros x v' Hv'; apply stepGamma_thins, HE, Hv' | | auto].
  intros kept [vs' va' vc'] (Ha & Hc & Hs & Hk & Hd). fields.
  subst va' vc'. view_walk. eexists. split; [reflexivity |].
  exists kept. fields. repeat split; auto.
Qed.

Lemma filterEnergyWaves_view (E : View -> Prop) (v : View) (a : Animation.t) :
  v_animation v = Some a ->
  (forall v', still v v' -> E v') ->
  wpv filterEnergyWaves
    (fun _ v' => exists w, Animation.energyWaves a = Some w /\
                           filtered Animation.set_energyWaves v a w v')
    E v.
Proof.
  destruct v as [vs va vc]. cbn [v_animation v_console]. intros -> HE.
  unfold filterEnergyWaves. view_walk; [| apply HE; split; reflexivity].
  eapply wpv_consequence;
    [apply (wpv_filterM true); intros x v' Hv'; apply stepWave_thins, HE, Hv' | | auto].
  intros kept [vs' va' vc'] (Ha & Hc & Hs & Hk & Hd). fields.
  subst va' vc'. view_walk. eexists. split; [reflexivity |].
  exists kept. fields. repeat split; auto.
Qed.

Ltac after_filter :=
  intros [] [? ? ?] (? & ? & ? & ? & ? & ? & ? & ?); fields; subst.

Ltac after_gammas :=
  intros [] [? ? ?] (? & ? & ?); fields; subst.

(** The walk through a tick; [raise] shows that a view with the console and
    the animation of the present one is a fine place to raise in. *)
Ltac tick_step raise :=
  lazymatch goal with
  | |- wpv filterGammaRays _ _ _ =>
      eapply wpv_post; [eapply filterGammaRays_view; [reflexivity | raise] | after_filter]
  | |- wpv filterEnergyWaves _ _ _ =>
      eapply wpv_post; [eapply filterEnergyWaves_view; [reflexivity | raise] | after_filter]
  | |- wpv (addGammas _) _ _ _ =>
      eapply wpv_post; [eapply addGammas_view; [reflexivity | raise] | after_gammas]
  | _ => view_step
  end; view_tidy.

Ltac tick_walk := repeat tick_step ltac:(intros; exact I).

(** ** Tracking *)

(** Before the compound phase no compound nucleus is recorded. *)
Definition early (a : Animation.t) : Prop :=
  Animation.phase a = "approach" \/ Animation.phase a = "breakup" ->
  Animation.compoundNucleus a = None.

(** Every member of the scene was in [sc0] or is owned by the current
    animation. *)
Definition tracked (sc0 : list ref) (v : View) : Prop :=
  exists a, v_animation v = Some a /\ early a /\
            forall r, r ∈ v_scene v -> r ∈ sc0 \/ r ∈ owned a.

(** [m], when it answers, takes views within [P] to views within [Q]. *)
Definition leads {A} (P : View -> Prop) (m : M A) (Q : View -> Prop) : Prop :=
  forall v, P v -> wpv m (fun _ => Q) (fun _ => True) v.

(** What the guards of the source say, as equations. *)
Ltac guards :=
  repeat
    match goal with
    | H : _ && _ = true |- _ => apply andb_true_iff in H as [? ?]
    | H : negb _ = true |- _ => apply negb_true_iff in H
    | H : bool_decide _ = false |- _ => apply bool_decide_eq_false_1 in H
    | H : bool_decide _ = true |- _ => apply bool_decide_eq_true_1 in H
    | H : ~ is_Some _ |- _ => apply eq_None_not_Some in H
    | H : (_ =? _)%string = true |- _ => apply String.eqb_eq in H
    | H : (_ =? _)%string = false |- _ => apply String.eqb_neq in H
    | H : _ <$> ?x = Some _ |- _ => destruct x; fields; [| discriminate H]
    | H : Some _ = Some _ |- _ => injection H as H
    | H : _ = _ \/ _ = _ -> _ |- _ =>
        first [specialize (H (or_introl eq_refl)) | specialize (H (or_intror eq_refl))]
    | H : Some _ = None |- _ => discriminate H
    | H : None = Some _ |- _ => discriminate H
    end.

Ltac member :=
  lazymatch goal with
  | |- _ ∈ _ ++ _ => apply elem_of_app; first [left; member | right; member]
  | |- ?x ∈ ?x :: _ => apply list_elem_of_here
  | |- _ ∈ _ :: _ => apply list_elem_of_further; member
  | |- _ => assumption
  end.

(** Everything the hypotheses say about the handle [r]. *)
Ltac chase r :=
  repeat
    match goal with
    | H : forall x, x ∈ _ -> _ |- _ => specialize (H r)
    end;
  repeat
    match goal with
    | H : False |- _ => destruct H
    | H : ?x ∈ ?X, H' : ?x ∉ ?X |- _ => destruct (H' H)
    | H : _ ∈ [] |- _ => apply elem_of_nil in H as []
    | H : _ ∈ _ ++ _ |- _ => apply elem_of_app in H as [H | H]
    | H : _ ∈ filter _ _ |- _ => apply list_elem_of_filter in H as [? H]
    | H : _ ∈ _ :: _ |- _ => apply elem_of_cons in H as [H | H]; [try subst r |]
    | H : _ \/ _ |- _ => destruct H as [H | H]
    | H : ?x ≠ ?x |- _ => destruct (H eq_refl)
    | H : ?x ∈ ?X, H' : ?x ∈ ?X -> _ |- _ => specialize (H' H)
    | H' : ?x ∈ _ ++ _ -> _ |- _ =>
        specialize (H' ltac:(member))
    | H : ?x ∉ ?X, H' : ?x ∉ ?X -> _ |- _ => specialize (H' H)
    | H' : ?x ∉ ?X -> _ |- _ =>
        let Hout := fresh in
        destruct (decide (x ∈ X)) as [? | Hout]; [clear H' | specialize (H' Hout)]
    end.

Ltac found := first [left; assumption | right; member].

(** The view reached is tracked. *)
Ltac track :=
  lazymatch goal with
  | Htr : forall r, r ∈ _ -> r ∈ _ \/ r ∈ owned ?a |- tracked _ _ =>
      eexists; split; [reflexivity |];
      unfold early, owned in *; destruct a; fields;
      repeat (progress (guards; subst; fields));
      (split;
       [ intuition (subst; auto; congruence)
       | let r := fresh "r" in
         let Hr := fresh "Hr" in
         intros r Hr; chase r; found ])
  end.

Section Kinds.
Variable sc0 : list ref.
Variable delta : float.

Lemma updateElasticBreakup_tracked :
  leads (tracked sc0) (updateElasticBreakup delta) (tracked sc0).
Proof.
  intros [vs va vc] (a & Hcur & Hearly & Htr). cbn [v_animation v_scene] in *. subst va.
  unfold updateElasticBreakup, elasticPhase.
  view_walk.
  all: track.
Qed.

Lemma updateInelasticBreakup_tracked :
  leads (tracked sc0) (updateInelasticBreakup delta) (tracked sc0).
Proof.
  intros [vs va vc] (a & Hcur & Hearly & Htr). cbn [v_animation v_scene] in *. subst va.
  unfold updateInelasticBreakup, inelasticPhase.
  tick_walk.
  all: track.
Qed.

Lemma updateNonelasticBreakup_tracked (v : View) :
  tracked sc0 v ->
  (forall a, v_animation v = Some a ->
             Animation.phase a <> "decay" /\ Animation.phase a <> "absorption") ->
  wpv (updateNonelasticBreakup delta) (fun _ => tracked sc0) (fun _ => True) v.
Proof.
  destruct v as [vs va vc]. intros (a & Hcur & Hearly & Htr) Hphase.
  cbn [v_animation v_scene] in *. subst va.
  destruct (Hphase a eq_refl) as [Hdecay Habsorption]. clear Hphase.
  unfold updateNonelasticBreakup, nonelasticPhase.
  tick_walk.
  all: try solve [track].
  all: exfalso; guards; congruence.
Qed.
End Kinds.

(** ** Walks over the store *)

Lemma inv_modifyObj_at (I : State -> Prop) (r : ref) (f : Object3D.t -> Object3D.t) :
  (forall s o, I s -> objects s !! r = Some o ->
               I (set_objects (<[r := f o]> (objects s)) s)) ->
  inv I (modifyObj r f).
Proof.
  intros H s Hs. unfold modifyObj, getObj, lookupObj, bind, gets, required.
  destruct (objects s !! r) as [o |] eqn:Hr; cbn; [apply H; assumption | exact Hs].
Qed.

(** A walk for invariants of the store: [on_object] settles an update in
    place, [side] the other primitives, [block] the methods known as a
    whole. *)
Ltac store_step block on_object side :=
  first
    [ block
    | lazymatch goal with
      | |- inv _ (modifyObj _ _) => on_object
      | |- inv _ (ret _) => apply inv_ret
      | |- inv _ (throw _) => apply inv_throw
      | |- inv _ (required _) => apply inv_required
      | |- inv _ (gets _) => apply inv_gets
      | |- inv _ (lookupObj _) => apply inv_lookupObj
      | |- inv _ (getObj _) => apply inv_getObj
      | |- inv _ (getA _) => apply inv_getA
      | |- inv _ (bind _ _) => apply inv_bind; [| intro]
      | |- inv _ (try_catch _ _) => apply inv_try_catch; [| intro]
      | |- inv _ (modify _) => apply inv_modify; side
      | |- inv _ (modifyA _) => apply inv_modifyA; side
      | |- inv _ (alloc _) => apply inv_alloc; side
      | |- inv _ Math_random => apply inv_Math_random; side
      | |- inv _ (forEach _ _) => apply inv_forEach; intro
      | |- inv _ (forEachIndexed _ _ _) => apply inv_forEachIndexed; intros ? ?
      | |- inv _ (filterM _ _) => apply inv_filterM; intro
      | |- inv _ (every _ _) => apply inv_every; intro
      | |- inv _ (repeatM _ _) => apply inv_repeatM
      | |- inv _ (match ?x with _ => _ end) => destruct x
      | |- inv _ ?m => let h := head_of m in unfold h
      end ].

Lemma inv_update (I : State -> Prop) (delta : float) :
  inv I (advance delta) ->
  (forall s, I s -> I (set_isPlaying false s)) ->
  (forall s e, I s -> I (set_console (console s ++ [e]) s)) ->
  inv I (update delta).
Proof.
  intros Hadvance Hplaying Hconsole. unfold update.
  apply inv_bind; [apply inv_gets | intro].
  apply inv_bind; [apply inv_gets | intro].
  destruct (_ || _); [apply inv_ret |].
  assert (Hlog : forall e, inv I (console_log e))
    by (intros e; apply inv_modify; intros s Hs; apply Hconsole, Hs).
  assert (Hstop : inv I (modify (set_isPlaying false)))
    by (apply inv_modify; exact Hplaying).
  apply inv_try_catch.
  - apply inv_bind; [exact Hadvance | intros []; [| apply inv_ret]].
    apply inv_bind; [exact Hstop | intro]. apply inv_bind; [apply Hlog | intro]. apply inv_ret.
  - intro. apply inv_bind; [apply Hlog | intro]. apply inv_bind; [exact Hstop | intro].
    apply inv_ret.
Qed.

Lemma inv_ticks (I : State -> Prop) (deltas : list float) :
  (forall delta, inv I (update delta)) -> inv I (ticks deltas).
Proof.
  intros Hupdate. unfold ticks. apply inv_forEach. intro delta.
  apply inv_bind; [apply Hupdate | intro; apply inv_ret].
Qed.


(** ** Effects the filter recognises

    [updateEffects] drops an effect it does not recognise without taking it
    off the scene.  The effects the animator pushes are all recognised, and
    stay so. *)

(** What [updateEffects] looks for: a [ring], or a [velocity] with a
    [decay]. *)
Definition recognisable (o : Object3D.t) : bool :=
  match Object3D.userData o with
  | Some ud =>
      bool_decide (is_Some (UserData.ring ud))
      || (bool_decide (is_Some (UserData.velocity ud))
          && bool_decide (is_Some (UserData.decay ud)))
  | None => false
  end.

Definition known (s : State) (e : ref) : Prop :=
  exists o, objects s !! e = Some o /\ recognisable o = true.

(** The handles of [extra] and the effects of the current animation are
    recognised. *)
Definition recognised (extra : list ref) (s : State) : Prop :=
  (forall e, e ∈ extra -> known s e) /\
  forall a, currentAnimation s = Some a -> forall e, e ∈ Animation.effects a -> known s e.

Lemma known_insert (objs : list Object3D.t) (r e : ref) (o : Object3D.t)
    (f : Object3D.t -> Object3D.t) :
  (forall o, recognisable o = true -> recognisable (f o) = true) ->
  objs !! r = Some o ->
  (exists o', objs !! e = Some o' /\ recognisable o' = true) ->
  exists o', <[r := f o]> objs !! e = Some o' /\ recognisable o' = true.
Proof.
  intros Hf Hr (o' & He & Ho'). destruct (decide (e = r)) as [-> | Hne].
  - exists (f o). rewrite list_lookup_insert_eq by (eapply lookup_lt_Some; eauto).
    split; [reflexivity |]. apply Hf. congruence.
  - exists o'. rewrite list_lookup_insert_ne by congruence. auto.
Qed.

Lemma recognised_modifyObj extra r f :
  (forall o, recognisable o = true -> recognisable (f o) = true) ->
  inv (recognised extra) (modifyObj r f).
Proof.
  intros Hf s [Hextra Heffects]. unfold modifyObj, getObj, lookupObj, bind, gets, required.
  destruct (objects s !! r) as [o |] eqn:Hr; cbn; [| split; assumption].
  destruct s as [objs sc ten tlen tape rpos msin mcos macos con playing spd cur].
  unfold recognised, known in *. state_flat. cbv [objects currentAnimation] in *.
  split.
  - intros e He. eapply known_insert; eauto.
  - intros a Ha e He. eapply known_insert; eauto.
Qed.

Lemma known_alloc (objs : list Object3D.t) (o : Object3D.t) (e : ref) :
  (exists o', objs !! e = Some o' /\ recognisable o' = true) ->
  exists o', (objs ++ [o]) !! e = Some o' /\ recognisable o' = true.
Proof.
  intros (o' & He & Ho'). exists o'. split; [| exact Ho'].
  rewrite lookup_app_l by (eapply lookup_lt_Some; eauto). exact He.
Qed.

(** Setters keep an object recognisable. *)
Ltac keeps :=
  let o := fresh "o" in
  intros o; unfold recognisable;
  destruct o as [? ? ? ? ? ? [[]|]]; cbn; try (intros H; exact H);
  repeat match goal with
         | |- context [bool_decide (is_Some ?x)] => is_var x; destruct x
         end;
  cbn; auto.

Ltac recognised_side :=
  intros;
  lazymatch goal with
  | s : State |- _ =>
      destruct s as [objs sc ten tlen tape rpos msin mcos macos con playing spd cur]
  end;
  unfold recognised, known in *; state_flat; cbv [objects currentAnimation] in *;
  lazymatch goal with
  | H : _ /\ _ |- _ =>
      let Hextra := fresh "Hextra" in
      let Heffects := fresh "Heffects" in
      destruct H as [Hextra Heffects];
      first
        [ split; assumption
        | split;
          [ intros ? ?; apply known_alloc; auto
          | intros ? ? ? ?; apply known_alloc; eauto ]
        | split; [assumption |];
          let a' := fresh "a" in
          let Ha := fresh "Ha" in
          let e := fresh "e" in
          let He := fresh "He" in
          intros a' Ha e He; injection Ha as <-; fields;
          first
            [ eapply Heffects; [eassumption | exact He]
            | apply elem_of_app in He as [He | He];
              [ eapply Heffects; [eassumption | exact He]
              | apply Hextra;
                first [member | apply list_elem_of_singleton in He as ->; member] ] ] ]
  end.

Ltac recognised_object := apply recognised_modifyObj; keeps.

Ltac recognised_walk := repeat store_step fail recognised_object recognised_side.

Lemma updateEffect_recognised extra e : inv (recognised extra) (updateEffect e).
Proof. recognised_walk. Qed.

Lemma recognised_weaken (extra extra' : list ref) (s : State) :
  (forall e, e ∈ extra' -> e ∈ extra) -> recognised extra s -> recognised extra' s.
Proof. intros Hsub [Hextra Heffects]. split; auto. Qed.

Lemma new_spark_recognisable position o : new_spark position o -> recognisable o = true.
Proof.
  intros (_ & _ & ud & v & decay & Hud & _ & Hv & Hd). unfold recognisable.
  rewrite Hud, Hv, Hd.
  rewrite (bool_decide_eq_true_2 (is_Some (Some v))) by eauto.
  rewrite (bool_decide_eq_true_2 (is_Some (Some decay))) by eauto.
  apply orb_true_r.
Qed.

(** What a creator appended is known, and what was known stays so. *)
Lemma recognised_grown (P : Object3D.t -> Prop) d n extra s refs s' :
  (forall o, P o -> recognisable o = true) ->
  made P d n s refs s' -> recognised extra s -> recognised (refs ++ extra) s'.
Proof.
  intros HP (Hrefs & (new & Hlen & Hnew & Hobj) & _ & Hcur & _) [Hextra Heffects].
  assert (Hold : forall e, known s e -> known s' e).
  { intros e (o & He & Ho). exists o. split; [| exact Ho]. unfold known. rewrite Hobj.
    rewrite lookup_app_l by (eapply lookup_lt_Some; eauto). exact He. }
  split.
  - intros e He. apply elem_of_app in He as [He | He]; [| auto].
    subst refs. apply elem_of_seq in He as [Hlo Hhi].
    destruct (new !! (e - length (objects s))) as [o |] eqn:Ho.
    + exists o. split.
      * rewrite Hobj, lookup_app_r by lia. exact Ho.
      * apply HP. eapply Forall_lookup_1; eauto.
    + apply lookup_ge_None in Ho. lia.
  - intros a Ha e He. apply Hold. rewrite Hcur in Ha. eauto.
Qed.

Lemma recognised_createExplosion {B} extra position (k : list ref -> M B) :
  (forall flash, inv (recognised (flash ++ extra)) (k flash)) ->
  inv (recognised extra) (bind (createExplosion position) k).
Proof.
  intros Hk s H.
  destruct (repeatM_made (new_spark position) 4 (createExplosionParticle position) 50
              (createExplosionParticle_made position) s) as (refs & s' & Hrun & Hmade).
  unfold createExplosion. rewrite (bind_Ok _ _ _ _ _ Hrun).
  eapply recognised_weaken; [| apply (Hk refs)].
  - intros e He. apply elem_of_app. right. exact He.
  - eapply recognised_grown; eauto using new_spark_recognisable.
Qed.

Lemma recognised_createAbsorptionFlash {B} extra position (k : ref -> M B) :
  (forall flash, inv (recognised (flash :: extra)) (k flash)) ->
  inv (recognised extra) (bind (createAbsorptionFlash position) k).
Proof.
  intros Hk s H. unfold bind, createAbsorptionFlash, alloc.
  eapply recognised_weaken; [| apply (Hk (length (objects s)))].
  - intros e He. right. exact He.
  - destruct H as [Hextra Heffects].
    destruct s as [objs sc ten tlen tape rpos msin mcos macos con playing spd cur].
    unfold recognised, known in *. state_flat. cbv [objects currentAnimation] in *.
    split.
    + intros e He. apply elem_of_cons in He as [-> | He]; [| apply known_alloc; auto].
      eexists. split; [apply list_lookup_middle; reflexivity | reflexivity].
    + intros a Ha e He. apply known_alloc. eauto.
Qed.

Lemma current_filterM_updateEffect (c : option Animation.t) l :
  inv (fun s => currentAnimation s = c) (filterM updateEffect l).
Proof. inv_walk quiet_side. Qed.

Lemma recognised_updateEffects extra : inv (recognised extra) updateEffects.
Proof.
  intros s H. unfold updateEffects.
  destruct (currentAnimation s) as [a |] eqn:Hcur.
  2: { rewrite (bind_Throw _ _ _ _ _ (getA_None _ _ Hcur)). exact H. }
  rewrite (bind_Ok _ _ _ _ _ (getA_Some _ _ _ Hcur)).
  pose proof (inv_filterM (recognised extra) updateEffect (Animation.effects a)
                (updateEffect_recognised extra) s H) as Hrec.
  pose proof (current_filterM_updateEffect (Some a) (Animation.effects a) s Hcur) as Hsame.
  destruct (filterM updateEffect (Animation.effects a) s) as [[kept | e] s1] eqn:Hrun;
    cbn [snd] in *.
  2: { rewrite (bind_Throw _ _ _ _ _ Hrun). exact Hrec. }
  rewrite (bind_Ok _ _ _ _ _ Hrun).
  pose proof (filterM_sublist _ _ _ _ _ Hrun) as Hsub.
  unfold modifyA, bind, gets, required, ret, modify. rewrite Hsame. cbn [snd].
  destruct Hrec as [Hextra Heffects].
  destruct s1 as [objs sc ten tlen tape rpos msin mcos macos con playing spd cur].
  unfold recognised, known in *. state_flat. cbv [objects currentAnimation] in *.
  split; [exact Hextra |].
  intros a' Ha e He. injection Ha as <-. fields.
  eapply Heffects; [exact Hsame |]. eapply elem_of_sublist; eauto.
Qed.

(** The walk, with the creators whose handles go to [effects]. *)
Ltac effects_walk :=
  repeat store_step
    ltac:(idtac;
          lazymatch goal with
          | |- inv _ (bind (createExplosion _) _) =>
              apply recognised_createExplosion; intro
          | |- inv _ (bind (createAbsorptionFlash _) _) =>
              apply recognised_createAbsorptionFlash; intro
          | |- inv _ updateEffects => apply recognised_updateEffects
          end)
    recognised_object recognised_side.

Lemma advance_recognised delta : inv (recognised []) (advance delta).
Proof.
  unfold advance, updateElasticBreakup, updateNonelasticBreakup, updateInelasticBreakup,
    elasticPhase, nonelasticPhase, inelasticPhase.
  effects_walk.
Qed.

(** ** The filter over the effects *)

Ltac thins :=
  unfold thinned; fields;
  (split; [reflexivity |]); (split; [reflexivity |]);
  (split; [intros r Hr; try apply list_elem_of_filter in Hr as [_ Hr]; exact Hr |]);
  (split; [intros r Hr; first [exact Hr | apply elem_of_nil in Hr as []] |]);
  intros _ r Hr Hout;
  first
    [ exfalso; apply Hout, Hr
    | apply list_elem_of_singleton in Hr as ->; intros Hin;
      apply list_elem_of_filter in Hin as [Hne _]; apply Hne; reflexivity ].

(** A recognised effect that the filter drops has left the scene. *)
Lemma updateEffect_thins (e : ref) (s : State) :
  known s e ->
  match updateEffect e s with
  | (Ok keep, s') => thinned true (view s) [e] (if keep then [e] else []) (view s')
  | (Throw _, _) => True
  end.
Proof.
  intros (o & Ho & Hrec). unfold updateEffect, lookupObj. rewrite bind_gets, Ho.
  unfold recognisable in Hrec. destruct (Object3D.userData o) as [ud |]; [| discriminate].
  destruct (bool_decide (is_Some (UserData.ring ud))).
  - match goal with
    | |- match ?m s with _ => _ end =>
        assert (H : forall v, wpv m (fun keep v' => thinned true v [e] (if keep then [e] else [])
                                                      v') (fun _ => True) v)
    end.
    { intros [vs va vc]. view_walk;
        match goal with H : negb ?b = _ |- _ => destruct b; try discriminate H end; thins. }
    apply (H (view s) s eq_refl).
  - cbn [orb] in Hrec. apply andb_true_iff in Hrec as [Hv Hd].
    apply bool_decide_eq_true_1 in Hv as [v Hv]. apply bool_decide_eq_true_1 in Hd as [d Hd].
    rewrite Hv, Hd.
    match goal with
    | |- match ?m s with _ => _ end =>
        assert (H : forall v, wpv m (fun keep v' => thinned true v [e] (if keep then [e] else [])
                                                      v') (fun _ => True) v)
    end.
    { intros [vs va vc]. view_walk; thins. }
    apply (H (view s) s eq_refl).
Qed.

Lemma filterM_updateEffect_thins (extra l : list ref) (s : State) :
  (forall e, e ∈ l -> e ∈ extra) ->
  recognised extra s ->
  match filterM updateEffect l s with
  | (Ok kept, s') => thinned true (view s) l kept (view s')
  | (Throw _, _) => True
  end.
Proof.
  revert s. induction l as [| x l IH]; intros s Hl Hrec; cbn [filterM].
  - apply thinned_refl.
  - pose proof (updateEffect_thins x s (proj1 Hrec x (Hl x ltac:(left)))) as Hx.
    pose proof (updateEffect_recognised extra x s Hrec) as Hrec1.
    unfold bind at 1. destruct (updateEffect x s) as [[keep | err] s1]; [| exact I].
    cbn [snd] in Hrec1.
    specialize (IH s1 (fun e He => Hl e ltac:(right; exact He)) Hrec1).
    unfold bind at 1. destruct (filterM updateEffect l s1) as [[rest | err] s2]; [| exact I].
    unfold ret. apply (thinned_cons _ _ _ _ _ _ _ _ Hx IH).
Qed.

(** ** What a tick keeps *)

(** The scene is tracked and the effects are recognised. *)
Definition accounted (sc0 : list ref) (s : State) : Prop :=
  tracked sc0 (view s) /\ recognised [] s.

(** A run of [m] that answers keeps [P]. *)
Definition carries {A} (P : State -> Prop) (m : M A) : Prop :=
  forall s, P s -> match m s with (Ok _, s') => P s' | (Throw _, _) => True end.

Lemma carries_bind {A B} (P : State -> Prop) (m : M A) (k : A -> M B) :
  carries P m -> (forall a, carries P (k a)) -> carries P (bind m k).
Proof.
  intros Hm Hk s H. specialize (Hm s H). unfold bind.
  destruct (m s) as [[a | e] s1]; [apply Hk, Hm | exact I].
Qed.

Lemma carries_leads {A} (sc0 : list ref) (m : M A) :
  leads (tracked sc0) m (tracked sc0) -> inv (recognised []) m ->
  carries (accounted sc0) m.
Proof.
  intros Hview Hrec s [Htr Hs]. specialize (Hview (view s) Htr s eq_refl).
  specialize (Hrec s Hs). destruct (m s) as [[a | e] s1]; [split; assumption | exact I].
Qed.

Section Ticks.
Variable sc0 : list ref.
Variable delta : float.

Ltac carry :=
  apply carries_leads;
  [ intros [? ? ?] (? & ? & ? & ?); fields; subst; tick_walk; track
  | effects_walk ].

Lemma updateEffects_carries : carries (accounted sc0) updateEffects.
Proof.
  intros s [Htr Hrec].
  pose proof (recognised_updateEffects [] s Hrec) as Hrec'.
  destruct Htr as (a & Hcur & Hearly & Htr). cbn [view v_animation v_scene] in Hcur, Htr.
  unfold updateEffects in *. rewrite (bind_Ok _ _ _ _ _ (getA_Some _ _ _ Hcur)) in *.
  pose proof (filterM_updateEffect_thins (Animation.effects a) (Animation.effects a) s
                (fun e He => He)) as Hthin.
  destruct (filterM updateEffect (Animation.effects a) s) as [[kept | e] s1] eqn:Hrun.
  2: { rewrite (bind_Throw _ _ _ _ _ Hrun). exact I. }
  rewrite (bind_Ok _ _ _ _ _ Hrun) in *.
  destruct Hthin as (Ha & _ & Hs & Hk & Hd).
  { split; [intros e He; apply (proj2 Hrec a Hcur e He) | exact (proj2 Hrec)]. }
  cbn [view v_animation v_scene] in Ha, Hs, Hd. rewrite Hcur in Ha.
  rewrite (modifyA_Some _ _ _ Ha) in *. cbn [snd] in Hrec'. split; [| exact Hrec'].
  specialize (Hd eq_refl).
  destruct s1 as [objs sc ten tlen tape rpos msin mcos macos con playing spd cur].
  unfold view. state_flat. cbv [scene currentAnimation] in *.
  track.
Qed.

Lemma updateElasticBreakup_carries : carries (accounted sc0) (updateElasticBreakup delta).
Proof.
  apply carries_leads; [apply updateElasticBreakup_tracked |].
  unfold updateElasticBreakup, elasticPhase. effects_walk.
Qed.

Lemma updateInelasticBreakup_carries :
  carries (accounted sc0) (updateInelasticBreakup delta).
Proof.
  apply carries_leads; [apply updateInelasticBreakup_tracked |].
  unfold updateInelasticBreakup, inelasticPhase. effects_walk.
Qed.

Lemma accounted_enter (s : State) (a : Animation.t) :
  currentAnimation s = Some a -> accounted sc0 s -> accounted sc0 (enter delta a s).
Proof.
  intros Hcur [(a' & Ha' & Hearly & Htr) [_ Hrec]].
  cbn [view v_animation v_scene] in Ha', Htr. rewrite Hcur in Ha'. injection Ha' as <-.
  destruct s as [objs sc ten tlen tape rpos msin mcos macos con playing spd cur].
  unfold accounted, tracked, recognised, known, enter, view in *. state_flat.
  cbv [objects scene currentAnimation speed] in *. subst cur. fields. split.
  - eexists. split; [reflexivity |]. split; [exact Hearly |].
    intros r Hr. destruct (Htr r Hr); [left | right]; assumption.
  - split; [intros e He; apply elem_of_nil in He as [] |].
    intros a' Ha' e He. injection Ha' as <-. fields. eapply Hrec; eauto.
Qed.

Lemma updateNonelasticBreakup_carries :
  carries (accounted sc0) (updateNonelasticBreakup delta).
Proof.
  intros s Hs.
  destruct (proj1 Hs) as (a & Hcur & _). cbn [view v_animation] in Hcur.
  destruct (decide (Animation.phase a = "decay" \/ Animation.phase a = "absorption"))
    as [Hlate | Hearly].
  - rewrite (updateNonelasticBreakup_enter delta s a Hcur).
    apply accounted_enter with (a := a) in Hs; [| exact Hcur].
    revert Hs. generalize (enter delta a s). clear s Hcur.
    match goal with |- forall s, _ -> match ?m s with _ => _ end =>
      change (carries (accounted sc0) m) end.
    apply carries_bind; [| intros []; [carry |]].
    + destruct Hlate as [-> | ->]; unfold nonelasticPhase;
        cbn [String.eqb Ascii.eqb Bool.eqb];
        repeat (apply carries_bind; [first [apply updateEffects_carries | carry] | intro]);
        carry.
    + repeat (apply carries_bind; [carry | intro]). carry.
  - destruct Hs as [Htr Hrec].
    assert (Hrec' : inv (recognised []) (updateNonelasticBreakup delta))
      by (unfold updateNonelasticBreakup, nonelasticPhase; effects_walk).
    specialize (Hrec' s Hrec).
    assert (Hview : wpv (updateNonelasticBreakup delta) (fun _ => tracked sc0)
                      (fun _ => True) (view s)).
    { apply updateNonelasticBreakup_tracked; [exact Htr |].
      intros a' Ha'. cbn [view v_animation] in Ha'. rewrite Hcur in Ha'.
      injection Ha' as <-. split; intros H; apply Hearly; [left | right]; exact H. }
    specialize (Hview s eq_refl).
    destruct (updateNonelasticBreakup delta s) as [[r | e] s1]; [split; assumption | exact I].
Qed.

Lemma advance_carries : carries (accounted sc0) (advance delta).
Proof.
  unfold advance. apply carries_bind; [carry | intros type].
  repeat match goal with |- carries _ (if ?b then _ else _) => destruct b end;
    auto using updateElasticBreakup_carries, updateNonelasticBreakup_carries,
               updateInelasticBreakup_carries.
Qed.
End Ticks.

(** ** Runs without an error *)

(** The errors [update] has reported on the console. *)
Definition errors (s : State) : list string :=
  omap (fun e => match e with LogError _ error => Some error | _ => None end) (console s).

Ltac errors_side :=
  intros;
  lazymatch goal with
  | s : State |- _ =>
      destruct s as [objs sc ten tlen tape rpos msin mcos macos con playing spd cur]
  end;
  unfold errors in *; state_flat; cbv [console] in *;
  rewrite ?omap_app; cbn [omap list_omap]; rewrite ?app_nil_r; assumption.

Lemma advance_errors (delta : float) (logged : list string) :
  inv (fun s => errors s = logged) (advance delta).
Proof.
  unfold advance, updateElasticBreakup, updateNonelasticBreakup, updateInelasticBreakup,
    elasticPhase, nonelasticPhase, inelasticPhase.
  inv_walk errors_side.
Qed.

(** The error a tick from [s] reports, if any. *)
Definition raised (delta : float) (s : State) : option string :=
  if bool_decide (is_Some (currentAnimation s)) && isPlaying s then
    match fst (advance delta s) with
    | Throw error => Some error
    | Ok _ => None
    end
  else None.

Lemma update_errors (delta : float) (s : State) :
  errors (snd (update delta s)) = errors s ++ option_list (raised delta s).
Proof.
  unfold raised. rewrite update_eq.
  destruct (currentAnimation s) as [a |] eqn:Hcur.
  2: { cbn. rewrite app_nil_r. reflexivity. }
  rewrite bool_decide_eq_true_2 by eauto. cbn [negb orb andb].
  destruct (isPlaying s) eqn:Hplay; cbn [negb].
  2: { cbn. rewrite app_nil_r. reflexivity. }
  pose proof (advance_errors delta (errors s) s eq_refl) as Hadv.
  unfold try_catch, bind. destruct (advance delta s) as [[[] | e] s1]; cbn [fst snd] in *.
  - destruct s1. unfold errors in *. cbn in *. rewrite omap_app. cbn.
    rewrite !app_nil_r. exact Hadv.
  - rewrite app_nil_r. exact Hadv.
  - destruct s1. unfold errors in *. cbn in *. rewrite omap_app. cbn. rewrite Hadv.
    reflexivity.
Qed.

Lemma ticks_errors (deltas : list float) (s : State) :
  exists more, errors (snd (ticks deltas s)) = errors s ++ more.
Proof.
  revert s. induction deltas as [| delta deltas IH]; intros s.
  - exists []. rewrite app_nil_r. reflexivity.
  - rewrite ticks_cons. destruct (IH (snd (update delta s))) as (more & Hmore).
    rewrite Hmore, update_errors, <- app_assoc. eauto.
Qed.

Lemma update_accounted (sc0 : list ref) (delta : float) (s : State) :
  accounted sc0 s -> raised delta s = None -> accounted sc0 (snd (update delta s)).
Proof.
  intros Hs Hnone. unfold raised in Hnone. rewrite update_eq.
  destruct (bool_decide (is_Some (currentAnimation s))); cbn [negb orb andb] in *;
    [| exact Hs].
  destruct (isPlaying s); cbn [negb] in *; [| exact Hs].
  pose proof (advance_carries sc0 delta s Hs) as Hadv.
  unfold try_catch, bind. destruct (advance delta s) as [[[] | e] s1]; cbn [fst snd] in *;
    [| exact Hadv | discriminate].
  destruct s1. exact Hadv.
Qed.

Lemma ticks_accounted (sc0 : list ref) (deltas : list float) (s : State) :
  accounted sc0 s -> errors (snd (ticks deltas s)) = errors s ->
  accounted sc0 (snd (ticks deltas s)).
Proof.
  revert s. induction deltas as [| delta deltas IH]; intros s Hs Herr.
  - exact Hs.
  - rewrite ticks_cons in *.
    destruct (ticks_errors deltas (snd (update delta s))) as (more & Hmore).
    rewrite Hmore, update_errors, <- app_assoc in Herr.
    rewrite <- (app_nil_r (errors s)) in Herr at 2. apply app_inv_head in Herr.
    apply app_eq_nil in Herr as [Hraised ->].
    assert (Hnone : raised delta s = None) by (destruct (raised delta s); [discriminate | reflexivity]).
    apply IH; [apply update_accounted; assumption |].
    rewrite Hmore, app_nil_r. reflexivity.
Qed.

(** X12.  After a run of ticks none of which reported an error, [reset] leaves
    on the scene only what was there when the animation started: every
    fragment, trail, flash particle, ray, wave and nucleus the ticks put on
    the scene is either off it already or in a collection [reset] clears. *)
Theorem reset_takes_back_what_the_ticks_added (deltas : list float) (s : State) :
  Animation.effects <$> currentAnimation s = Some [] ->
  Animation.compoundNucleus <$> currentAnimation s = Some None ->
  errors (snd (ticks deltas s)) = errors s ->
  forall r, r ∈ scene (snd (reset (snd (ticks deltas s)))) -> r ∈ scene s.
Proof.
  intros Heffects Hcompound Herrors r Hr.
  destruct (currentAnimation s) as [a |] eqn:Hcur; [| discriminate].
  injection Heffects as Heffects. injection Hcompound as Hcompound.
  assert (Hs : accounted (scene s) s).
  { split.
    - exists a. split; [exact Hcur |]. split; [intros _; exact Hcompound | auto].
    - split; [intros e He; apply elem_of_nil in He as [] |].
      intros a' Ha' e He. rewrite Hcur in Ha'. injection Ha' as <-.
      rewrite Heffects in He. apply elem_of_nil in He as []. }
  destruct (ticks_accounted _ deltas s Hs Herrors) as [(a' & Ha' & _ & Htr) _].
  cbn [view v_animation v_scene] in Ha', Htr.
  rewrite (reset_eq _ a' Ha') in Hr. cbn [snd] in Hr.
  destruct (snd (ticks deltas s)) as [objs sc ten tlen tape rpos msin mcos macos con playing spd cur].
  revert Hr. state_flat. cbv [scene] in *. intros Hr.
  apply elem_of_without in Hr as [Hin Hout].
  destruct (Htr r Hin); [assumption | contradiction].
Qed.

Lemma reset_takes_back_what_the_ticks_added_witness :
  errors (snd (ticks (replicate 170 0.016%float) (snd (nonelasticScene sample))))
  = errors (snd (nonelasticScene sample)) /\
  forall r,
    r ∈ scene (snd (reset (snd (ticks (replicate 170 0.016%float)
                                   (snd (nonelasticScene sample)))))) ->
    r ∈ scene (snd (nonelasticScene sample)).
Proof.
  set (s := snd (nonelasticScene sample)).
  assert (Heffects : Animation.effects <$> currentAnimation s = Some [])
    by (vm_compute; reflexivity).
  assert (Hcompound : Animation.compoundNucleus <$> currentAnimation s = Some None)
    by (vm_compute; reflexivity).
  assert (Herrors : errors (snd (ticks (replicate 170 0.016%float) s)) = errors s)
    by (vm_compute; reflexivity).
  clearbody s. split; [exact Herrors |].
  apply (reset_takes_back_what_the_ticks_added _ s Heffects Hcompound Herrors).
Defined.

(** ** The filter over the effects, seen from the scene *)

Lemma updateEffect_view (E : View -> Prop) (x : ref) (v : View) :
  E v ->
  wpv (updateEffect x) (fun keep v' => thinned false v [x] (if keep then [x] else []) v') E v.
Proof.
  intros HE. destruct v as [vs va vc]. unfold updateEffect.
  view_walk; try exact HE;
    try match goal with |- context [if ?b then _ else _] => destruct b end;
    unfold thinned; fields_in_goal;
    (split; [reflexivity |]); (split; [reflexivity |]);
    (split; [intros r Hr; try apply list_elem_of_filter in Hr as [_ Hr]; exact Hr |]);
    (split; [intros r Hr; first [exact Hr | apply elem_of_nil in Hr as []] |]);
    intros H; discriminate H.
Qed.

Lemma updateEffects_view (E : View -> Prop) (v : View) (a : Animation.t) :
  v_animation v = Some a ->
  (forall v', still v v' -> E v') ->
  wpv updateEffects
    (fun _ v' => exists kept,
                   v_animation v' = Some (Animation.set_effects kept a) /\
                   v_console v' = v_console v /\
                   (forall r, r ∈ v_scene v' -> r ∈ v_scene v) /\
                   (forall r, r ∈ kept -> r ∈ Animation.effects a))
    E v.
Proof.
  destruct v as [vs va vc]. cbn [v_animation v_console]. intros -> HE.
  unfold updateEffects. view_walk.
  eapply wpv_consequence;
    [apply (wpv_filterM false); intros x v' Hv'; apply updateEffect_view, HE, Hv' | | auto].
  intros kept [vs' va' vc'] (Ha & Hc & Hs & Hk & Hd). fields.
  subst va' vc'. view_walk. exists kept. fields. repeat split; auto.
Qed.

(** ** When a cascade is emitted *)

Section Due.
Local Open Scope float_scope.

(** The counts of the cascades on a console (see [cascades]). *)
Definition logged (con : list LogEntry) : list float :=
  omap (fun e =>
          match e with
          | LogNumber msg n =>
              if String.eqb msg "Emitting gamma rays from de-excitation:" then Some n
              else None
          | _ => None
          end) con.

Lemma cascades_logged (s : State) : cascades s = logged (console s).
Proof. reflexivity. Qed.

(** The guard of the cascade, as the tick that ends in [a'] read it. *)
Definition beyond_60_percent (a' : Animation.t) : bool :=
  Num.of_opt (Animation.maxResonanceTime a') * 0.6 <? Num.of_opt (Animation.resonanceTime a').

(** No cascade since [before], or one, emitted by an animation that was
    [a] when the tick began. *)
Definition due (a : Animation.t) (before : list float) (v : View) : Prop :=
  logged (v_console v) = before \/
  (Animation.phase a = "compound" /\ Animation.gammaRays a = Some [] /\
   exists a' n, v_animation v = Some a' /\ beyond_60_percent a' = true /\
                logged (v_console v) = before ++ [n]).

Ltac due_leaf :=
  unfold due, logged, beyond_60_percent; fields_in_goal;
  rewrite ?omap_app; cbn [omap list_omap String.eqb Ascii.eqb Bool.eqb app];
  rewrite ?app_nil_r;
  first
    [ left; reflexivity
    | right; guards; subst;
      split; [assumption |];
      split;
      [ match goal with
        | H : length ?g = 0%nat |- _ =>
            destruct g; [first [reflexivity | assumption] | discriminate H]
        end
      | eexists _, _; split; [reflexivity |]; split; [fields_in_goal; eassumption | reflexivity] ] ].

Ltac due_raise := intros [? ? ?] [? ?]; fields; subst; due_leaf.

Ltac due_step :=
  lazymatch goal with
  | |- wpv updateEffects _ _ _ =>
      eapply wpv_post;
      [ eapply updateEffects_view; [reflexivity | due_raise]
      | intros [] [? ? ?] (? & ? & ? & ? & ?); fields; subst ]
  | |- due _ _ _ => fail
  | _ => tick_step due_raise
  end; view_tidy.

Lemma updateNonelasticBreakup_due (delta : float) (v : View) (a : Animation.t) :
  v_animation v = Some a ->
  wpv (updateNonelasticBreakup delta) (fun _ => due a (logged (v_console v)))
    (due a (logged (v_console v))) v.
Proof.
  destruct v as [vs va vc]. fields. intros ->.
  unfold updateNonelasticBreakup, nonelasticPhase.
  repeat due_step.
  all: due_leaf.
Qed.

Ltac cascades_side :=
  intros;
  lazymatch goal with
  | s : State |- _ =>
      destruct s as [objs sc ten tlen tape rpos msin mcos macos con playing spd cur]
  end;
  unfold cascades in *; state_flat; cbv [console] in *;
  rewrite ?omap_app; cbn [omap list_omap String.eqb Ascii.eqb Bool.eqb app];
  rewrite ?app_nil_r; assumption.

Lemma updateElasticBreakup_cascades (delta : float) (before : list float) :
  inv (fun s => cascades s = before) (updateElasticBreakup delta).
Proof. unfold updateElasticBreakup, elasticPhase. inv_walk cascades_side. Qed.

Lemma updateInelasticBreakup_cascades (delta : float) (before : list float) :
  inv (fun s => cascades s = before) (updateInelasticBreakup delta).
Proof. unfold updateInelasticBreakup, inelasticPhase. inv_walk cascades_side. Qed.

Lemma finish_cascades (x : outcome bool * State) :
  cascades (snd (finish x)) = cascades (snd x) /\
  currentAnimation (snd (finish x)) = currentAnimation (snd x).
Proof.
  unfold finish. destruct x as [[[] | e] s1]; cbn [fst snd]; destruct s1;
    unfold cascades; cbn; rewrite ?omap_app; cbn; rewrite ?app_nil_r; auto.
Qed.

(** X13.  A tick emits a cascade only in the compound phase of an animation that
    is neither elastic nor inelastic, when it found the [gammaRays] array
    empty and read a resonance time beyond 60% of the maximum; and then it
    emits one. *)
Theorem cascade_only_when_due (delta : float) (s : State) (a : Animation.t) :
  currentAnimation s = Some a ->
  cascades (snd (update delta s)) <> cascades s ->
  isPlaying s = true /\
  Animation.type a <> "elastic" /\ Animation.type a <> "inelastic" /\
  Animation.phase a = "compound" /\
  Animation.gammaRays a = Some [] /\
  exists a' n,
    currentAnimation (snd (update delta s)) = Some a' /\
    beyond_60_percent a' = true /\
    cascades (snd (update delta s)) = cascades s ++ [n].
Proof.
  intros Hcur Hnew.
  destruct (isPlaying s) eqn:Hplay.
  2: { exfalso. apply Hnew. rewrite update_eq, Hplay, orb_true_r. reflexivity. }
  rewrite (update_finish delta s) in * by (rewrite ?Hcur; eauto).
  destruct (finish_cascades (advance delta s)) as [Hc Ha]. rewrite Hc, Ha in *.
  clear Hc Ha. split; [reflexivity |].
  unfold advance in *. rewrite (bind_Ok _ _ _ _ _ (getA_Some _ _ _ Hcur)) in *.
  destruct (Animation.type a =? "elastic")%string eqn:He.
  { exfalso. apply Hnew. apply (updateElasticBreakup_cascades delta (cascades s) s eq_refl). }
  destruct (Animation.type a =? "nonelastic")%string eqn:Hn.
  2: destruct (Animation.type a =? "inelastic")%string eqn:Hi.
  2: { exfalso. apply Hnew.
       apply (updateInelasticBreakup_cascades delta (cascades s) s eq_refl). }
  all: apply String.eqb_neq in He; split; [exact He |];
    (split; [first [apply String.eqb_neq; exact Hi
                   | apply String.eqb_eq in Hn; rewrite Hn; discriminate] |]);
    pose proof (updateNonelasticBreakup_due delta (view s) a Hcur s eq_refl) as Hdue;
    destruct (updateNonelasticBreakup delta s) as [[r | e] s1]; cbn [snd] in *;
    rewrite cascades_logged in *;
    (destruct Hdue as [Hsame | (Hphase & Hg & a' & n & Ha' & Hb & Hlog)];
     [exfalso; apply Hnew; exact Hsame | eauto 10]).
Qed.

Lemma cascade_only_when_due_witness :
  let s := snd (frames 172 slowNonelasticScene) in
  cascades (snd (update 0.016 s)) <> cascades s /\
  Animation.phase <$> currentAnimation s = Some "compound".
Proof.
  set (s := snd (frames 172 slowNonelasticScene)).
  assert (Hnew : cascades (snd (update 0.016 s)) <> cascades s)
    by (vm_compute; intros H; discriminate H).
  assert (Hcur : is_Some (currentAnimation s)) by (vm_compute; eauto).
  clearbody s. cbv zeta. split; [exact Hnew |].
  destruct (currentAnimation s) as [a |] eqn:Ha; [| destruct Hcur; discriminate].
  destruct (cascade_only_when_due 0.016 s a Ha Hnew) as (_ & _ & _ & Hphase & _).
  cbn. rewrite Hphase. reflexivity.
Defined.
End Due.

(** ** Trails *)

(** The points of a trail; [None] for an object that is not one. *)
Definition points_of (o : Object3D.t) : option (list Vector3.t) :=
  ud ← Object3D.userData o; UserData.points ud.

(** Setters other than that of [points] leave the points alone. *)
Ltac same_points :=
  let o := fresh "o" in
  intros o; destruct o as [? ? ? ? ? ? [[] |]]; reflexivity.

(** *** Trails switched off *)

(** Trails are off, and the objects of [s0] have the points they had. *)
Definition frozen (s0 s : State) : Prop :=
  trailsEnabled s = false /\
  forall r o, objects s0 !! r = Some o ->
              exists o', objects s !! r = Some o' /\ points_of o' = points_of o.

Lemma frozen_insert (s0 : State) (objs : list Object3D.t) (r : ref) (o : Object3D.t)
    (f : Object3D.t -> Object3D.t) :
  (forall o, points_of (f o) = points_of o) ->
  objs !! r = Some o ->
  (forall r o, objects s0 !! r = Some o ->
               exists o', objs !! r = Some o' /\ points_of o' = points_of o) ->
  forall r' o0, objects s0 !! r' = Some o0 ->
                exists o', <[r := f o]> objs !! r' = Some o' /\ points_of o' = points_of o0.
Proof.
  intros Hf Hr H r' o0 Hr'. destruct (H r' o0 Hr') as (o' & Ho' & Hp).
  destruct (decide (r' = r)) as [-> | Hne].
  - exists (f o). rewrite list_lookup_insert_eq by (eapply lookup_lt_Some; eauto).
    split; [reflexivity |]. rewrite Hf. congruence.
  - exists o'. rewrite list_lookup_insert_ne by congruence. auto.
Qed.

Lemma frozen_modifyObj (s0 : State) (r : ref) (f : Object3D.t -> Object3D.t) :
  (forall o, points_of (f o) = points_of o) -> inv (frozen s0) (modifyObj r f).
Proof.
  intros Hf. apply inv_modifyObj_at. intros s o [Hoff Hobj] Hr.
  split; [destruct s; exact Hoff |].
  destruct s as [objs sc ten tlen tape rpos msin mcos macos con playing spd cur].
  apply (frozen_insert s0 objs r o f Hf Hr Hobj).
Qed.

Ltac frozen_object := apply frozen_modifyObj; same_points.

Ltac frozen_side :=
  intros;
  lazymatch goal with
  | s : State |- _ =>
      destruct s as [objs sc ten tlen tape rpos msin mcos macos con playing spd cur]
  end;
  unfold frozen in *; state_flat; cbv [objects trailsEnabled] in *;
  first
    [ assumption
    | lazymatch goal with
      | H : _ /\ _ |- _ =>
          let Hoff := fresh "Hoff" in
          let Hobj := fresh "Hobj" in
          destruct H as [Hoff Hobj]; split; [exact Hoff |];
          let r := fresh "r" in
          let o := fresh "o" in
          let Hr := fresh "Hr" in
          intros r o Hr; destruct (Hobj r o Hr) as (? & ? & ?);
          eexists; split; [apply lookup_app_l_Some; eassumption | assumption]
      end ].

Lemma updateTrail_frozen (s0 : State) (trail : ref) : inv (frozen s0) (updateTrail trail).
Proof.
  intros s Hs. unfold updateTrail. rewrite bind_gets, (proj1 Hs). exact Hs.
Qed.

Ltac frozen_walk :=
  repeat store_step
    ltac:(idtac;
          lazymatch goal with
          | |- inv _ (updateTrail _) => apply updateTrail_frozen
          end)
    frozen_object frozen_side.

Lemma advance_frozen (s0 : State) (delta : float) : inv (frozen s0) (advance delta).
Proof.
  unfold advance, updateElasticBreakup, updateNonelasticBreakup, updateInelasticBreakup,
    elasticPhase, nonelasticPhase, inelasticPhase.
  frozen_walk.
Qed.


Lemma update_frozen (s0 : State) (delta : float) : inv (frozen s0) (update delta).
Proof.
  apply inv_update; [apply advance_frozen | |]; intros; destruct s; assumption.
Qed.

(** X14.  With the trails switched off, no tick changes the points of a trail:
    the trails stay on the scene as they were when the switch was flipped,
    however far their particles move. *)
Theorem trails_switched_off_stay_put (deltas : list float) (s : State) :
  trailsEnabled s = true ->
  fst (toggleTrails s) = Ok false /\
  forall r o,
    objects s !! r = Some o ->
    exists o',
      objects (snd (ticks deltas (snd (toggleTrails s)))) !! r = Some o' /\
      points_of o' = points_of o.
Proof.
  intros Hon. unfold toggleTrails, bind, modify, gets. cbn [fst snd].
  split; [destruct s; cbn in *; subst; reflexivity |].
  assert (H : frozen s (set_trailsEnabled (negb (trailsEnabled s)) s)).
  { rewrite Hon. split; [destruct s; reflexivity |].
    intros r o Hr. exists o. split; [destruct s; exact Hr | reflexivity]. }
  apply (inv_ticks _ deltas (update_frozen s)) in H. exact (proj2 H).
Qed.

(** *** The length of a trail *)

(** What [updateTrail] does to a trail that has its points, trails being
    on: the last point is gone before the particle is looked at. *)
Lemma updateTrail_eq (trail : ref) (s : State) (o : Object3D.t) (ud : UserData.t)
    (pts : list Vector3.t) :
  trailsEnabled s = true ->
  objects s !! trail = Some o ->
  Object3D.userData o = Some ud ->
  UserData.points ud = Some pts ->
  let popped := Object3D.set_userData (Some (UserData.set_points (removelast pts) ud)) o in
  let s1 := set_objects (<[trail := popped]> (objects s)) s in
  updateTrail trail s
  = match UserData.particle ud with
    | None => (Throw TypeError, s1)
    | Some particle =>
        match objects s1 !! particle with
        | None => (Throw TypeError, s1)
        | Some p =>
            (Ok tt,
             set_objects
               (<[trail := Object3D.set_userData
                             (Some (UserData.set_points
                                      (Object3D.position p :: removelast pts) ud)) o]>
                  (objects s)) s)
        end
    end.
Proof.
  intros Hon Ho Hud Hpts popped s1. unfold updateTrail.
  rewrite bind_gets, Hon. cbn [negb].
  assert (Hget : getUserData trail s = (Ok ud, s))
    by (rewrite (getUserData_eq trail o s Ho), Hud; reflexivity).
  rewrite (bind_Ok _ _ _ _ _ Hget).
  rewrite Hpts. cbn [required]. rewrite (bind_Ok _ _ _ _ _ (eq_refl : ret pts s = (Ok pts, s))).
  cbv zeta. unfold modifyUserData at 1.
  rewrite (bind_Ok _ _ _ _ _ (modifyObj_eq trail _ o s Ho)). rewrite Hud. cbn [fmap option_fmap option_map].
  fold popped. fold s1.
  destruct (UserData.particle ud) as [particle |]; [| reflexivity]. cbn [required].
  rewrite (bind_Ok _ _ _ _ _ (eq_refl : ret particle s1 = (Ok particle, s1))).
  destruct (objects s1 !! particle) as [p |] eqn:Hp.
  - rewrite (bind_Ok _ _ _ _ _ (getObj_eq particle p s1 Hp)).
    unfold modifyUserData.
    rewrite (modifyObj_eq trail _ popped s1 (lookup_modified trail o popped s Ho)).
    f_equal. subst s1 popped.
    destruct s as [objs sc ten tlen tape rpos msin mcos macos con playing spd cur].
    cbn [objects set_objects]. rewrite list_insert_insert_eq.
    destruct o, ud; reflexivity.
  - unfold getObj, lookupObj, bind, gets. rewrite Hp. reflexivity.
Qed.

(** A trail is whole: it has [n] points, and its particle is an object of
    the store (of [bound] objects). *)
Definition whole (n bound : nat) (o : Object3D.t) : Prop :=
  forall pts, points_of o = Some pts ->
    length pts = n /\ exists p, particle_of o = Some p /\ p < bound.

(** Every trail is whole, [n] being the length new trails are given. *)
Definition sized (n : nat) (s : State) : Prop :=
  trailLength s = n /\ Forall (whole n (length (objects s))) (objects s).

Lemma whole_grows (n bound bound' : nat) (o : Object3D.t) :
  bound <= bound' -> whole n bound o -> whole n bound' o.
Proof.
  intros Hle H pts Hpts. destruct (H pts Hpts) as (Hlen & p & Hp & Hlt).
  split; [exact Hlen |]. exists p. split; [exact Hp | lia].
Qed.

(** Setters other than those of [points] and [particle] leave a trail as
    it is. *)
Ltac same_trail :=
  let o := fresh "o" in
  intros o; destruct o as [? ? ? ? ? ? [[] |]]; split; reflexivity.

Lemma sized_modifyObj (n : nat) (r : ref) (f : Object3D.t -> Object3D.t) :
  (forall o, points_of (f o) = points_of o /\ particle_of (f o) = particle_of o) ->
  inv (sized n) (modifyObj r f).
Proof.
  intros Hf. apply inv_modifyObj_at. intros s o [Hlen Hobj] Hr.
  destruct s as [objs sc ten tlen tape rpos msin mcos macos con playing spd cur].
  unfold sized in *. state_flat. cbv [objects trailLength] in *.
  split; [exact Hlen |]. rewrite length_insert. apply Forall_insert; [exact Hobj |].
  intros pts. destruct (Hf o) as [-> ->]. exact (Forall_lookup_1 _ _ _ _ Hobj Hr pts).
Qed.

Ltac sized_side :=
  intros;
  lazymatch goal with
  | s : State |- _ =>
      destruct s as [objs sc ten tlen tape rpos msin mcos macos con playing spd cur]
  end;
  unfold sized in *; state_flat; cbv [objects trailLength] in *;
  first
    [ assumption
    | lazymatch goal with
      | H : _ /\ _ |- _ =>
          let Hlen := fresh "Hlen" in
          let Hobj := fresh "Hobj" in
          destruct H as [Hlen Hobj]; split; [exact Hlen |];
          rewrite length_app; apply Forall_app; split;
          [ eapply Forall_impl; [exact Hobj |];
            intros ?; apply whole_grows; lia
          | apply Forall_singleton; intros ? ?; discriminate ]
      end ].

Section Sized.
Variable n : nat.
Hypothesis Hn : 1 <= n.

Lemma updateTrail_sized (trail : ref) : inv (sized n) (updateTrail trail).
Proof using Hn.
  intros s Hs.
  destruct (trailsEnabled s) eqn:Hon;
    [| unfold updateTrail; rewrite bind_gets, Hon; exact Hs].
  destruct (objects s !! trail) as [o |] eqn:Ho;
    [| unfold updateTrail; rewrite bind_gets, Hon; cbn [negb];
       unfold getUserData, getObj, lookupObj; rewrite !bind_assoc, bind_gets, Ho;
       exact Hs].
  destruct (Object3D.userData o) as [ud |] eqn:Hud;
    [| unfold updateTrail; rewrite bind_gets, Hon; cbn [negb];
       unfold bind at 1; rewrite (getUserData_eq trail o s Ho), Hud; exact Hs].
  assert (Hget : getUserData trail s = (Ok ud, s))
    by (rewrite (getUserData_eq trail o s Ho), Hud; reflexivity).
  destruct (UserData.points ud) as [pts |] eqn:Hpts;
    [| unfold updateTrail; rewrite bind_gets, Hon; cbn [negb];
       rewrite (bind_Ok _ _ _ _ _ Hget), Hpts; exact Hs].
  rewrite (updateTrail_eq trail s o ud pts Hon Ho Hud Hpts).
  destruct Hs as [Hlen Hobj].
  destruct (Forall_lookup_1 _ _ _ _ Hobj Ho pts) as (Hsize & particle & Hpart & Hlt).
  { unfold points_of. rewrite Hud. exact Hpts. }
  unfold particle_of in Hpart. rewrite Hud in Hpart. rewrite Hpart.
  destruct s as [objs sc ten tlen tape rpos msin mcos macos con playing spd cur].
  cbn [objects set_objects] in *.
  destruct (lookup_lt_is_Some_2 (<[trail := Object3D.set_userData
                                     (Some (UserData.set_points (removelast pts) ud)) o]> objs)
              particle) as [p Hp]; [rewrite length_insert; exact Hlt |].
  rewrite Hp. cbn [snd]. unfold sized. cbn [objects trailLength set_objects] in *.
  split; [exact Hlen |]. rewrite length_insert. apply Forall_insert; [exact Hobj |].
  intros pts'. unfold points_of, particle_of. destruct o, ud. cbn in *. intros [= <-].
  split.
  - cbn [length]. destruct pts as [| p0 pts]; [cbn in Hsize; lia |].
    rewrite removelast_firstn_len, length_take. cbn [length] in *. lia.
  - exists particle. split; [congruence | exact Hlt].
Qed.

Lemma createTrail_sized (particle : ref) : inv (sized n) (createTrail particle).
Proof.
  intros s Hs. unfold createTrail.
  destruct (objects s !! particle) as [p |] eqn:Hp;
    [| unfold getObj, lookupObj, bind, gets; rewrite Hp; exact Hs].
  rewrite (bind_Ok _ _ _ _ _ (getObj_eq particle p s Hp)), bind_gets.
  unfold alloc. cbn [snd].
  destruct Hs as [Hlen Hobj]. apply lookup_lt_Some in Hp.
  destruct s as [objs sc ten tlen tape rpos msin mcos macos con playing spd cur].
  unfold sized in *. state_flat. cbv [objects trailLength] in *.
  split; [exact Hlen |]. rewrite length_app. apply Forall_app. split.
  - eapply Forall_impl; [exact Hobj |]. intros ?. apply whole_grows. lia.
  - apply Forall_singleton. intros pts. cbn. intros [= <-].
    rewrite length_replicate. split; [exact Hlen |].
    exists particle. split; [reflexivity | lia].
Qed.

Lemma advance_sized (delta : float) : inv (sized n) (advance delta).
Proof using Hn.
  unfold advance, updateElasticBreakup, updateNonelasticBreakup, updateInelasticBreakup,
    elasticPhase, nonelasticPhase, inelasticPhase.
  repeat store_step
    ltac:(idtac;
          lazymatch goal with
          | |- inv _ (updateTrail _) => apply updateTrail_sized
          | |- inv _ (createTrail _) => apply createTrail_sized
          end)
    ltac:(apply sized_modifyObj; same_trail) sized_side.
Qed.
End Sized.

(** Every trail of the store has as many points as new trails are given,
    and its particle in the store. *)
Definition well_sized (s : State) : bool :=
  forallb (fun o =>
             match points_of o with
             | Some pts =>
                 Nat.eqb (length pts) (trailLength s)
                 && match particle_of o with
                    | Some p => p <? length (objects s)
                    | None => false
                    end
             | None => true
             end) (objects s).

Lemma well_sized_sized (s : State) : well_sized s = true <-> sized (trailLength s) s.
Proof.
  unfold well_sized, sized. rewrite forallb_forall, Forall_forall. split.
  - intros H. split; [reflexivity |]. intros o Ho pts Hpts.
    apply list_elem_of_In in Ho. specialize (H o Ho). rewrite Hpts in H.
    apply andb_true_iff in H as [Hlen Hp]. split; [apply Nat.eqb_eq, Hlen |].
    destruct (particle_of o) as [p |]; [| discriminate].
    exists p. split; [reflexivity | apply Nat.ltb_lt, Hp].
  - intros [_ H] o Ho. apply list_elem_of_In in Ho. specialize (H o Ho).
    destruct (points_of o) as [pts |] eqn:Hpts; [| reflexivity].
    destruct (H pts Hpts) as (Hlen & p & -> & Hlt).
    apply andb_true_iff. split; [apply Nat.eqb_eq, Hlen | apply Nat.ltb_lt, Hlt].
Qed.

Lemma update_sized (n : nat) (delta : float) : 1 <= n -> inv (sized n) (update delta).
Proof.
  intros Hn. apply inv_update; [apply advance_sized, Hn | |]; intros; destruct s; assumption.
Qed.

(** X15.  When trails have at least one point and every trail of the store is
    whole (it has [trailLength] points, and its particle is in the store),
    this is so after any number of ticks as well: [updateTrail] pops a point
    and puts one in front, and the trails the ticks make are whole. *)
Theorem trails_keep_their_length (deltas : list float) (s : State) :
  1 <= trailLength s ->
  well_sized s = true ->
  trailLength (snd (ticks deltas s)) = trailLength s /\
  well_sized (snd (ticks deltas s)) = true.
Proof.
  intros Hn Hs. apply well_sized_sized in Hs.
  apply (inv_ticks _ deltas (fun delta => update_sized _ delta Hn)) in Hs.
  split; [exact (proj1 Hs) |]. apply well_sized_sized. rewrite (proj1 Hs). exact Hs.
Qed.

Lemma trails_keep_their_length_witness :
  1 <= trailLength (snd (elasticScene sample)) /\
  well_sized (snd (elasticScene sample)) = true /\
  well_sized (snd (frames 60 (snd (elasticScene sample)))) = true.
Proof.
  set (s := snd (elasticScene sample)).
  assert (Hn : 1 <= trailLength s) by (vm_compute; lia).
  assert (Hs : well_sized s = true) by (vm_compute; reflexivity).
  clearbody s. split; [exact Hn |]. split; [exact Hs |].
  exact (proj2 (trails_keep_their_length (replicate 60 0.016%float) s Hn Hs)).
Defined.

(** X17.  A trail that has lost its particle loses a point at every call of
    [updateTrail] that trails being on lets through: [points.pop()] has run
    by the time reading [particle.position] raises, and nothing puts the
    point back. *)
Theorem updateTrail_pops_before_it_raises (trail : ref) (s : State) (o : Object3D.t)
    (ud : UserData.t) (pts : list Vector3.t) :
  trailsEnabled s = true ->
  objects s !! trail = Some o ->
  Object3D.userData o = Some ud ->
  UserData.points ud = Some pts ->
  UserData.particle ud = None ->
  exists s' o',
    updateTrail trail s = (Throw TypeError, s') /\
    objects s' !! trail = Some o' /\
    points_of o' = Some (removelast pts) /\
    forall r, r <> trail -> objects s' !! r = objects s !! r.
Proof.
  intros Hon Ho Hud Hpts Hnone.
  rewrite (updateTrail_eq trail s o ud pts Hon Ho Hud Hpts), Hnone.
  eexists _, _. split; [reflexivity |].
  split; [apply (lookup_modified trail o _ s Ho) |].
  split; [destruct o, ud; reflexivity |].
  intros r Hne.
  destruct s as [objs sc ten tlen tape rpos msin mcos macos con playing spd cur].
  cbn [objects set_objects]. apply list_lookup_insert_ne. congruence.
Qed.

Lemma updateTrail_pops_before_it_raises_witness :
  exists s' o',
    updateTrail 0%nat strayTrail = (Throw TypeError, s') /\
    objects s' !! 0%nat = Some o' /\
    points_of o' = Some [Vector3.zero].
Proof.
  destruct (updateTrail_pops_before_it_raises 0%nat strayTrail _ _ [Vector3.zero; Vector3.one]
              eq_refl eq_refl eq_refl eq_refl eq_refl)
    as (s' & o' & Hrun & Ho' & Hpts & _).
  exists s', o'. auto.
Defined.

Lemma trails_switched_off_stay_put_witness :
  trailsEnabled (snd (elasticScene sample)) = true /\
  fst (toggleTrails (snd (elasticScene sample))) = Ok false.
Proof.
  set (s := snd (elasticScene sample)).
  assert (Hon : trailsEnabled s = true) by (vm_compute; reflexivity).
  clearbody s. split; [exact Hon |].
  exact (proj1 (trails_switched_off_stay_put (replicate 60 0.016%float) s Hon)).
Defined.

(** ** How long an effect lives *)

Section Lifetimes.
Local Open Scope float_scope.

(** The answers of [k] updates of an effect with life [life] that loses
    [decay] at each. *)
Fixpoint answers (decay : float) (k : nat) (life : float) : list bool :=
  match k with
  | O => []
  | S k' => (0 <? life - decay) :: answers decay k' (life - decay)
  end.

Lemma updateGammaRay_aged (s : State) (r : ref) (o : Object3D.t) (ud : UserData.t)
    (life decay : float) (v : Vector3.t) :
  objects s !! r = Some o ->
  Object3D.userData o = Some ud ->
  UserData.life ud = Some life -> UserData.decay ud = Some decay ->
  UserData.velocity ud = Some v ->
  wp (updateGammaRay r)
     (fun b s' =>
        b = (0 <? life - decay) /\
        exists o' ud',
          objects s' !! r = Some o' /\ Object3D.userData o' = Some ud' /\
          UserData.life ud' = Some (life - decay) /\ UserData.decay ud' = Some decay /\
          UserData.velocity ud' = Some v) s.
Proof.
  intros Hr Hud Hlife Hdecay Hv. unfold updateGammaRay.
  apply wp_bind. unfold lookupObj. apply wp_gets. cbv beta. rewrite Hr, Hud.
  repeat known_step;
    (split; [rewrite Hlife, Hdecay; reflexivity |]); eexists _, _;
    (split; [eassumption |]); cbn; rewrite Hud; cbn;
    rewrite Hlife, Hdecay; auto.
Qed.

Lemma updateGammaRay_answers (k : nat) :
  forall (s : State) (r : ref) (o : Object3D.t) (ud : UserData.t)
         (life decay : float) (v : Vector3.t),
    objects s !! r = Some o ->
    Object3D.userData o = Some ud ->
    UserData.life ud = Some life -> UserData.decay ud = Some decay ->
    UserData.velocity ud = Some v ->
    fst (repeatM k (updateGammaRay r) s) = Ok (answers decay k life).
Proof.
  induction k as [| k IH]; intros s r o ud life decay v Hr Hud Hlife Hdecay Hv;
    cbn [repeatM answers].
  - reflexivity.
  - destruct (updateGammaRay_aged s r o ud life decay v Hr Hud Hlife Hdecay Hv)
      as (b & s1 & Hrun & -> & o' & ud' & Hr' & Hud' & Hlife' & Hdecay' & Hv').
    rewrite (bind_Ok _ _ _ _ _ Hrun).
    specialize (IH s1 r o' ud' _ _ v Hr' Hud' Hlife' Hdecay' Hv').
    unfold bind. destruct (repeatM k (updateGammaRay r) s1) as [[rest | e] s2];
      cbn [fst] in *; [injection IH as ->; reflexivity | discriminate].
Qed.

(** X16.  A gamma ray with the life and the decay [createGammaRay] gives it is
    alive after each of its first 39 updates and dead after the 40th,
    wherever it starts and whichever way it flies: the filter over the
    rays drops it in its 40th tick. *)
Theorem gamma_ray_lives_40_updates (s : State) (r : ref) (o : Object3D.t)
    (ud : UserData.t) (v : Vector3.t) :
  objects s !! r = Some o ->
  Object3D.userData o = Some ud ->
  UserData.life ud = Some 1 -> UserData.decay ud = Some 0.025 ->
  UserData.velocity ud = Some v ->
  fst (repeatM 40 (updateGammaRay r) s) = Ok (replicate 39 true ++ [false]).
Proof.
  intros Hr Hud Hlife Hdecay Hv.
  rewrite (updateGammaRay_answers 40 s r o ud 1 0.025 v Hr Hud Hlife Hdecay Hv).
  vm_compute. reflexivity.
Qed.
End Lifetimes.

Lemma gamma_ray_lives_40_updates_witness :
  fst (repeatM 40 (updateGammaRay 0%nat) (snd (createGammaRay Vector3.zero sample)))
  = Ok (replicate 39 true ++ [false]).
Proof.
  eapply (gamma_ray_lives_40_updates _ 0%nat); reflexivity.
Defined.
